(** * ONVIF events service: topic classification, event extractors,
      PullPoint subscription session and polling loop

    A shallow embedding of [events.ts] (class [Events] and the utility
    functions that follow it) together with the properties that the design
    specification states about it.

    Modelling conventions.
    - A JavaScript string is a [string] of code units; topics and item names
      of ONVIF are ASCII, and [toLowerCase] maps the letters [A]..[Z] to
      [a]..[z] and leaves every other code unit alone.
    - A [Date] is its time value in milliseconds, [None] being the invalid
      date (time value NaN).  [Date.now()] is an integer clock reading.
    - The retry delay [reconnectMs] is a JavaScript number; every value it can
      take (10 * 1.5^n below the ceiling, or the ceiling) has at most 41
      significant bits, so double arithmetic on it is exact and it is modelled
      by a rational kept in lowest terms.
    - An asynchronous method is a state transformer over the [Events] object
      that also produces the ordered list of its observable effects (requests
      sent, signals emitted, sleeps) and completes normally or by throwing.
      What the device answers and what the clock reads are arguments; an
      answer is the response once decoded by [linerase], whose source is not
      part of the service.
    - [emit] is the one of [EventEmitter]: it calls the listeners attached
      to the signal, and an [error] signal that has no listener is thrown.
      Whether [error] has listeners, and how they complete, is part of what a
      turn of the loop gets from outside.  The listeners of [event] belong to
      the consumer and are taken to return normally.
    - A method started with [void] is not awaited.  [stopEventLoop] returns
      once the unsubscribe request is on its way, and what is left of the
      unsubscription is a computation of its own.  The calls are run one
      after the other, each with the work it leaves behind; a consumer call
      that lands between two [await]s of the loop is not modelled. *)

From Stdlib Require Import ZArith QArith Qminmax List String Ascii Bool Lia.
From Stdlib Require Import DecimalString Lqa Sorted.
Import ListNotations.

Set Implicit Arguments.

Local Open Scope string_scope.

(* ------------------------------------------------------------------ *)
(** ** JavaScript strings *)

Module JsString.

(** [String.prototype.toLowerCase] on one ASCII code unit. *)
Definition lowerUnit (c : ascii) : ascii :=
  let n := N_of_ascii c in
  if (65 <=? n)%N && (n <=? 90)%N then ascii_of_N (n + 32) else c.

Fixpoint toLowerCase (s : string) : string :=
  match s with
  | EmptyString => EmptyString
  | String c r => String (lowerUnit c) (toLowerCase r)
  end.

(** [s.startsWith(p)]. *)
Fixpoint startsWith (s p : string) : bool :=
  match p, s with
  | EmptyString, _ => true
  | String _ _, EmptyString => false
  | String a p', String b s' => Ascii.eqb a b && startsWith s' p'
  end.

(** [s.includes(p)]: [p] occurs in [s] at some position. *)
Fixpoint includes (s p : string) : bool :=
  startsWith s p ||
  match s with
  | EmptyString => false
  | String _ r => includes r p
  end.

(** [s] is truthy iff it is not the empty string. *)
Definition truthy (s : string) : bool :=
  match s with EmptyString => false | _ => true end.

(** [p] occurs in [t] up to the case of ASCII letters. *)
Definition containsIgnoreCase (t p : string) : Prop :=
  exists a m b, t = a ++ m ++ b /\ toLowerCase m = toLowerCase p.

End JsString.

Import JsString.

(* ------------------------------------------------------------------ *)
(** ** Event categories and [categorizeEvent] *)

Inductive EventCategory : Type :=
| motion | face | person | vehicle | animal | license_plate | tamper
| analytics | ptz | audio | recording | digital_input | relay | device
| unknown.

Definition EventCategory_eq_dec (a b : EventCategory) : {a = b} + {a <> b}.
Proof. decide equality. Defined.

Definition category_eqb (a b : EventCategory) : bool :=
  if EventCategory_eq_dec a b then true else false.

(** [categorizeEvent(topic)], branch for branch. *)
Definition categorizeEvent (topic : string) : EventCategory :=
  let topicLower := toLowerCase topic in
  if includes topicLower "facedetect" || includes topicLower "facedetection"
  then face
  else if includes topicLower "peopledetect"
          || includes topicLower "persondetect"
          || includes topicLower "humandetect"
  then person
  else if includes topicLower "vehicledetect" || includes topicLower "cardetect"
  then vehicle
  else if includes topicLower "dogcatdetect"
          || includes topicLower "animaldetect"
          || includes topicLower "petdetect"
  then animal
  else if includes topicLower "licenseplate" || includes topicLower "anpr"
  then license_plate
  else if includes topicLower "motiondetect"
          || includes topicLower "cellmotion"
          || includes topicLower "linedetect"
          || includes topicLower "fielddetect"
          || includes topicLower "motionalarm"
  then motion
  else if includes topicLower "imagetooblurry"
          || includes topicLower "imagetoodark"
          || includes topicLower "imagetoobright"
          || includes topicLower "globalscenechange"
          || includes topicLower "tamper"
  then tamper
  else if includes topicLower "audioanalytics" || includes topicLower "audiodetect"
  then audio
  else if includes topicLower "digitalinput"
          || includes topicLower "trigger/digitalinput"
  then digital_input
  else if includes topicLower "relay" || includes topicLower "relayoutput"
  then relay
  else if includes topicLower "ptzcontroller" || includes topicLower "ptzstatus"
  then ptz
  else if includes topicLower "recording"
  then recording
  else if includes topicLower "videoanalytics" || includes topicLower "analytics"
  then analytics
  else if includes topicLower "device/"
  then device
  else unknown.

(** The pattern groups of [categorizeEvent] as an ordered table: the
    categories in the priority order of the specification, each with the
    substrings its branch tests. *)
Definition patternGroups : list (EventCategory * list string) :=
  [ (face, ["facedetect"; "facedetection"]);
    (person, ["peopledetect"; "persondetect"; "humandetect"]);
    (vehicle, ["vehicledetect"; "cardetect"]);
    (animal, ["dogcatdetect"; "animaldetect"; "petdetect"]);
    (license_plate, ["licenseplate"; "anpr"]);
    (motion, ["motiondetect"; "cellmotion"; "linedetect"; "fielddetect";
              "motionalarm"]);
    (tamper, ["imagetooblurry"; "imagetoodark"; "imagetoobright";
              "globalscenechange"; "tamper"]);
    (audio, ["audioanalytics"; "audiodetect"]);
    (digital_input, ["digitalinput"; "trigger/digitalinput"]);
    (relay, ["relay"; "relayoutput"]);
    (ptz, ["ptzcontroller"; "ptzstatus"]);
    (recording, ["recording"]);
    (analytics, ["videoanalytics"; "analytics"]);
    (device, ["device/"]) ].

(** Some pattern of the group occurs in the (lower-cased) topic. *)
Definition groupMatches (topicLower : string) (pats : list string) : bool :=
  existsb (includes topicLower) pats.

(** The specification's reading of the classifier: walk the table in order
    and answer with the first group that matches, [unknown] when none does. *)
Fixpoint classifyByPriority (groups : list (EventCategory * list string))
         (topicLower : string) : EventCategory :=
  match groups with
  | [] => unknown
  | (c, pats) :: rest =>
      if groupMatches topicLower pats then c
      else classifyByPriority rest topicLower
  end.

Local Open Scope list_scope.

(* ------------------------------------------------------------------ *)
(** ** Values, dates and errors *)

(** A [Date]: its time value in milliseconds since the epoch, [None] for the
    invalid date. *)
Definition JsDate : Type := option Z.

(** Largest magnitude of a time value (8.64e15 ms). *)
Definition maxTimeValue : Z := 8640000000000000.

(** [new Date(v)] for an integral [v]: TimeClip. *)
Definition newDate (v : Z) : JsDate :=
  if (Z.abs v <=? maxTimeValue)%Z then Some v else None.

(** A thrown [Error]: its message and its [code] property when it has one. *)
Record JsError : Type := mkError { err_message : string; err_code : option string }.

(** [new Error(msg)]. *)
Definition newError (msg : string) : JsError := mkError msg None.

(** How a call completes. *)
Inductive Completion (A : Type) : Type :=
| Normal (a : A)
| Throw (e : JsError).
Arguments Normal {A} a.
Arguments Throw {A} e.

(** A value of type [unknown] in a decoded payload. *)
Inductive JsValue (number : Type) : Type :=
| VUndefined
| VNull
| VBool (b : bool)
| VNumber (n : number)
| VString (s : string).
Arguments VUndefined {number}.
Arguments VNull {number}.
Arguments VBool {number} b.
Arguments VNumber {number} n.
Arguments VString {number} s.

(** A value that is to become a [Date] ([currentTime], [terminationTime],
    [utcTime]): absent, already a [Date], a number, a string, or any other
    object. *)
Inductive RawTime (number : Type) : Type :=
| RAbsent
| RDate (d : JsDate)
| RNumber (n : number)
| RString (s : string)
| ROther.
Arguments RAbsent {number}.
Arguments RDate {number} d.
Arguments RNumber {number} n.
Arguments RString {number} s.
Arguments ROther {number}.

(** A parsed URL; only its [href] is used. *)
Record URL : Type := mkURL { href : string }.

(** What the events service takes from the JavaScript engine and from the
    [Onvif] connection object without looking inside: double-precision
    numbers, date parsing and the address normalisation [parseUrl]. *)
Class JsEngine : Type := {
  number : Type;
  Number_toString : number -> string;          (* String(n) *)
  ToNumber : JsValue number -> number;         (* Number(v) *)
  number_truthy : number -> bool;              (* n is neither 0 nor NaN *)
  Date_ofNumber : number -> JsDate;            (* new Date(n) *)
  Date_parse : string -> JsDate;               (* new Date(s) *)
  parseUrl : string -> Completion URL          (* this.onvif.parseUrl *)
}.

(** An engine whose numbers are the integers, for closed examples. *)
Definition integerEngine : JsEngine := {|
  number := Z;
  Number_toString := fun n => NilEmpty.string_of_int (Z.to_int n);
  ToNumber := fun v =>
    match v with
    | VNumber n => n
    | VBool true => 1%Z
    | _ => 0%Z
    end;
  number_truthy := fun n => negb (n =? 0)%Z;
  Date_ofNumber := newDate;
  Date_parse := fun _ => None;
  parseUrl := fun s =>
    if truthy s then Normal (mkURL s) else Throw (mkError "Invalid URL" (Some "ERR_INVALID_URL"))
|}.

(* ------------------------------------------------------------------ *)
(** ** Notification messages *)

(** A field that arrives as one item or as an array of items. *)
Inductive OneOrMany (A : Type) : Type :=
| One (a : A)
| Many (l : list A).
Arguments One {A} a.
Arguments Many {A} l.

(** [Array.isArray(x) ? x : [x]]. *)
Definition toArray {A : Type} (x : OneOrMany A) : list A :=
  match x with
  | One a => [a]
  | Many l => l
  end.

Section Messages.
Context {E : JsEngine}.

(** [String(v)]. *)
Definition ToString (v : JsValue number) : string :=
  match v with
  | VUndefined => "undefined"
  | VNull => "null"
  | VBool true => "true"
  | VBool false => "false"
  | VNumber n => Number_toString n
  | VString s => s
  end.

(** [v === true || v === 'true' || v === '1']. *)
Definition isTrueValue (v : JsValue number) : bool :=
  match v with
  | VBool b => b
  | VString s => (s =? "true") || (s =? "1")
  | _ => false
  end.

(** Truthiness of a date-like value. *)
Definition rawTruthy (v : RawTime number) : bool :=
  match v with
  | RAbsent => false
  | RDate _ => true
  | RNumber n => number_truthy n
  | RString s => truthy s
  | ROther => true
  end.

(** [toDate(value)]; [now] is the clock reading used by [new Date()]. *)
Definition toDate (now : Z) (value : RawTime number) : JsDate :=
  match value with
  | RDate d => d
  | RString s => Date_parse s
  | RNumber n => Date_ofNumber n
  | _ => newDate now
  end.

Record SimpleItem : Type := mkItem {
  name : option string;
  value : JsValue number
}.

(** [source], [key] and [data] sections. *)
Record ItemSection : Type := mkSection {
  simpleItem : option (OneOrMany SimpleItem)
}.

Record MessageContent : Type := mkContent {
  utcTime : RawTime number;
  source : option ItemSection;
  key : option ItemSection;
  data : option ItemSection
}.

Record Topic : Type := mkTopic {
  topic_text : option string;     (* the [_] property *)
  dialect : option string
}.

Record NotificationMessage : Type := mkMessage {
  topic : option Topic;
  message : option MessageContent
}.

(** [message.topic?._], [undefined] and the empty string both falsy. *)
Definition topicOf (m : NotificationMessage) : option string :=
  match topic m with
  | Some t =>
      match topic_text t with
      | Some s => if truthy s then Some s else None
      | None => None
      end
  | None => None
  end.

(** [message.message?.data?.simpleItem] and the like, as an array when
    truthy. *)
Definition itemsOf (sec : MessageContent -> option ItemSection)
           (m : NotificationMessage) : option (list SimpleItem) :=
  match message m with
  | Some c =>
      match sec c with
      | Some s => option_map toArray (simpleItem s)
      | None => None
      end
  | None => None
  end.

(** [(item.name ?? '').toLowerCase()]. *)
Definition itemName (item : SimpleItem) : string :=
  toLowerCase (match name item with Some n => n | None => "" end).

(** [if (message.message?.utcTime) result.timestamp = toDate(...)]. *)
Definition timestampOf (now : Z) (m : NotificationMessage) : option JsDate :=
  match message m with
  | Some c => if rawTruthy (utcTime c) then Some (toDate now (utcTime c)) else None
  | None => None
  end.

End Messages.

(* ------------------------------------------------------------------ *)
(** ** Event extractors *)

Module MotionEventData.
Record t : Type := mk {
  isMotion : bool;
  videoSourceToken : option string;
  rule : option string;
  timestamp : option JsDate
}.
End MotionEventData.

Module DetectionEventData.
(** The [additionalData] object; it is attached only when it has a key. *)
Record extra (number : Type) : Type := mkExtra {
  plateText : option string;
  confidence : option number
}.
Record t (number : Type) : Type := mk {
  category : EventCategory;
  isDetected : bool;
  videoSourceToken : option string;
  rule : option string;
  timestamp : option JsDate;
  data : option (extra number)
}.
End DetectionEventData.

Module AudioEventData.
Record t (number : Type) : Type := mk {
  isAudioDetected : bool;
  audioSourceToken : option string;
  audioType : option string;
  level : option number;
  rule : option string;
  timestamp : option JsDate
}.
End AudioEventData.

Section Extractors.
Context {E : JsEngine}.

(** Body of the loop over the data items in [parseMotionEvent]; the loop
    variable is [isMotion]. *)
Definition motionDataStep (isMotion : bool) (item : SimpleItem) : bool :=
  let name := itemName item in
  if (name =? "ismotion") || (name =? "state")
  then isTrueValue (value item)
  else isMotion.

(** Body of the loop over the source items in [parseMotionEvent] and in
    [parseDetectionEvent] (the same statements); the loop variables are
    [videoSourceToken] and [rule]. *)
Definition videoSourceStep (vars : option string * option string)
           (item : SimpleItem) : option string * option string :=
  let name := itemName item in
  let '(videoSourceToken, rule) := vars in
  let videoSourceToken :=
    if (name =? "videosourcetoken") || (name =? "videosourceconfigurationtoken")
    then Some (ToString (value item))
    else videoSourceToken in
  let rule := if name =? "rule" then Some (ToString (value item)) else rule in
  (videoSourceToken, rule).

(** [for (const item of items) body] over an optional item array. *)
Definition forItems {S : Type} (body : S -> SimpleItem -> S)
           (items : option (list SimpleItem)) (init : S) : S :=
  match items with
  | Some l => fold_left body l init
  | None => init
  end.

Definition parseMotionEvent (now : Z) (m : NotificationMessage)
  : option MotionEventData.t :=
  match topicOf m with
  | None => None
  | Some topic =>
      if category_eqb (categorizeEvent topic) motion then
        let isMotion := forItems motionDataStep (itemsOf data m) false in
        let '(videoSourceToken, rule) :=
          forItems videoSourceStep (itemsOf source m) (None, None) in
        Some (MotionEventData.mk isMotion videoSourceToken rule
                                 (timestampOf now m))
      else None
  end.

(** Body of the loop over the data items in [parseDetectionEvent]; the
    loop variables are [isDetected] and the two keys of [additionalData]. *)
Definition detectionDataStep
           (vars : bool * option string * option number)
           (item : SimpleItem) : bool * option string * option number :=
  let name := itemName item in
  let '(isDetected, plateText, confidence) := vars in
  let isDetected :=
    if (name =? "isdetected") || (name =? "state") || (name =? "isactive")
    then isTrueValue (value item)
    else isDetected in
  let plateText :=
    if (name =? "platetext") || (name =? "licenseplatenumber")
    then Some (ToString (value item))
    else plateText in
  let confidence :=
    if name =? "confidence" then Some (ToNumber (value item)) else confidence in
  (isDetected, plateText, confidence).

Definition isDetectionCategory (c : EventCategory) : bool :=
  match c with
  | face | person | vehicle | animal | license_plate => true
  | _ => false
  end.

Definition parseDetectionEvent (now : Z) (m : NotificationMessage)
  : option (DetectionEventData.t number) :=
  match topicOf m with
  | None => None
  | Some topic =>
      let category := categorizeEvent topic in
      if isDetectionCategory category then
        let '(isDetected, plateText, confidence) :=
          forItems detectionDataStep (itemsOf data m) (false, None, None) in
        let '(videoSourceToken, rule) :=
          forItems videoSourceStep (itemsOf source m) (None, None) in
        let additionalData :=
          match plateText, confidence with
          | None, None => None
          | _, _ => Some (DetectionEventData.mkExtra plateText confidence)
          end in
        Some (DetectionEventData.mk category isDetected videoSourceToken rule
                                    (timestampOf now m) additionalData)
      else None
  end.

(** Body of the loop over the data items in [parseAudioEvent]; the loop
    variables are [isAudioDetected], [audioType] and [level]. *)
Definition audioDataStep
           (vars : bool * option string * option number)
           (item : SimpleItem) : bool * option string * option number :=
  let name := itemName item in
  let '(isAudioDetected, audioType, level) := vars in
  let isAudioDetected :=
    if (name =? "isaudiodetected") || (name =? "state")
       || (name =? "isactive") || (name =? "issound")
    then isTrueValue (value item)
    else isAudioDetected in
  let audioType :=
    if (name =? "audiotype") || (name =? "soundtype") || (name =? "type")
    then Some (ToString (value item))
    else audioType in
  let level :=
    if (name =? "level") || (name =? "soundlevel") || (name =? "audiolevel")
    then Some (ToNumber (value item))
    else level in
  (isAudioDetected, audioType, level).

(** Body of the loop over the source items in [parseAudioEvent]; the loop
    variables are [audioSourceToken] and [rule]. *)
Definition audioSourceStep (vars : option string * option string)
           (item : SimpleItem) : option string * option string :=
  let name := itemName item in
  let '(audioSourceToken, rule) := vars in
  let audioSourceToken :=
    if (name =? "audiosourcetoken") || (name =? "audiosourceconfigurationtoken")
    then Some (ToString (value item))
    else audioSourceToken in
  let rule := if name =? "rule" then Some (ToString (value item)) else rule in
  (audioSourceToken, rule).

(** The fallback of [parseAudioEvent] that reads the audio type off the
    topic. *)
Definition audioTypeOfTopic (topic : string) : string :=
  let topicLower := toLowerCase topic in
  if includes topicLower "scream" then "scream"
  else if includes topicLower "gunshot" then "gunshot"
  else if includes topicLower "glass" || includes topicLower "break"
  then "glass_break"
  else if includes topicLower "cry" || includes topicLower "baby" then "cry"
  else if includes topicLower "bark" || includes topicLower "dog" then "bark"
  else if includes topicLower "alarm" then "alarm"
  else "generic".

Definition parseAudioEvent (now : Z) (m : NotificationMessage)
  : option (AudioEventData.t number) :=
  match topicOf m with
  | None => None
  | Some topic =>
      if category_eqb (categorizeEvent topic) audio then
        let '(isAudioDetected, audioType, level) :=
          forItems audioDataStep (itemsOf data m) (false, None, None) in
        let '(audioSourceToken, rule) :=
          forItems audioSourceStep (itemsOf source m) (None, None) in
        let audioType :=
          match audioType with
          | Some s => if truthy s then s else audioTypeOfTopic topic
          | None => audioTypeOfTopic topic
          end in
        Some (AudioEventData.mk isAudioDetected audioSourceToken
                                (Some audioType) level rule
                                (timestampOf now m))
      else None
  end.

(** The items of [items] whose lower-cased name is one of [aliases]. *)
Definition hasAlias (aliases : list string) (item : SimpleItem) : bool :=
  existsb (String.eqb (itemName item)) aliases.

(** The last element of a list that satisfies [p]. *)
Definition findLast {A : Type} (p : A -> bool) (l : list A) : option A :=
  find p (rev l).

End Extractors.

(* ------------------------------------------------------------------ *)
(** ** Responses that carry the device's clock *)

Record ReferenceParameters : Type := mkParams {
  subscriptionId : option string
}.

Record SubscriptionReference : Type := mkReference {
  address : URL;
  referenceParameters : option ReferenceParameters
}.

Module PullPointSubscription.
Record t : Type := mk {
  subscriptionReference : SubscriptionReference;
  currentTime : JsDate;
  terminationTime : JsDate
}.
End PullPointSubscription.

Module RenewResult.
Record t : Type := mk {
  currentTime : JsDate;
  terminationTime : JsDate
}.
End RenewResult.

Module Timed.
(** The structural type [{ currentTime: Date; terminationTime: Date }]
    that [calculateTerminationTime] accepts. *)
Class Response (A : Type) : Type := {
  currentTime : A -> JsDate;
  terminationTime : A -> JsDate
}.
End Timed.

#[global] Instance PullPointSubscription_timed : Timed.Response PullPointSubscription.t := {|
  Timed.currentTime := PullPointSubscription.currentTime;
  Timed.terminationTime := PullPointSubscription.terminationTime
|}.

#[global] Instance RenewResult_timed : Timed.Response RenewResult.t := {|
  Timed.currentTime := RenewResult.currentTime;
  Timed.terminationTime := RenewResult.terminationTime
|}.

(** [calculateTerminationTime(response)]; [now] is what [Date.now()] reads.
    A subtraction with an invalid date yields NaN, hence the invalid date. *)
Definition calculateTerminationTime {A : Type} `{Timed.Response A}
           (now : Z) (response : A) : JsDate :=
  match Timed.currentTime response, Timed.terminationTime response with
  | Some current, Some termination =>
      let serverOffset := (current - now)%Z in
      newDate (termination - serverOffset)
  | _, _ => None
  end.

(** The deadline formula of the specification, on time values. *)
Definition localDeadline (terminationTime deviceCurrentTime localNow : Z) : Z :=
  (terminationTime - (deviceCurrentTime - localNow))%Z.

(* ------------------------------------------------------------------ *)
(** ** Retry policy *)

Definition RETRY_ERROR_CODES : list string :=
  ["ECONNREFUSED"; "ECONNRESET"; "ETIMEDOUT"; "ENETUNREACH"; "EHOSTUNREACH"].

Definition MAX_RECONNECT_MS : Q := inject_Z (2 * 60 * 1000).

Definition DEFAULT_MESSAGE_LIMIT : Z := 10.

(** [isRetryableError(error)]. *)
Definition isRetryableError (error : JsError) : bool :=
  match err_code error with
  | Some code => existsb (String.eqb code) RETRY_ERROR_CODES
  | None => false
  end.

(** [a < b] on numbers. *)
Definition Qltb (a b : Q) : bool := negb (Qle_bool b a).

(** [Math.min(a, b)]. *)
Definition Math_min (a b : Q) : Q := if Qle_bool a b then a else b.

(** The update of [reconnectMs] after a sleep:
    [if (r < MAX) r = Math.min(r * 1.5, MAX)]. *)
Definition growDelay (reconnectMs : Q) : Q :=
  if Qltb reconnectMs MAX_RECONNECT_MS
  then Qred (Math_min (reconnectMs * (3 # 2)) MAX_RECONNECT_MS)
  else reconnectMs.

(** The delay after [n] consecutive retryable failures, starting from the
    floor of 10 ms. *)
Fixpoint delayAfter (n : nat) : Q :=
  match n with
  | O => 10
  | S k => growDelay (delayAfter k)
  end.



(* ------------------------------------------------------------------ *)
(** ** The [Events] object *)

(** A JavaScript [Set]: insertion-ordered, without duplicates. *)
Definition Set_add (c : EventCategory) (s : list EventCategory) : list EventCategory :=
  if existsb (category_eqb c) s then s else s ++ [c].

Definition Set_has (c : EventCategory) (s : list EventCategory) : bool :=
  existsb (category_eqb c) s.

Record Events : Type := mkEvents {
  subscription : option PullPointSubscription.t;
  terminationTime : option JsDate;
  shouldPoll : bool;
  reconnectMs : Q;
  messageLimit : Z;
  observedCategories : list EventCategory
}.

(** The object as the constructor leaves it. *)
Definition newEvents : Events :=
  mkEvents None None false 10 DEFAULT_MESSAGE_LIMIT [].

Definition set_subscription (v : option PullPointSubscription.t) (o : Events) : Events :=
  mkEvents v (terminationTime o) (shouldPoll o) (reconnectMs o)
           (messageLimit o) (observedCategories o).

Definition set_terminationTime (v : option JsDate) (o : Events) : Events :=
  mkEvents (subscription o) v (shouldPoll o) (reconnectMs o)
           (messageLimit o) (observedCategories o).

Definition set_shouldPoll (v : bool) (o : Events) : Events :=
  mkEvents (subscription o) (terminationTime o) v (reconnectMs o)
           (messageLimit o) (observedCategories o).

Definition set_reconnectMs (v : Q) (o : Events) : Events :=
  mkEvents (subscription o) (terminationTime o) (shouldPoll o) v
           (messageLimit o) (observedCategories o).

Definition set_messageLimit (v : Z) (o : Events) : Events :=
  mkEvents (subscription o) (terminationTime o) (shouldPoll o) (reconnectMs o)
           v (observedCategories o).

Definition set_observedCategories (v : list EventCategory) (o : Events) : Events :=
  mkEvents (subscription o) (terminationTime o) (shouldPoll o) (reconnectMs o)
           (messageLimit o) v.

(** Requests the service sends to the device. *)
Inductive Operation : Type :=
| OpCreatePullPointSubscription
| OpPullMessages (limit : Z)
| OpRenew
| OpUnsubscribe.

Module PullMessagesResult.
Section WithEngine.
Context {E : JsEngine}.
Record t : Type := mk {
  currentTime : JsDate;
  terminationTime : JsDate;
  notificationMessage : list NotificationMessage
}.
End WithEngine.
End PullMessagesResult.

#[global] Instance PullMessagesResult_timed {E : JsEngine}
  : Timed.Response PullMessagesResult.t := {|
  Timed.currentTime := PullMessagesResult.currentTime;
  Timed.terminationTime := PullMessagesResult.terminationTime
|}.

Declare Scope js_scope.
Delimit Scope js_scope with js.

Section Session.
Context {E : JsEngine}.

(** Signals published through the event emitter. *)
Inductive Signal : Type :=
| EventSignal (m : NotificationMessage)
| ErrorSignal (e : JsError).

(** What a method does that an observer can see, in order: a request is
    sent, [emit] is called with a signal, the method sleeps. *)
Inductive Effect : Type :=
| Requested (op : Operation)
| Emitted (s : Signal)
| Slept (ms : Q).

(** A method body: from the object before to the object after, the effects
    performed, and the completion.  Mutations made before a throw stay. *)
Definition M (A : Type) : Type := Events -> Events * list Effect * Completion A.

Definition ret {A : Type} (a : A) : M A :=
  fun o => (o, [], Normal a).

Definition bind {A B : Type} (m : M A) (k : A -> M B) : M B :=
  fun o =>
    let '(o1, fx1, r) := m o in
    match r with
    | Normal a => let '(o2, fx2, r2) := k a o1 in (o2, fx1 ++ fx2, r2)
    | Throw e => (o1, fx1, Throw e)
    end.

Definition throw {A : Type} (e : JsError) : M A :=
  fun o => (o, [], Throw e).

(** [try { m } catch (e) { h e }]. *)
Definition tryCatch {A : Type} (m : M A) (h : JsError -> M A) : M A :=
  fun o =>
    let '(o1, fx1, r) := m o in
    match r with
    | Normal a => (o1, fx1, Normal a)
    | Throw e => let '(o2, fx2, r2) := h e o1 in (o2, fx1 ++ fx2, r2)
    end.

(** [try { m } finally { f }]: [f] always runs; the completion is that of
    [m] unless [f] throws. *)
Definition tryFinally {A : Type} (m : M A) (f : M unit) : M A :=
  fun o =>
    let '(o1, fx1, r) := m o in
    let '(o2, fx2, r2) := f o1 in
    match r2 with
    | Normal _ => (o2, fx1 ++ fx2, r)
    | Throw e => (o2, fx1 ++ fx2, Throw e)
    end.

Definition this : M Events := fun o => (o, [], Normal o).

Definition assign (f : Events -> Events) : M unit :=
  fun o => (f o, [], Normal tt).

Definition perform (fx : Effect) : M unit :=
  fun o => (o, [fx], Normal tt).

(** [await this.onvif.request(...)]: the request goes out and the answer
    of the device comes back, or the transport throws. *)
Definition request {A : Type} (op : Operation) (answer : Completion A) : M A :=
  fun o => (o, [Requested op], answer).

(** A synchronous call that may throw. *)
Definition call {A : Type} (r : Completion A) : M A :=
  fun o => (o, [], r).

(** The listeners attached to a signal at the moment it is emitted: [None]
    when there is none, otherwise how calling them one after the other
    completes (normally, or with what the first failing one throws). *)
Definition Listeners : Type := option (Completion unit).

(** Listeners that return normally. *)
Definition attentive : Listeners := Some (Normal tt).

(** [this.emit(name, payload)] of [EventEmitter].  The listeners of the
    signal are called, and what one of them throws comes out of [emit].
    Without a listener an [error] signal is thrown (its payload is the
    error) and any other signal is dropped. *)
Definition emit (listeners : Listeners) (s : Signal) : M unit :=
  bind (perform (Emitted s))
       (fun _ =>
          match listeners, s with
          | Some outcome, _ => call outcome
          | None, ErrorSignal e => throw e
          | None, EventSignal _ => ret tt
          end).

(** [void m()] for an asynchronous [m]: nobody awaits the promise, so how
    [m] completes reaches nobody (a rejection stays unhandled). *)
Definition background {A : Type} (m : M A) : M unit :=
  fun o => let '(o1, fx, _) := m o in (o1, fx, Normal tt).

(** [await this.sleep(ms)]. *)
Definition sleep (ms : Q) : M unit := perform (Slept ms).

(** [for (const x of l) body x]. *)
Fixpoint forOf {A : Type} (l : list A) (body : A -> M unit) : M unit :=
  match l with
  | [] => ret tt
  | x :: rest => bind (body x) (fun _ => forOf rest body)
  end.

End Session.

Notation "x <- m ;; k" := (bind m (fun x => k))
  (at level 61, m at next level, right associativity) : js_scope.
Notation "m ;; k" := (bind m (fun _ => k))
  (at level 61, right associativity) : js_scope.

(** What the device sends back, after decoding. *)
Section Answers.
Context {E : JsEngine}.

Record RawReference : Type := mkRawReference {
  raw_address : option string;      (* present and a string *)
  raw_referenceParameters : option ReferenceParameters
}.

Record RawSubscription : Type := mkRawSubscription {
  raw_subscriptionReference : option RawReference;
  raw_sub_currentTime : RawTime number;
  raw_sub_terminationTime : RawTime number
}.

Record RawPullMessages : Type := mkRawPull {
  raw_pull_currentTime : RawTime number;
  raw_pull_terminationTime : RawTime number;
  raw_notificationMessage : option (OneOrMany NotificationMessage)
}.

Record RawRenew : Type := mkRawRenew {
  raw_renew_currentTime : RawTime number;
  raw_renew_terminationTime : RawTime number
}.

End Answers.

(* ------------------------------------------------------------------ *)
(** ** Methods of [Events] *)

Section Methods.
Context {E : JsEngine}.
Local Open Scope js_scope.

Definition NO_SUBSCRIPTION : string :=
  "No active subscription. Call createPullPointSubscription first.".

(** [createPullPointSubscription(options)].  The options only shape the
    text of the request.  [answer] is [createPullPointSubscriptionResponse]
    once decoded ([None] when it is missing).  After the answer has arrived
    the clock is read up to three times: by [new Date()] in
    [toDate(response.currentTime)] ([now_current]) and in
    [toDate(response.terminationTime)] ([now_termination]) when the
    response lacks that time, and then by [Date.now()] in
    [calculateTerminationTime] ([now]). *)
Definition createPullPointSubscription
           (now_current now_termination now : Z)
           (answer : Completion (option RawSubscription))
  : M PullPointSubscription.t :=
  response <- request OpCreatePullPointSubscription answer ;;
  match response with
  | None => throw (newError "Invalid CreatePullPointSubscription response")
  | Some raw =>
      let address :=
        match raw_subscriptionReference raw with
        | Some r => match raw_address r with Some a => a | None => "" end
        | None => ""
        end in
      url <- call (parseUrl address) ;;
      let subscription :=
        PullPointSubscription.mk
          (mkReference url
             (match raw_subscriptionReference raw with
              | Some r => raw_referenceParameters r
              | None => None
              end))
          (toDate now_current (raw_sub_currentTime raw))
          (toDate now_termination (raw_sub_terminationTime raw)) in
      assign (set_subscription (Some subscription)) ;;
      assign (set_terminationTime
                (Some (calculateTerminationTime now subscription))) ;;
      ret subscription
  end.

(** The statements that record the category of one pulled message; they
    occur both in [pullMessages] and in [runEventLoop]. *)
Definition trackCategory (message : NotificationMessage) : M unit :=
  match topicOf message with
  | Some topic =>
      let category := categorizeEvent topic in
      if category_eqb category unknown then ret tt
      else
        o <- this ;;
        assign (set_observedCategories (Set_add category (observedCategories o)))
  | None => ret tt
  end.

(** [pullMessages(options)]; [opt_messageLimit] is [options.messageLimit]
    and [now] the clock when the answer is converted, which [new Date()]
    reads for a time the answer lacks. *)
Definition pullMessages
           (opt_messageLimit : option Z)
           (now : Z) (answer : Completion (option RawPullMessages))
  : M PullMessagesResult.t :=
  o <- this ;;
  match subscription o with
  | None => throw (newError NO_SUBSCRIPTION)
  | Some _ =>
      let limit :=
        match opt_messageLimit with Some l => l | None => messageLimit o end in
      response <- request (OpPullMessages limit) answer ;;
      match response with
      | None => throw (newError "Invalid PullMessages response")
      | Some raw =>
          let notifications :=
            match raw_notificationMessage raw with
            | Some x => toArray x
            | None => []
            end in
          forOf notifications trackCategory ;;
          ret (PullMessagesResult.mk
                 (toDate now (raw_pull_currentTime raw))
                 (toDate now (raw_pull_terminationTime raw))
                 notifications)
      end
  end.

(** [renew()]; [answer] is the decoded [renewResponse], or the error thrown
    by the transport or by reading a response that has no such element;
    [now] is the clock when the answer is converted. *)
Definition renew (now : Z) (answer : Completion RawRenew) : M RenewResult.t :=
  o <- this ;;
  match subscription o with
  | None => throw (newError NO_SUBSCRIPTION)
  | Some _ =>
      raw <- request OpRenew answer ;;
      ret (RenewResult.mk (toDate now (raw_renew_currentTime raw))
                          (toDate now (raw_renew_terminationTime raw)))
  end.

(** [unsubscribe()]. *)
Definition unsubscribe (answer : Completion unit) : M unit :=
  o <- this ;;
  match subscription o with
  | None => ret tt
  | Some _ =>
      tryFinally
        (tryCatch (request OpUnsubscribe answer) (fun _ => ret tt))
        (assign (set_subscription None) ;;
         assign (set_terminationTime None))
  end.

(** What one turn of the polling loop gets from outside: the clock at each
    point where it is read, the answer to each request it may send, and the
    listeners that [error] has when the [catch] block emits it. *)
Record Turn : Type := mkTurn {
  now_start : Z;
  create_answer : Completion (option RawSubscription);
  now_create_current : Z;
  now_create_termination : Z;
  now_created : Z;
  pull_answer : Completion (option RawPullMessages);
  now_pulled : Z;
  now_deadline : Z;
  renew_answer : Completion RawRenew;
  now_renewed : Z;
  unsubscribe_answer : Completion unit;
  error_listeners : Listeners
}.

(** [!this.subscription || !this.terminationTime ||
     Date.now() > this.terminationTime.getTime()]. *)
Definition needsSubscription (now : Z) (o : Events) : bool :=
  match subscription o, terminationTime o with
  | Some _, Some deadline =>
      match deadline with
      | Some t => (t <? now)%Z
      | None => false
      end
  | _, _ => true
  end.

(** Step 1 of the loop body: (re)create the subscription when there is
    none or its deadline has passed. *)
Definition ensureSubscription (env : Turn) : M unit :=
  o <- this ;;
  if needsSubscription (now_start env) o then
    createPullPointSubscription (now_create_current env)
                                (now_create_termination env)
                                (now_created env) (create_answer env) ;;
    assign (set_reconnectMs 10)
  else ret tt.

(** Step 3: the loop over the pulled messages.  The listeners of [event]
    are taken to return normally; with none attached the signal is dropped,
    which comes to the same. *)
Definition publish (messages : list NotificationMessage) : M unit :=
  forOf messages
        (fun message =>
           trackCategory message ;;
           emit attentive (EventSignal message)).

(** Step 5: the inner [try { renew } catch { }]. *)
Definition tryRenew (env : Turn) : M unit :=
  tryCatch
    (renewResult <- renew (now_renewed env) (renew_answer env) ;;
     assign (set_terminationTime
               (Some (calculateTerminationTime (now_renewed env) renewResult))))
    (fun _ => ret tt).

(** What follows a successful pull: steps 3, 4 and 5. *)
Definition afterPull (env : Turn) (result : PullMessagesResult.t) : M unit :=
  publish (PullMessagesResult.notificationMessage result) ;;
  assign (set_terminationTime
            (Some (calculateTerminationTime (now_deadline env) result))) ;;
  tryRenew env.

(** The [try] block of the loop body. *)
Definition pollOnce (env : Turn) : M unit :=
  ensureSubscription env ;;
  o <- this ;;
  result <- pullMessages (Some (messageLimit o)) (now_pulled env) (pull_answer env) ;;
  assign (set_reconnectMs 10) ;;
  afterPull env result.

(** The [catch] block of the loop body.  The [emit] is not guarded: what
    it throws leaves the [catch] block, and with it the loop. *)
Definition recover (env : Turn) (error : JsError) : M unit :=
  emit (error_listeners env) (ErrorSignal error) ;;
  if isRetryableError error then
    o <- this ;;
    sleep (reconnectMs o) ;;
    o <- this ;;
    assign (set_reconnectMs (growDelay (reconnectMs o)))
  else
    tryCatch (unsubscribe (unsubscribe_answer env)) (fun _ => ret tt).

(** One turn of [while (this.shouldPoll) { try ... catch ... }]. *)
Definition loopBody (env : Turn) : M unit :=
  tryCatch (pollOnce env) (recover env).

(** [runEventLoop()] over the turns whose answers are given; the loop
    itself ends when [shouldPoll] is found false, or when a turn throws (the
    promise of the loop is then rejected). *)
Fixpoint runEventLoop (turns : list Turn) : M unit :=
  match turns with
  | [] => ret tt
  | env :: rest =>
      o <- this ;;
      if shouldPoll o then loopBody env ;; runEventLoop rest else ret tt
  end.

(** [startEventLoop(options)]; [opt_messageLimit] is
    [options.messageLimit].  [void this.runEventLoop()] leaves the loop to
    itself: [turns] are the turns it makes before the next call on the
    object, and how it ends is not reported to the caller. *)
Definition startEventLoop (opt_messageLimit : option Z) (turns : list Turn)
  : M unit :=
  o <- this ;;
  if shouldPoll o then ret tt
  else
    assign (set_shouldPoll true) ;;
    assign (set_messageLimit
              (match opt_messageLimit with
               | Some l => l
               | None => DEFAULT_MESSAGE_LIMIT
               end)) ;;
    background (runEventLoop turns).

(** [unsubscribe()] up to its [await]: without a subscription the call is
    over; with one the request is on its way, and what is left (waiting
    for the answer, ignoring a failure, clearing the subscription) is the
    computation returned. *)
Definition unsubscribe_begin (answer : Completion unit) : M (M unit) :=
  o <- this ;;
  match subscription o with
  | None => ret (ret tt)
  | Some _ =>
      perform (Requested OpUnsubscribe) ;;
      ret (tryFinally
             (tryCatch (call answer) (fun _ => ret tt))
             (assign (set_subscription None) ;;
              assign (set_terminationTime None)))
  end.

(** [stopEventLoop()].  [void this.unsubscribe()] starts the unsubscription
    and does not wait for it: the call returns with the request on its way
    and the subscription still in place.  The value returned is what is left
    of the unsubscription, which runs once the device has answered. *)
Definition stopEventLoop (answer : Completion unit) : M (M unit) :=
  assign (set_shouldPoll false) ;;
  unsubscribe_begin answer.

(** A call that leaves work behind, together with that work: nothing comes
    in between, and how the work completes reaches nobody. *)
Definition settled (m : M (M unit)) : M unit :=
  rest <- m ;;
  background rest.

Definition getObservedCategories (o : Events) : list EventCategory :=
  observedCategories o.

Definition clearObservedCategories : M unit :=
  assign (set_observedCategories []).

Definition hasObservedCategory (c : EventCategory) (o : Events) : bool :=
  Set_has c (observedCategories o).

(** Calls a consumer can make on the object, with what the outside world
    answers to each. *)
Inductive Call : Type :=
| CallCreate (now_current now_termination now : Z)
             (answer : Completion (option RawSubscription))
| CallPull (opt_messageLimit : option Z) (now : Z)
           (answer : Completion (option RawPullMessages))
| CallRenew (now : Z) (answer : Completion RawRenew)
| CallUnsubscribe (answer : Completion unit)
| CallStart (opt_messageLimit : option Z) (turns : list Turn)
| CallStop (answer : Completion unit)
| CallClear.

Definition after {A : Type} (m : M A) (o : Events) : Events :=
  fst (fst (m o)).

Definition effectsOf {A : Type} (m : M A) (o : Events) : list Effect :=
  snd (fst (m o)).

Definition completionOf {A : Type} (m : M A) (o : Events) : Completion A :=
  snd (m o).

Definition perform_call (c : Call) (o : Events) : Events :=
  match c with
  | CallCreate now_current now_termination now answer =>
      after (createPullPointSubscription now_current now_termination now answer) o
  | CallPull l now answer => after (pullMessages l now answer) o
  | CallRenew now answer => after (renew now answer) o
  | CallUnsubscribe answer => after (unsubscribe answer) o
  | CallStart l turns => after (startEventLoop l turns) o
  | CallStop answer => after (settled (stopEventLoop answer)) o
  | CallClear => after clearObservedCategories o
  end.

(** The object after a history of calls on a fresh instance. *)
Definition history (calls : list Call) : Events :=
  fold_left (fun o c => perform_call c o) calls newEvents.

(** The [event] signals among some effects, in order. *)
Fixpoint eventSignals (fx : list Effect) : list NotificationMessage :=
  match fx with
  | [] => []
  | Emitted (EventSignal m) :: rest => m :: eventSignals rest
  | _ :: rest => eventSignals rest
  end.

(** The sleeps among some effects, in order. *)
Fixpoint sleeps (fx : list Effect) : list Q :=
  match fx with
  | [] => []
  | Slept ms :: rest => ms :: sleeps rest
  | _ :: rest => sleeps rest
  end.

End Methods.


(* ------------------------------------------------------------------ *)
(** ** Notions used to state the properties *)

Section Notions.
Context {E : JsEngine}.

(** [m] keeps [P] true of the object, however it completes. *)
Definition preserves {A : Type} (P : Events -> Prop) (m : M A) : Prop :=
  forall o, P o -> P (after m o).

(** Whenever [m] completes normally, the value it returns satisfies [Q]. *)
Definition returns {A : Type} (Q : A -> Prop) (m : M A) : Prop :=
  forall o o1 fx a, m o = (o1, fx, Normal a) -> Q a.

(** The category [unknown] is not among the observed ones. *)
Definition noUnknown (o : Events) : Prop :=
  ~ In unknown (observedCategories o).

(** A property of the object that only looks at the observed categories. *)
Definition onObserved (Q : list EventCategory -> Prop) : Events -> Prop :=
  fun o => Q (observedCategories o).

(** What tracking one message makes of the set of observed categories. *)
Definition observe (s : list EventCategory) (m : NotificationMessage)
  : list EventCategory :=
  match topicOf m with
  | Some topic =>
      if category_eqb (categorizeEvent topic) unknown then s
      else Set_add (categorizeEvent topic) s
  | None => s
  end.

(** A message without a topic, or whose topic classifies as [unknown]. *)
Definition unclassified (m : NotificationMessage) : Prop :=
  match topicOf m with
  | Some topic => categorizeEvent topic = unknown
  | None => True
  end.

(** The messages an answer to a pull carries. *)
Definition pulledMessages (answer : Completion (option RawPullMessages))
  : list NotificationMessage :=
  match answer with
  | Normal (Some raw) =>
      match raw_notificationMessage raw with
      | Some x => toArray x
      | None => []
      end
  | _ => []
  end.


(** A subscription created at device time 1000 that ends at 121000. *)
Definition sampleSubscription : PullPointSubscription.t :=
  PullPointSubscription.mk (mkReference (mkURL "http://camera/onvif/subscription") None)
                           (Some 1000%Z) (Some 121000%Z).

(** An object that holds [sampleSubscription] with the local deadline
    125000. *)
Definition subscribedEvents : Events :=
  mkEvents (Some sampleSubscription) (Some (Some 125000%Z)) false 10
           DEFAULT_MESSAGE_LIMIT [].

(** A pull answer with device clock 60000, expiry 180000 and no message. *)
Definition emptyPullAnswer : Completion (option RawPullMessages) :=
  Normal (Some (mkRawPull (RDate (Some 60000%Z)) (RDate (Some 180000%Z)) None)).

(** A renew answer with device clock 60000 and expiry 180000. *)
Definition sampleRenewAnswer : Completion RawRenew :=
  Normal (mkRawRenew (RDate (Some 60000%Z)) (RDate (Some 180000%Z))).

(** A motion message whose source section is [sourceItems] and whose data
    section is [dataItems]. *)
Definition motionMessage (sourceItems dataItems : list SimpleItem)
  : NotificationMessage :=
  mkMessage
    (Some (mkTopic (Some "tns1:RuleEngine/CellMotionDetector/Motion") None))
    (Some (mkContent RAbsent
                     (Some (mkSection (Some (Many sourceItems))))
                     None
                     (Some (mkSection (Some (Many dataItems)))))).

(** The motion message of the specification's example: its data section
    carries the single item [item] (an object, not an array) and it has no
    source section. *)
Definition loneItemMessage (item : SimpleItem) : NotificationMessage :=
  mkMessage
    (Some (mkTopic (Some "tns1:RuleEngine/CellMotionDetector/Motion") None))
    (Some (mkContent RAbsent None None (Some (mkSection (Some (One item)))))).

(** An audio message with the given data items. *)
Definition audioMessage (dataItems : list SimpleItem) : NotificationMessage :=
  mkMessage
    (Some (mkTopic (Some "tns1:AudioAnalytics/Audio/DetectedSound") None))
    (Some (mkContent RAbsent None None
                     (Some (mkSection (Some (Many dataItems)))))).

(** Alias sets of the string and number fields, lower-cased. *)
Definition videoSourceAliases : list string :=
  ["videosourcetoken"; "videosourceconfigurationtoken"].

Definition audioSourceAliases : list string :=
  ["audiosourcetoken"; "audiosourceconfigurationtoken"].

Definition audioTypeAliases : list string := ["audiotype"; "soundtype"; "type"].

Definition levelAliases : list string := ["level"; "soundlevel"; "audiolevel"].

Definition plateTextAliases : list string := ["platetext"; "licenseplatenumber"].

(** The flag a boolean field takes from the last item named by one of
    [aliases], [false] when there is none. *)
Definition lastFlag (aliases : list string) (items : list SimpleItem) : bool :=
  match findLast (hasAlias aliases) items with
  | Some item => isTrueValue (value item)
  | None => false
  end.

(** The items of a section of the message, none when the section or its
    [simpleItem] is missing. *)
Definition itemList (sec : MessageContent -> option ItemSection)
           (m : NotificationMessage) : list SimpleItem :=
  match itemsOf sec m with
  | Some l => l
  | None => []
  end.

(** The value a string field takes from the last item named by one of
    [aliases]. *)
Definition lastString (aliases : list string) (items : list SimpleItem)
  : option string :=
  option_map (fun item => ToString (value item))
             (findLast (hasAlias aliases) items).

(** The value a number field takes from the last item named by one of
    [aliases]. *)
Definition lastNumber (aliases : list string) (items : list SimpleItem)
  : option number :=
  option_map (fun item => ToNumber (value item))
             (findLast (hasAlias aliases) items).

(** What [renew] returns for the decoded answer [raw]. *)
Definition renewedResult (now : Z) (raw : RawRenew) : RenewResult.t :=
  RenewResult.mk (toDate now (raw_renew_currentTime raw))
                 (toDate now (raw_renew_terminationTime raw)).




(** A turn in which every request is refused by the network, the consumer
    listening to [error]. *)
Definition refusedTurn (now : Z) : Turn :=
  mkTurn now (Throw (mkError "connect ECONNREFUSED" (Some "ECONNREFUSED")))
         now now now
         (Throw (mkError "connect ECONNREFUSED" (Some "ECONNREFUSED"))) now now
         (Throw (mkError "connect ECONNREFUSED" (Some "ECONNREFUSED"))) now
         (Throw (mkError "connect ECONNREFUSED" (Some "ECONNREFUSED")))
         attentive.

(** The turn [env] with the listeners [listeners] on [error]. *)
Definition withErrorListeners (listeners : Listeners) (env : Turn) : Turn :=
  mkTurn (now_start env) (create_answer env)
         (now_create_current env) (now_create_termination env) (now_created env)
         (pull_answer env) (now_pulled env) (now_deadline env)
         (renew_answer env) (now_renewed env) (unsubscribe_answer env)
         listeners.

(** The same refusal when nothing listens to [error], as in the usage
    example of the class, which only attaches a listener to [event]. *)
Definition unheardTurn (now : Z) : Turn :=
  withErrorListeners None (refusedTurn now).

(** A pull answer that carries a message without topic and a message whose
    topic matches no pattern group. *)
Definition unclassifiedPullAnswer : Completion (option RawPullMessages) :=
  Normal (Some (mkRawPull
                  (RDate (Some 60000%Z)) (RDate (Some 180000%Z))
                  (Some (Many [mkMessage None None;
                               mkMessage (Some (mkTopic (Some "tns1:Media/ProfileChanged") None))
                                         None])))).

(** A motion message with two video source tokens. *)
Definition twoTokenMessage : NotificationMessage :=
  motionMessage [mkItem (Some "VideoSourceToken") (VString "cam1");
                 mkItem (Some "videosourcetoken") (VString "cam2")]
                [mkItem (Some "IsMotion") (VString "true")].

End Notions.

(* ------------------------------------------------------------------ *)
(** ** Topic parsing *)

Module ParsedTopic.
Record t : Type := mk {
  full : string;
  namespace : string;
  parts : list string;
  category : EventCategory
}.
End ParsedTopic.

(** [s.split(sep)] for a one-unit separator: never the empty array. *)
Fixpoint split (sep : ascii) (s : string) : list string :=
  match s with
  | EmptyString => [EmptyString]
  | String c r =>
      if Ascii.eqb c sep then EmptyString :: split sep r
      else match split sep r with
           | h :: t => String c h :: t
           | [] => [String c EmptyString]
           end
  end.

(** [s.indexOf(c)] for a one-unit needle: the first position, or -1. *)
Fixpoint indexOf (c : ascii) (s : string) : Z :=
  match s with
  | EmptyString => (-1)%Z
  | String d r =>
      if Ascii.eqb d c then 0%Z
      else let i := indexOf c r in
           if (i <? 0)%Z then (-1)%Z else (i + 1)%Z
  end.

Fixpoint dropUnits (n : nat) (s : string) : string :=
  match n, s with
  | O, _ => s
  | S k, String _ r => dropUnits k r
  | S _, EmptyString => EmptyString
  end.

Fixpoint takeUnits (n : nat) (s : string) : string :=
  match n, s with
  | O, _ => EmptyString
  | S k, String c r => String c (takeUnits k r)
  | S _, EmptyString => EmptyString
  end.

(** [s.substring(start)]. *)
Definition substringFrom (start : Z) (s : string) : string :=
  dropUnits (Z.to_nat start) s.

(** [s.substring(0, stop)]. *)
Definition substringTo (stop : Z) (s : string) : string :=
  takeUnits (Z.to_nat stop) s.

(** The callback of the [map] in [parseEventTopic]: drop a prefix that ends
    at the first colon, unless the colon is the first unit. *)
Definition stripPrefix (p : string) : string :=
  let idx := indexOf ":"%char p in
  if (idx >? 0)%Z then substringFrom (idx + 1) p else p.

(** [parseEventTopic(topic)]. *)
Definition parseEventTopic (topic : string) : ParsedTopic.t :=
  let parts := split "/"%char topic in
  let firstPart := match parts with h :: _ => h | [] => EmptyString end in
  let colonIndex := indexOf ":"%char firstPart in
  let namespace :=
    if (colonIndex >? 0)%Z then substringTo colonIndex firstPart else EmptyString in
  let firstPartWithoutNs :=
    if (colonIndex >? 0)%Z then substringFrom (colonIndex + 1) firstPart
    else firstPart in
  let cleanParts := map stripPrefix (firstPartWithoutNs :: tl parts) in
  ParsedTopic.mk topic namespace cleanParts (categorizeEvent topic).

(** The unit [c] does not occur in [s]. *)
Fixpoint lacks (c : ascii) (s : string) : bool :=
  match s with
  | EmptyString => true
  | String d r => negb (Ascii.eqb d c) && lacks c r
  end.

(** How many times the unit [c] occurs in [s]. *)
Fixpoint occurrences (c : ascii) (s : string) : nat :=
  match s with
  | EmptyString => O
  | String d r => (if Ascii.eqb d c then 1 else 0) + occurrences c r
  end.

(** The place of a category in the order in which [categorizeEvent] tests
    its pattern groups; [unknown] comes last. *)
Definition rank (c : EventCategory) : nat :=
  match c with
  | face => 0
  | person => 1
  | vehicle => 2
  | animal => 3
  | license_plate => 4
  | motion => 5
  | tamper => 6
  | audio => 7
  | digital_input => 8
  | relay => 9
  | ptz => 10
  | recording => 11
  | analytics => 12
  | device => 13
  | unknown => 14
  end.

(* ------------------------------------------------------------------ *)
(** ** Detection types advertised by the topic set *)

Section Capabilities.

(** The advertised topic set is an opaque object; all the service does with
    it is [JSON.stringify]. *)
Variable TopicSet : Type.
Variable JSON_stringify : TopicSet -> string.

(** [EventProperties], of which only [topicSet] is read. *)
Record EventProperties : Type := mkProperties {
  topicSet : option TopicSet
}.

Definition supportsAudioDetection (properties : EventProperties) : bool :=
  match topicSet properties with
  | None => false
  | Some ts =>
      let topicSetStr := toLowerCase (JSON_stringify ts) in
      includes topicSetStr "audioanalytics"
      || includes topicSetStr "audiodetect"
      || includes topicSetStr "sounddetect"
  end.

Definition supportsMotionDetection (properties : EventProperties) : bool :=
  match topicSet properties with
  | None => false
  | Some ts =>
      let topicSetStr := toLowerCase (JSON_stringify ts) in
      includes topicSetStr "motiondetect"
      || includes topicSetStr "cellmotion"
      || includes topicSetStr "linedetect"
      || includes topicSetStr "fielddetect"
      || includes topicSetStr "motionalarm"
  end.

Definition supportsFaceDetection (properties : EventProperties) : bool :=
  match topicSet properties with
  | None => false
  | Some ts =>
      let topicSetStr := toLowerCase (JSON_stringify ts) in
      includes topicSetStr "facedetect"
      || includes topicSetStr "facedetection"
      || includes topicSetStr "myruledetector"
  end.

Definition supportsPersonDetection (properties : EventProperties) : bool :=
  match topicSet properties with
  | None => false
  | Some ts =>
      let topicSetStr := toLowerCase (JSON_stringify ts) in
      includes topicSetStr "peopledetect"
      || includes topicSetStr "persondetect"
      || includes topicSetStr "humandetect"
      || includes topicSetStr "myruledetector"
  end.

Definition supportsVehicleDetection (properties : EventProperties) : bool :=
  match topicSet properties with
  | None => false
  | Some ts =>
      let topicSetStr := toLowerCase (JSON_stringify ts) in
      includes topicSetStr "vehicledetect"
      || includes topicSetStr "cardetect"
      || includes topicSetStr "myruledetector"
  end.

Definition supportsAnimalDetection (properties : EventProperties) : bool :=
  match topicSet properties with
  | None => false
  | Some ts =>
      let topicSetStr := toLowerCase (JSON_stringify ts) in
      includes topicSetStr "dogcatdetect"
      || includes topicSetStr "animaldetect"
      || includes topicSetStr "petdetect"
      || includes topicSetStr "myruledetector"
  end.

Definition supportsLicensePlateDetection (properties : EventProperties) : bool :=
  match topicSet properties with
  | None => false
  | Some ts =>
      let topicSetStr := toLowerCase (JSON_stringify ts) in
      includes topicSetStr "licenseplate" || includes topicSetStr "anpr"
  end.

(** [if (test) supported.push(c)]. *)
Definition pushIf (test : bool) (c : EventCategory) (supported : list EventCategory)
  : list EventCategory :=
  if test then supported ++ [c] else supported.

Definition getSupportedDetectionTypes (properties : EventProperties)
  : list EventCategory :=
  let supported := [] in
  let supported := pushIf (supportsMotionDetection properties) motion supported in
  let supported := pushIf (supportsFaceDetection properties) face supported in
  let supported := pushIf (supportsPersonDetection properties) person supported in
  let supported := pushIf (supportsVehicleDetection properties) vehicle supported in
  let supported := pushIf (supportsAnimalDetection properties) animal supported in
  let supported :=
    pushIf (supportsLicensePlateDetection properties) license_plate supported in
  let supported := pushIf (supportsAudioDetection properties) audio supported in
  supported.

(** [Array.from(new Set(l))]: the elements of [l] in the order of their
    first occurrence. *)
Definition Array_from_Set (l : list EventCategory) : list EventCategory :=
  fold_left (fun s c => Set_add c s) l [].

Definition getAllSupportedDetectionTypes (properties : EventProperties)
           (observed : list EventCategory) : list EventCategory :=
  let fromTopicSet := getSupportedDetectionTypes properties in
  Array_from_Set (fromTopicSet ++ observed).

End Capabilities.

(** The categories [getSupportedDetectionTypes] can report, in its order. *)
Definition detectionTypes : list EventCategory :=
  [motion; face; person; vehicle; animal; license_plate; audio].

(** [l] is [reference] with some elements left out. *)
Fixpoint subsequence (l reference : list EventCategory) : Prop :=
  match l, reference with
  | [], _ => True
  | _ :: _, [] => False
  | x :: l', y :: reference' =>
      (x = y /\ subsequence l' reference') \/ subsequence l reference'
  end.

(* ------------------------------------------------------------------ *)
(** ** Notions on effects and on the control fields *)

Section EffectNotions.
Context {E : JsEngine}.

(** The [error] signals among some effects, in order. *)
Fixpoint errorSignals (fx : list Effect) : list JsError :=
  match fx with
  | [] => []
  | Emitted (ErrorSignal e) :: rest => e :: errorSignals rest
  | _ :: rest => errorSignals rest
  end.

(** The requests among some effects, in order. *)
Fixpoint requests (fx : list Effect) : list Operation :=
  match fx with
  | [] => []
  | Requested op :: rest => op :: requests rest
  | _ :: rest => requests rest
  end.

(** From an object that satisfies [P], [m] leaves an object that satisfies
    [P] and performs only effects that satisfy [R]. *)
Definition guarantees {A : Type} (P : Events -> Prop) (R : Effect -> Prop)
           (m : M A) : Prop :=
  forall o, P o -> P (after m o) /\ Forall R (effectsOf m o).

(** [m] always completes normally. *)
Definition neverThrows {A : Type} (m : M A) : Prop :=
  forall o, exists a, completionOf m o = Normal a.

(** A property of the object that only looks at the fields that steer the
    loop: [shouldPoll], [reconnectMs] and [messageLimit]. *)
Definition onControl (C : bool -> Q -> Z -> Prop) : Events -> Prop :=
  fun o => C (shouldPoll o) (reconnectMs o) (messageLimit o).

(** An effect that is not a signal. *)
Definition notSignal (fx : Effect) : Prop :=
  match fx with
  | Emitted _ => False
  | _ => True
  end.

(** An effect that is neither an [error] signal, nor a sleep, nor an
    unsubscribe request: what the [try] block of the loop may do. *)
Definition pollingEffect (fx : Effect) : Prop :=
  match fx with
  | Emitted (ErrorSignal _) => False
  | Slept _ => False
  | Requested OpUnsubscribe => False
  | _ => True
  end.


(** How [emit('error', e)] completes: as the listeners do, and with [e]
    itself when there is none. *)
Definition emitOutcome (listeners : Listeners) (e : JsError) : Completion unit :=
  match listeners with
  | Some outcome => outcome
  | None => Throw e
  end.

(** A subscription answer whose address is [addr]. *)
Definition subscriptionAnswer (addr : string) (current termination : Z)
  : Completion (option RawSubscription) :=
  Normal (Some (mkRawSubscription
                  (Some (mkRawReference (Some addr) None))
                  (RDate (Some current)) (RDate (Some termination)))).

(** A turn in which the device rejects every request with a SOAP fault
    (an error without [code]), the consumer listening to [error]. *)
Definition rejectedTurn (now : Z) : Turn :=
  mkTurn now (Throw (newError "HTTP error! status: 401")) now now now
         (Throw (newError "HTTP error! status: 401")) now now
         (Throw (newError "HTTP error! status: 401")) now
         (Throw (newError "HTTP error! status: 401")) attentive.

(** A pull answer with one motion message. *)
Definition motionPullAnswer : Completion (option RawPullMessages) :=
  Normal (Some (mkRawPull (RDate (Some 60000%Z)) (RDate (Some 180000%Z))
                          (Some (One (motionMessage [] []))))).

End EffectNotions.

(* ================================================================== *)
(** * Properties *)

(* ------------------------------------------------------------------ *)
(** ** Strings *)

Section StringFacts.
Local Open Scope string_scope.

Lemma toLowerCase_app (a b : string) :
  toLowerCase (a ++ b)%string = (toLowerCase a ++ toLowerCase b)%string.
Proof.
  induction a as [|c a IH]; simpl; [reflexivity | now rewrite IH].
Qed.

Lemma startsWith_app (p r : string) : startsWith (p ++ r)%string p = true.
Proof.
  induction p as [|c p IH]; simpl.
  - destruct r; reflexivity.
  - now rewrite Ascii.eqb_refl, IH.
Qed.

Lemma includes_app (a p r : string) : includes (a ++ p ++ r)%string p = true.
Proof.
  induction a as [|c a IH]; simpl.
  - destruct p; simpl.
    + destruct r; reflexivity.
    + rewrite Ascii.eqb_refl, startsWith_app. reflexivity.
  - rewrite IH. apply orb_true_r.
Qed.

Lemma startsWith_decompose (s p : string) :
  startsWith s p = true -> exists r, s = (p ++ r)%string.
Proof.
  revert s; induction p as [|c p IH]; intros s H.
  - exists s; reflexivity.
  - destruct s as [|d s]; simpl in H; [discriminate|].
    apply andb_true_iff in H as [Hc Hp].
    apply Ascii.eqb_eq in Hc; subst d.
    destruct (IH _ Hp) as [r ->]. exists r; reflexivity.
Qed.

(** [includes] is the substring relation. *)
Lemma includes_spec (s p : string) :
  includes s p = true <-> exists a r, s = (a ++ p ++ r)%string.
Proof.
  split.
  - induction s as [|c s IH]; cbn [includes]; intros H.
    + rewrite orb_false_r in H.
      destruct (startsWith_decompose _ _ H) as [r Hr].
      exists EmptyString, r; exact Hr.
    + apply orb_true_iff in H as [H|H].
      * destruct (startsWith_decompose _ _ H) as [r Hr].
        exists EmptyString, r; exact Hr.
      * destruct (IH H) as (a & r & ->).
        exists (String c a), r; reflexivity.
  - intros (a & r & ->). apply includes_app.
Qed.

(** A case-insensitive occurrence shows in the lower-cased topic. *)
Lemma containsIgnoreCase_includes (t p : string) :
  containsIgnoreCase t p ->
  includes (toLowerCase t) (toLowerCase p) = true.
Proof.
  intros (a & m & b & -> & Hm).
  rewrite !toLowerCase_app, Hm. apply includes_app.
Qed.

End StringFacts.

(* ------------------------------------------------------------------ *)
(** ** Topic classifier *)

Section Classifier.

Ltac split_on_includes :=
  repeat match goal with
         | |- context [includes ?t ?p] =>
             destruct (includes t p); cbn [orb]; try reflexivity
         end.

(** The chain of tests in [categorizeEvent] is a walk through
    [patternGroups] in order. *)
Lemma categorizeEvent_table (topic : string) :
  categorizeEvent topic = classifyByPriority patternGroups (toLowerCase topic).
Proof.
  unfold categorizeEvent, patternGroups.
  cbn [classifyByPriority groupMatches existsb].
  generalize (toLowerCase topic) as t; intro t.
  split_on_includes.
Qed.

Lemma classifyByPriority_first (t : string) (c : EventCategory)
      (pats : list string) (before rest : list (EventCategory * list string)) :
  (forall g, In g before -> groupMatches t (snd g) = false) ->
  groupMatches t pats = true ->
  classifyByPriority (before ++ (c, pats) :: rest) t = c.
Proof.
  intros Hbefore Hhit.
  induction before as [|[c0 p0] before IH]; cbn [app classifyByPriority].
  - now rewrite Hhit.
  - pose proof (Hbefore (c0, p0) (or_introl eq_refl)) as H0.
    cbn [snd] in H0. rewrite H0.
    apply IH. intros g Hg. apply Hbefore. now right.
Qed.

Lemma classifyByPriority_none (t : string)
      (groups : list (EventCategory * list string)) :
  (forall g, In g groups -> groupMatches t (snd g) = false) ->
  classifyByPriority groups t = unknown.
Proof.
  induction groups as [|[c0 p0] groups IH]; intros H; cbn [classifyByPriority].
  - reflexivity.
  - pose proof (H (c0, p0) (or_introl eq_refl)) as H0.
    cbn [snd] in H0. rewrite H0.
    apply IH. intros g Hg. apply H. now right.
Qed.

Lemma classifyByPriority_range (t : string)
      (groups : list (EventCategory * list string)) :
  In (classifyByPriority groups t) (unknown :: map fst groups).
Proof.
  induction groups as [|[c0 p0] groups IH]; cbn [classifyByPriority map fst].
  - now left.
  - destruct (groupMatches t p0).
    + right; now left.
    + destruct IH as [IH|IH]; [now left | right; now right].
Qed.

(** C3. [categorizeEvent] is a total function of the topic string whose
    result is decided by the pattern groups taken in the priority order
    face, person, vehicle, animal, license-plate, motion, tamper, audio,
    digital-input, relay, ptz, recording, analytics, device: the first group
    one of whose patterns occurs in the lower-cased topic gives the category.
    In particular a topic in which both "analytics" and "facedetection" occur
    up to case is classified as face, and a topic that matches no group is
    classified as unknown. *)
Theorem categorizeEvent_priority_order :
  map fst patternGroups =
    [face; person; vehicle; animal; license_plate; motion; tamper; audio;
     digital_input; relay; ptz; recording; analytics; device]
  /\ (forall topic,
         In (categorizeEvent topic) (unknown :: map fst patternGroups)
         /\ categorizeEvent topic
            = classifyByPriority patternGroups (toLowerCase topic))
  /\ (forall topic c pats before rest,
         patternGroups = before ++ (c, pats) :: rest ->
         (forall g, In g before ->
                    groupMatches (toLowerCase topic) (snd g) = false) ->
         groupMatches (toLowerCase topic) pats = true ->
         categorizeEvent topic = c)
  /\ (forall topic,
         containsIgnoreCase topic "analytics" ->
         containsIgnoreCase topic "facedetection" ->
         categorizeEvent topic = face)
  /\ (forall topic,
         (forall g, In g patternGroups ->
                    groupMatches (toLowerCase topic) (snd g) = false) ->
         categorizeEvent topic = unknown).
Proof.
  split; [reflexivity|].
  split.
  { intros topic. rewrite categorizeEvent_table.
    split; [apply classifyByPriority_range | reflexivity]. }
  split.
  { intros topic c pats before rest Htable Hbefore Hhit.
    rewrite categorizeEvent_table, Htable.
    now apply classifyByPriority_first. }
  split.
  { intros topic _ Hface.
    apply containsIgnoreCase_includes in Hface.
    rewrite categorizeEvent_table.
    apply (classifyByPriority_first (toLowerCase topic) face
             ["facedetect"; "facedetection"] []).
    - intros g [].
    - cbn [groupMatches existsb].
      change (toLowerCase "facedetection") with "facedetection" in Hface.
      rewrite Hface. now rewrite orb_true_r. }
  intros topic Hnone. rewrite categorizeEvent_table.
  now apply classifyByPriority_none.
Qed.

(** The theorem at the topic [tns1:VideoAnalytics/FaceDetection]. *)
Lemma categorizeEvent_priority_order_witness :
  containsIgnoreCase "tns1:VideoAnalytics/FaceDetection" "analytics"
  /\ containsIgnoreCase "tns1:VideoAnalytics/FaceDetection" "facedetection"
  /\ categorizeEvent "tns1:VideoAnalytics/FaceDetection" = face.
Proof.
  assert (Ha : containsIgnoreCase "tns1:VideoAnalytics/FaceDetection" "analytics").
  { exists "tns1:Video", "Analytics", "/FaceDetection". split; reflexivity. }
  assert (Hf : containsIgnoreCase "tns1:VideoAnalytics/FaceDetection" "facedetection").
  { exists "tns1:VideoAnalytics/", "FaceDetection", "". split; reflexivity. }
  split; [exact Ha|]. split; [exact Hf|].
  exact (proj1 (proj2 (proj2 (proj2 categorizeEvent_priority_order))) _ Ha Hf).
Defined.

(** Some topics in use and their categories. *)
Example categorizeEvent_samples :
  categorizeEvent "tns1:RuleEngine/CellMotionDetector/Motion" = motion
  /\ categorizeEvent "tns1:RuleEngine/MyRuleDetector/FaceDetect" = face
  /\ categorizeEvent "tns1:VideoSource/GlobalSceneChange/AnalyticsService" = tamper
  /\ categorizeEvent "tns1:AudioAnalytics/Audio/DetectedSound" = audio
  /\ categorizeEvent "tns1:Device/Trigger/Relay" = relay
  /\ categorizeEvent "tns1:Device/HardwareFailure/StorageFailure" = device
  /\ categorizeEvent "tns1:Media/ProfileChanged" = unknown
  /\ categorizeEvent "" = unknown.
Proof. repeat split; reflexivity. Qed.

End Classifier.

(* ------------------------------------------------------------------ *)
(** ** Local termination deadline *)

Section Deadline.
Local Open Scope Z_scope.

Lemma newDate_in_range (v : Z) :
  Z.abs v <= maxTimeValue -> newDate v = Some v.
Proof.
  intros H. unfold newDate.
  destruct (Z.leb_spec (Z.abs v) maxTimeValue); [reflexivity | lia].
Qed.

(** On valid dates [calculateTerminationTime] is the deadline formula,
    as long as the result is a time value a [Date] can hold. *)
Lemma calculateTerminationTime_formula {A : Type} `{Timed.Response A}
      (now c t : Z) (r : A) :
  Timed.currentTime r = Some c ->
  Timed.terminationTime r = Some t ->
  Z.abs (localDeadline t c now) <= maxTimeValue ->
  calculateTerminationTime now r = Some (localDeadline t c now).
Proof.
  intros Hc Ht Hrange. unfold calculateTerminationTime.
  rewrite Hc, Ht. now apply newDate_in_range.
Qed.

(** The remaining lifetime [t - c] announced by the device is what the
    deadline leaves on the local clock. *)
Lemma localDeadline_lifetime (t c now : Z) :
  localDeadline t c now = now + (t - c).
Proof. unfold localDeadline. lia. Qed.

(** C1, as the specification words it, fails: with device time
    T = 1700000000000, expiry T + 120 s and local clock T + 5 s the
    recomputed deadline is not [localNow + 115 s]. *)
Lemma skew_example_is_not_115s :
  calculateTerminationTime (1700000000000 + 5000)
    (RenewResult.mk (Some 1700000000000) (Some (1700000000000 + 120000)))
  <> Some ((1700000000000 + 5000) + 115000).
Proof. vm_compute. intro H; inversion H. Qed.

(** C1, amended.  When a response reports device currentTime = T and
    terminationTime = T + 120 s and the local clock reads T + 5 s, the
    recomputed deadline is [localNow + 120 s] (that is T + 125 s): the
    offset of the two clocks is removed and the 120 s of remaining lifetime
    are kept. *)
Theorem skew_example_keeps_120s {A : Type} `{Timed.Response A} (T : Z) (r : A) :
  Timed.currentTime r = Some T ->
  Timed.terminationTime r = Some (T + 120000) ->
  - maxTimeValue <= T ->
  T + 125000 <= maxTimeValue ->
  calculateTerminationTime (T + 5000) r = Some ((T + 5000) + 120000).
Proof.
  intros Hc Ht Hlo Hhi.
  rewrite (@calculateTerminationTime_formula _ _ (T + 5000) _ _ r Hc Ht).
  - f_equal. unfold localDeadline. lia.
  - unfold localDeadline. lia.
Qed.

(** The amended statement at T = 1700000000000. *)
Lemma skew_example_keeps_120s_witness :
  calculateTerminationTime (1700000000000 + 5000)
    (RenewResult.mk (Some 1700000000000) (Some (1700000000000 + 120000)))
  = Some ((1700000000000 + 5000) + 120000).
Proof.
  apply (@skew_example_keeps_120s _ _ 1700000000000
           (RenewResult.mk (Some 1700000000000) (Some (1700000000000 + 120000)))).
  - reflexivity.
  - reflexivity.
  - vm_compute. discriminate.
  - vm_compute. discriminate.
Defined.

End Deadline.

(* ------------------------------------------------------------------ *)
(** ** Event extractors *)

Section ExtractorFacts.
Context {E : JsEngine}.

Lemma findLast_snoc {A : Type} (p : A -> bool) (l : list A) (x : A) :
  findLast p (l ++ [x]) = if p x then Some x else findLast p l.
Proof.
  unfold findLast. rewrite rev_app_distr. reflexivity.
Qed.

(** A loop that overwrites its variable at every matching element ends
    with the value taken from the last matching element. *)
Lemma overwrite_loop_last {A S : Type} (p : A -> bool) (f : A -> S)
      (l : list A) (init : S) :
  fold_left (fun acc x => if p x then f x else acc) l init
  = match findLast p l with
    | Some x => f x
    | None => init
    end.
Proof.
  induction l as [|x l IH] using rev_ind.
  - reflexivity.
  - rewrite fold_left_app, findLast_snoc. cbn [fold_left].
    destruct (p x); [reflexivity | exact IH].
Qed.

Lemma overwrite_loop_option {A S : Type} (p : A -> bool) (f : A -> S)
      (l : list A) :
  fold_left (fun acc x => if p x then Some (f x) else acc) l None
  = option_map f (findLast p l).
Proof.
  rewrite (overwrite_loop_last p (fun x => Some (f x))).
  destruct (findLast p l); reflexivity.
Qed.

Lemma hasAlias_1 (a : string) (item : SimpleItem) :
  hasAlias [a] item = (itemName item =? a)%string.
Proof. unfold hasAlias; cbn [existsb]. apply orb_false_r. Qed.

Lemma hasAlias_2 (a b : string) (item : SimpleItem) :
  hasAlias [a; b] item
  = ((itemName item =? a)%string || (itemName item =? b)%string).
Proof. unfold hasAlias; cbn [existsb]. now rewrite orb_false_r. Qed.

Lemma hasAlias_3 (a b c : string) (item : SimpleItem) :
  hasAlias [a; b; c] item
  = ((itemName item =? a)%string || (itemName item =? b)%string
     || (itemName item =? c)%string).
Proof. unfold hasAlias; cbn [existsb]. now rewrite orb_false_r, orb_assoc. Qed.

Lemma hasAlias_4 (a b c d : string) (item : SimpleItem) :
  hasAlias [a; b; c; d] item
  = ((itemName item =? a)%string || (itemName item =? b)%string
     || (itemName item =? c)%string || (itemName item =? d)%string).
Proof. unfold hasAlias; cbn [existsb]. now rewrite orb_false_r, !orb_assoc. Qed.

(** The motion loop over the data items. *)
Lemma motionData_loop (l : list SimpleItem) (init : bool) :
  fold_left motionDataStep l init
  = match findLast (hasAlias ["ismotion"; "state"]) l with
    | Some item => isTrueValue (value item)
    | None => init
    end.
Proof.
  rewrite <- (overwrite_loop_last (hasAlias ["ismotion"; "state"])
                                  (fun item => isTrueValue (value item))).
  revert init. induction l as [|x l IH]; intros init; cbn [fold_left].
  - reflexivity.
  - rewrite IH. f_equal. unfold motionDataStep. now rewrite hasAlias_2.
Qed.

(** The loops over the source items: two independent overwriting loops. *)
Lemma sourceLoop_pair (a b : list string)
      (step : option string * option string -> SimpleItem
              -> option string * option string)
      (l : list SimpleItem) :
  (forall v r item,
      step (v, r) item
      = (if hasAlias a item then Some (ToString (value item)) else v,
         if hasAlias b item then Some (ToString (value item)) else r)) ->
  forall v r,
    fold_left step l (v, r)
    = (fold_left (fun acc x => if hasAlias a x then Some (ToString (value x)) else acc) l v,
       fold_left (fun acc x => if hasAlias b x then Some (ToString (value x)) else acc) l r).
Proof.
  intros Hstep. induction l as [|x l IH]; intros v r; cbn [fold_left].
  - reflexivity.
  - now rewrite Hstep, IH.
Qed.

Lemma videoSource_loop (l : list SimpleItem) :
  fold_left videoSourceStep l (None, None)
  = (lastString videoSourceAliases l, lastString ["rule"] l).
Proof.
  rewrite (sourceLoop_pair videoSourceAliases ["rule"]).
  - unfold lastString. now rewrite !overwrite_loop_option.
  - intros v r item. unfold videoSourceStep, videoSourceAliases.
    now rewrite hasAlias_2, hasAlias_1.
Qed.

Lemma audioSource_loop (l : list SimpleItem) :
  fold_left audioSourceStep l (None, None)
  = (lastString audioSourceAliases l, lastString ["rule"] l).
Proof.
  rewrite (sourceLoop_pair audioSourceAliases ["rule"]).
  - unfold lastString. now rewrite !overwrite_loop_option.
  - intros v r item. unfold audioSourceStep, audioSourceAliases.
    now rewrite hasAlias_2, hasAlias_1.
Qed.

End ExtractorFacts.

Section ExtractorResults.
Context {E : JsEngine}.

Lemma detectionData_split (l : list SimpleItem) :
  forall (d : bool) (t : option string) (c : option number),
    fold_left detectionDataStep l (d, t, c)
    = (fold_left (fun acc x =>
                    if hasAlias ["isdetected"; "state"; "isactive"] x
                    then isTrueValue (value x) else acc) l d,
       fold_left (fun acc x =>
                    if hasAlias plateTextAliases x
                    then Some (ToString (value x)) else acc) l t,
       fold_left (fun acc x =>
                    if hasAlias ["confidence"] x
                    then Some (ToNumber (value x)) else acc) l c).
Proof.
  induction l as [|x l IH]; intros d t c; cbn [fold_left].
  - reflexivity.
  - rewrite <- IH. f_equal. unfold detectionDataStep, plateTextAliases.
    now rewrite hasAlias_3, hasAlias_2, hasAlias_1.
Qed.

Lemma detectionData_loop (l : list SimpleItem) :
  fold_left detectionDataStep l (false, None, None)
  = (lastFlag ["isdetected"; "state"; "isactive"] l,
     lastString plateTextAliases l,
     lastNumber ["confidence"] l).
Proof.
  rewrite detectionData_split.
  unfold lastFlag, lastString, lastNumber.
  now rewrite !overwrite_loop_option, overwrite_loop_last.
Qed.

Lemma audioData_split (l : list SimpleItem) :
  forall (d : bool) (t : option string) (c : option number),
    fold_left audioDataStep l (d, t, c)
    = (fold_left (fun acc x =>
                    if hasAlias ["isaudiodetected"; "state"; "isactive"; "issound"] x
                    then isTrueValue (value x) else acc) l d,
       fold_left (fun acc x =>
                    if hasAlias audioTypeAliases x
                    then Some (ToString (value x)) else acc) l t,
       fold_left (fun acc x =>
                    if hasAlias levelAliases x
                    then Some (ToNumber (value x)) else acc) l c).
Proof.
  induction l as [|x l IH]; intros d t c; cbn [fold_left].
  - reflexivity.
  - rewrite <- IH. f_equal. unfold audioDataStep, audioTypeAliases, levelAliases.
    now rewrite hasAlias_4, !hasAlias_3.
Qed.

Lemma audioData_loop (l : list SimpleItem) :
  fold_left audioDataStep l (false, None, None)
  = (lastFlag ["isaudiodetected"; "state"; "isactive"; "issound"] l,
     lastString audioTypeAliases l,
     lastNumber levelAliases l).
Proof.
  rewrite audioData_split.
  unfold lastFlag, lastString, lastNumber.
  now rewrite !overwrite_loop_option, overwrite_loop_last.
Qed.

Lemma forItems_itemList {S : Type} (body : S -> SimpleItem -> S)
      (sec : MessageContent -> option ItemSection) (m : NotificationMessage)
      (init : S) :
  forItems body (itemsOf sec m) init = fold_left body (itemList sec m) init.
Proof.
  unfold forItems, itemList. destruct (itemsOf sec m); reflexivity.
Qed.

(** [parseMotionEvent] on a motion topic, field by field. *)
Lemma parseMotionEvent_motion (now : Z) (m : NotificationMessage) (topic : string) :
  topicOf m = Some topic ->
  categorizeEvent topic = motion ->
  parseMotionEvent now m
  = Some (MotionEventData.mk
            (lastFlag ["ismotion"; "state"] (itemList data m))
            (lastString videoSourceAliases (itemList source m))
            (lastString ["rule"] (itemList source m))
            (timestampOf now m)).
Proof.
  intros Ht Hc. unfold parseMotionEvent. rewrite Ht, Hc.
  cbn [category_eqb]. cbv iota.
  rewrite !forItems_itemList, motionData_loop, videoSource_loop.
  reflexivity.
Qed.

Lemma parseMotionEvent_other (now : Z) (m : NotificationMessage) :
  (forall topic, topicOf m = Some topic -> categorizeEvent topic <> motion) ->
  parseMotionEvent now m = None.
Proof.
  intros H. unfold parseMotionEvent.
  destruct (topicOf m) as [topic|]; [|reflexivity].
  specialize (H topic eq_refl). unfold category_eqb.
  destruct (EventCategory_eq_dec (categorizeEvent topic) motion); [contradiction|reflexivity].
Qed.

Lemma isTrueValue_spec (v : JsValue number) :
  isTrueValue v = true <-> v = VBool true \/ v = VString "true" \/ v = VString "1".
Proof.
  split.
  - destruct v as [| |b|n|s]; cbn [isTrueValue]; try discriminate.
    + intros ->. now left.
    + intros H. apply orb_true_iff in H as [H|H]; apply String.eqb_eq in H; subst; auto.
  - intros [->|[->| ->]]; reflexivity.
Qed.

(** C9. On a message whose topic classifies as motion, [parseMotionEvent]
    returns a record whose [isMotion] is read off the data simple items named
    IsMotion or State (case-insensitively): it is the test "value is boolean
    true, the string true or the string 1" on the last such item and false
    when there is no such item; a value such as the string 0 gives false.
    The data items are those of [message.data.simpleItem]: the one item when
    it is a single object (the payload of the specification's example), the
    items of the array when it is an array, none when the message, its data
    section or [simpleItem] is missing.  The topic of a message is
    [topic._] when it is there and not empty.  On a message of any other
    category the extractor returns none. *)
Theorem parseMotionEvent_isMotion (now : Z) (m : NotificationMessage) :
  (forall topic,
      topicOf m = Some topic ->
      categorizeEvent topic = motion ->
      exists r,
        parseMotionEvent now m = Some r
        /\ MotionEventData.isMotion r
           = match findLast (hasAlias ["ismotion"; "state"]) (itemList data m) with
             | Some item => isTrueValue (value item)
             | None => false
             end)
  /\ itemList data m
     = match message m with
       | Some c =>
           match data c with
           | Some s =>
               match simpleItem s with
               | Some (One item) => [item]
               | Some (Many items) => items
               | None => []
               end
           | None => []
           end
       | None => []
       end
  /\ topicOf m
     = match topic m with
       | Some t =>
           match topic_text t with
           | Some EmptyString => None
           | Some text => Some text
           | None => None
           end
       | None => None
       end
  /\ (forall item,
         hasAlias ["ismotion"; "state"] item = true
         <-> exists n,
             name item = Some n
             /\ (toLowerCase n = "ismotion" \/ toLowerCase n = "state"))
  /\ (forall topic c s item,
         topicOf m = Some topic ->
         categorizeEvent topic = motion ->
         message m = Some c ->
         data c = Some s ->
         simpleItem s = Some (One item) ->
         exists r,
           parseMotionEvent now m = Some r
           /\ MotionEventData.isMotion r
              = hasAlias ["ismotion"; "state"] item && isTrueValue (value item))
  /\ (forall topic,
         topicOf m = Some topic ->
         categorizeEvent topic = motion ->
         (forall c s, message m = Some c -> data c = Some s -> simpleItem s = None) ->
         exists r,
           parseMotionEvent now m = Some r /\ MotionEventData.isMotion r = false)
  /\ (forall v : JsValue number,
         isTrueValue v = true
         <-> v = VBool true \/ v = VString "true" \/ v = VString "1")
  /\ isTrueValue (VString "0") = false
  /\ ((forall topic, topicOf m = Some topic -> categorizeEvent topic <> motion) ->
      parseMotionEvent now m = None).
Proof.
  assert (Hitems : itemList data m
                   = match message m with
                     | Some c =>
                         match data c with
                         | Some s =>
                             match simpleItem s with
                             | Some (One item) => [item]
                             | Some (Many items) => items
                             | None => []
                             end
                         | None => []
                         end
                     | None => []
                     end).
  { unfold itemList, itemsOf.
    destruct (message m) as [c|]; [|reflexivity].
    destruct (data c) as [s|]; [|reflexivity].
    now destruct (simpleItem s) as [[item|items]|]. }
  split.
  { intros topic Ht Hc. eexists. split.
    - apply (parseMotionEvent_motion now m Ht Hc).
    - reflexivity. }
  split; [exact Hitems|].
  split.
  { unfold topicOf. destruct (topic m) as [t|]; [|reflexivity].
    now destruct (topic_text t) as [[|u text]|]. }
  split.
  { intros item. rewrite hasAlias_2. unfold itemName. split.
    - intros H. destruct (name item) as [n|]; [|discriminate].
      exists n. split; [reflexivity|].
      apply orb_true_iff in H as [H|H]; apply String.eqb_eq in H; auto.
    - intros (n & -> & [-> | ->]); reflexivity. }
  split.
  { intros topic c s item Ht Hc Hm Hd Hi. eexists. split.
    - apply (parseMotionEvent_motion now m Ht Hc).
    - cbn [MotionEventData.isMotion]. unfold lastFlag.
      rewrite Hitems, Hm, Hd, Hi. unfold findLast. cbn [rev app find].
      now destruct (hasAlias ["ismotion"; "state"] item). }
  split.
  { intros topic Ht Hc Hnone. eexists. split.
    - apply (parseMotionEvent_motion now m Ht Hc).
    - cbn [MotionEventData.isMotion]. unfold lastFlag. rewrite Hitems.
      destruct (message m) as [c|]; [|reflexivity].
      destruct (data c) as [s|] eqn:Hd; [|reflexivity].
      now rewrite (Hnone c s eq_refl Hd). }
  split; [exact isTrueValue_spec|].
  split; [reflexivity|].
  apply parseMotionEvent_other.
Qed.

End ExtractorResults.

Section ExtractorClaims.
Context {E : JsEngine}.

(** [findLast] names the matching element after which nothing matches. *)
Lemma findLast_spec {A : Type} (p : A -> bool) (l : list A) (x : A) :
  findLast p l = Some x
  <-> exists l1 l2,
      l = l1 ++ x :: l2 /\ p x = true /\ forallb (fun y => negb (p y)) l2 = true.
Proof.
  induction l as [|y l IH] using rev_ind.
  - split; [discriminate|]. intros (l1 & l2 & H & _). now destruct l1.
  - rewrite findLast_snoc. destruct (p y) eqn:Hy.
    + split.
      * intros [= ->]. exists l, []. now rewrite Hy.
      * intros (l1 & l2 & Hl & Hx & Hrest).
        destruct l2 as [|z l2] using rev_ind.
        -- apply app_inj_tail in Hl as [_ ->]. reflexivity.
        -- clear IHl2. rewrite app_comm_cons, app_assoc in Hl.
           apply app_inj_tail in Hl as [_ ->].
           rewrite forallb_app in Hrest. cbn in Hrest.
           rewrite Hy in Hrest. cbn in Hrest.
           now rewrite andb_false_r in Hrest.
    + rewrite IH. split.
      * intros (l1 & l2 & -> & Hx & Hrest). exists l1, (l2 ++ [y]).
        rewrite <- app_assoc. split; [reflexivity|]. split; [exact Hx|].
        rewrite forallb_app, Hrest. cbn. now rewrite Hy.
      * intros (l1 & l2 & Hl & Hx & Hrest).
        destruct l2 as [|z l2] using rev_ind.
        -- apply app_inj_tail in Hl as [_ ->]. congruence.
        -- clear IHl2. rewrite app_comm_cons, app_assoc in Hl.
           apply app_inj_tail in Hl as [-> ->].
           rewrite forallb_app in Hrest.
           apply andb_true_iff in Hrest as [Hrest _].
           exists l1, l2. auto.
Qed.

Lemma parseMotionEvent_inv (now : Z) (m : NotificationMessage)
      (r : MotionEventData.t) :
  parseMotionEvent now m = Some r ->
  exists topic, topicOf m = Some topic /\ categorizeEvent topic = motion.
Proof.
  unfold parseMotionEvent.
  destruct (topicOf m) as [topic|]; [|discriminate].
  unfold category_eqb.
  destruct (EventCategory_eq_dec (categorizeEvent topic) motion); [|discriminate].
  intros _. now exists topic.
Qed.

(** [parseDetectionEvent] on a detection topic, field by field. *)
Lemma parseDetectionEvent_fields (now : Z) (m : NotificationMessage)
      (r : DetectionEventData.t number) :
  parseDetectionEvent now m = Some r ->
  DetectionEventData.isDetected r
  = lastFlag ["isdetected"; "state"; "isactive"] (itemList data m)
  /\ DetectionEventData.videoSourceToken r
     = lastString videoSourceAliases (itemList source m)
  /\ DetectionEventData.rule r = lastString ["rule"] (itemList source m)
  /\ DetectionEventData.data r
     = match lastString plateTextAliases (itemList data m),
             lastNumber ["confidence"] (itemList data m) with
       | None, None => None
       | plateText, confidence =>
           Some (DetectionEventData.mkExtra plateText confidence)
       end.
Proof.
  unfold parseDetectionEvent.
  destruct (topicOf m) as [topic|]; [|discriminate].
  destruct (isDetectionCategory (categorizeEvent topic)); [|discriminate].
  rewrite !forItems_itemList, detectionData_loop, videoSource_loop.
  intros [= <-]. cbn. repeat split.
  destruct (lastString plateTextAliases (itemList data m)),
           (lastNumber ["confidence"] (itemList data m)); reflexivity.
Qed.

(** [parseAudioEvent] on an audio topic, field by field. *)
Lemma parseAudioEvent_fields (now : Z) (m : NotificationMessage)
      (r : AudioEventData.t number) :
  parseAudioEvent now m = Some r ->
  exists topic,
    topicOf m = Some topic
    /\ AudioEventData.isAudioDetected r
       = lastFlag ["isaudiodetected"; "state"; "isactive"; "issound"]
                  (itemList data m)
    /\ AudioEventData.audioSourceToken r
       = lastString audioSourceAliases (itemList source m)
    /\ AudioEventData.rule r = lastString ["rule"] (itemList source m)
    /\ AudioEventData.level r = lastNumber levelAliases (itemList data m)
    /\ AudioEventData.audioType r
       = Some match lastString audioTypeAliases (itemList data m) with
              | Some s => if truthy s then s else audioTypeOfTopic topic
              | None => audioTypeOfTopic topic
              end.
Proof.
  unfold parseAudioEvent.
  destruct (topicOf m) as [topic|]; [|discriminate].
  destruct (category_eqb (categorizeEvent topic) audio); [|discriminate].
  rewrite !forItems_itemList, audioData_loop, audioSource_loop.
  intros [= <-]. exists topic. cbn. repeat split.
Qed.

(** C5, as the specification words it, fails: of two source items that
    both match the video-source-token aliases, [VideoSourceToken = cam1]
    first and [videosourcetoken = cam2] second, the extractor returns the
    value of the second. *)
Lemma first_match_does_not_win :
  find (hasAlias videoSourceAliases)
       (itemList (E := integerEngine) source twoTokenMessage)
  = Some (mkItem (Some "VideoSourceToken") (VString "cam1"))
  /\ option_map MotionEventData.videoSourceToken
       (parseMotionEvent (E := integerEngine) 0 twoTokenMessage)
     = Some (Some "cam2")
  /\ option_map MotionEventData.videoSourceToken
       (parseMotionEvent (E := integerEngine) 0 twoTokenMessage)
     <> Some (Some "cam1").
Proof.
  split; [reflexivity|]. split; [reflexivity|].
  vm_compute. intro H; inversion H.
Qed.

(** C5, amended.  For every notification message, each string or number
    field of an extractor is taken from the last simple item of its section
    whose name matches (case-insensitively) the alias set of that field: a
    later match overwrites an earlier one.  (For [audioType] an empty last
    value then gives way to the type read off the topic.) *)
Theorem extractors_last_match_wins (now : Z) (m : NotificationMessage) :
  (forall r,
      parseMotionEvent now m = Some r ->
      MotionEventData.videoSourceToken r
      = option_map (fun item => ToString (value item))
                   (findLast (hasAlias videoSourceAliases) (itemList source m))
      /\ MotionEventData.rule r
         = option_map (fun item => ToString (value item))
                      (findLast (hasAlias ["rule"]) (itemList source m)))
  /\ (forall r,
         parseDetectionEvent now m = Some r ->
         DetectionEventData.videoSourceToken r
         = option_map (fun item => ToString (value item))
                      (findLast (hasAlias videoSourceAliases) (itemList source m))
         /\ DetectionEventData.rule r
            = option_map (fun item => ToString (value item))
                         (findLast (hasAlias ["rule"]) (itemList source m))
         /\ DetectionEventData.data r
            = match lastString plateTextAliases (itemList data m),
                    lastNumber ["confidence"] (itemList data m) with
              | None, None => None
              | plateText, confidence =>
                  Some (DetectionEventData.mkExtra plateText confidence)
              end)
  /\ (forall r,
         parseAudioEvent now m = Some r ->
         exists topic,
           topicOf m = Some topic
           /\ AudioEventData.audioSourceToken r
              = option_map (fun item => ToString (value item))
                           (findLast (hasAlias audioSourceAliases)
                                     (itemList source m))
           /\ AudioEventData.rule r
              = option_map (fun item => ToString (value item))
                           (findLast (hasAlias ["rule"]) (itemList source m))
           /\ AudioEventData.level r
              = option_map (fun item => ToNumber (value item))
                           (findLast (hasAlias levelAliases) (itemList data m))
           /\ AudioEventData.audioType r
              = Some match findLast (hasAlias audioTypeAliases) (itemList data m) with
                     | Some item =>
                         if truthy (ToString (value item))
                         then ToString (value item)
                         else audioTypeOfTopic topic
                     | None => audioTypeOfTopic topic
                     end).
Proof.
  split.
  { intros r Hr.
    destruct (parseMotionEvent_inv _ _ Hr) as (topic & Ht & Hc).
    rewrite (parseMotionEvent_motion now m Ht Hc) in Hr.
    injection Hr as <-. split; reflexivity. }
  split.
  { intros r Hr.
    destruct (parseDetectionEvent_fields _ _ Hr) as (_ & Hv & Hrule & Hd).
    repeat split; assumption. }
  intros r Hr.
  destruct (parseAudioEvent_fields _ _ Hr) as (topic & Ht & _ & Hs & Hrule & Hl & Ha).
  exists topic. repeat split; try assumption.
  rewrite Ha. unfold lastString.
  destruct (findLast (hasAlias audioTypeAliases) (itemList data m)); reflexivity.
Qed.

End ExtractorClaims.

(** The amended C5 at the message with two video source tokens. *)
Lemma extractors_last_match_wins_witness :
  exists r,
    parseMotionEvent (E := integerEngine) 0 twoTokenMessage = Some r
    /\ MotionEventData.videoSourceToken r = Some "cam2".
Proof.
  exists (MotionEventData.mk true (Some "cam2") None None).
  assert (Hr : parseMotionEvent (E := integerEngine) 0 twoTokenMessage
               = Some (MotionEventData.mk true (Some "cam2") None None))
    by reflexivity.
  split; [exact Hr|].
  rewrite (proj1 (proj1 (extractors_last_match_wins (E := integerEngine)
                           0 twoTokenMessage) _ Hr)).
  reflexivity.
Defined.

(** C9 at the payload of the specification: a motion message whose
    [data.simpleItem] is the single item [IsMotion = "true"]. *)
Lemma parseMotionEvent_isMotion_witness :
  exists r,
    parseMotionEvent (E := integerEngine) 0
                     (loneItemMessage (mkItem (Some "IsMotion") (VString "true")))
    = Some r
    /\ MotionEventData.isMotion r = true.
Proof.
  destruct (proj1 (proj2 (proj2 (proj2 (proj2
              (parseMotionEvent_isMotion
                 (E := integerEngine) 0
                 (loneItemMessage (mkItem (Some "IsMotion") (VString "true"))))))))
                  "tns1:RuleEngine/CellMotionDetector/Motion"
                  (mkContent RAbsent None None
                     (Some (mkSection
                              (Some (One (mkItem (Some "IsMotion") (VString "true")))))))
                  (mkSection (Some (One (mkItem (Some "IsMotion") (VString "true")))))
                  (mkItem (Some "IsMotion") (VString "true"))
                  eq_refl eq_refl eq_refl eq_refl eq_refl)
    as (r & Hr & Hflag).
  exists r. split; [exact Hr|]. rewrite Hflag. reflexivity.
Defined.

(** The motion extractor on the payloads of the specification. *)
Example parseMotionEvent_samples :
  option_map MotionEventData.isMotion
    (parseMotionEvent (E := integerEngine) 0
       (motionMessage [] [mkItem (Some "IsMotion") (VString "true")]))
  = Some true
  /\ option_map MotionEventData.isMotion
       (parseMotionEvent (E := integerEngine) 0
          (motionMessage [] [mkItem (Some "IsMotion") (VString "0")]))
     = Some false
  /\ option_map MotionEventData.isMotion
       (parseMotionEvent (E := integerEngine) 0 (motionMessage [] []))
     = Some false
  /\ option_map MotionEventData.isMotion
       (parseMotionEvent (E := integerEngine) 0
          (motionMessage [] [mkItem (Some "state") (VBool true)]))
     = Some true
  /\ option_map MotionEventData.isMotion
       (parseMotionEvent (E := integerEngine) 0
          (loneItemMessage (mkItem (Some "IsMotion") (VString "true"))))
     = Some true
  /\ option_map MotionEventData.isMotion
       (parseMotionEvent (E := integerEngine) 0
          (loneItemMessage (mkItem (Some "IsMotion") (VString "0"))))
     = Some false
  /\ option_map MotionEventData.isMotion
       (parseMotionEvent (E := integerEngine) 0
          (mkMessage
             (Some (mkTopic (Some "tns1:RuleEngine/CellMotionDetector/Motion") None))
             None))
     = Some false
  /\ parseMotionEvent (E := integerEngine) 0 (audioMessage []) = None.
Proof. repeat split; reflexivity. Qed.

(* ------------------------------------------------------------------ *)
(** ** Running method bodies *)

Section Running.
Context {E : JsEngine}.
Local Open Scope js_scope.


Lemma bind_throw {A B : Type} (m : M A) (k : A -> M B)
      (o o1 : Events) (fx1 : list Effect) (e : JsError) :
  m o = (o1, fx1, Throw e) ->
  bind m k o = (o1, fx1, Throw e).
Proof. intros Hm. unfold bind. now rewrite Hm. Qed.



(** Every run is a triple. *)
Lemma run_triple {A : Type} (m : M A) (o : Events) :
  m o = (after m o, effectsOf m o, completionOf m o).
Proof.
  unfold after, effectsOf, completionOf. now destruct (m o) as [[o1 fx] r].
Qed.

(** *** Properties kept by the combinators *)

Lemma preserves_ret {A : Type} (P : Events -> Prop) (a : A) : preserves P (ret a).
Proof. intros o H. exact H. Qed.

Lemma preserves_throw {A : Type} (P : Events -> Prop) (e : JsError) :
  preserves P (throw (A := A) e).
Proof. intros o H. exact H. Qed.

Lemma preserves_this (P : Events -> Prop) : preserves P this.
Proof. intros o H. exact H. Qed.

Lemma preserves_request {A : Type} (P : Events -> Prop) (op : Operation)
      (answer : Completion A) : preserves P (request op answer).
Proof. intros o H. exact H. Qed.

Lemma preserves_call {A : Type} (P : Events -> Prop) (r : Completion A) :
  preserves P (call r).
Proof. intros o H. exact H. Qed.

Lemma preserves_perform (P : Events -> Prop) (fx : Effect) :
  preserves P (perform fx).
Proof. intros o H. exact H. Qed.

Lemma preserves_assign (P : Events -> Prop) (f : Events -> Events) :
  (forall o, P o -> P (f o)) -> preserves P (assign f).
Proof. intros Hf o H. apply Hf, H. Qed.

Lemma preserves_bind {A B : Type} (P : Events -> Prop) (m : M A) (k : A -> M B) :
  preserves P m -> (forall a, preserves P (k a)) -> preserves P (bind m k).
Proof.
  intros Hm Hk o H. specialize (Hm o H).
  unfold after, bind in *. destruct (m o) as [[o1 fx1] [a|e]]; cbn in *.
  - specialize (Hk a o1 Hm). unfold after in Hk.
    destruct (k a o1) as [[o2 fx2] r2]. exact Hk.
  - exact Hm.
Qed.

Lemma preserves_tryCatch {A : Type} (P : Events -> Prop) (m : M A)
      (h : JsError -> M A) :
  preserves P m -> (forall e, preserves P (h e)) -> preserves P (tryCatch m h).
Proof.
  intros Hm Hh o H. specialize (Hm o H).
  unfold after, tryCatch in *. destruct (m o) as [[o1 fx1] [a|e]]; cbn in *.
  - exact Hm.
  - specialize (Hh e o1 Hm). unfold after in Hh.
    destruct (h e o1) as [[o2 fx2] r2]. exact Hh.
Qed.

Lemma preserves_tryFinally {A : Type} (P : Events -> Prop) (m : M A) (f : M unit) :
  preserves P m -> preserves P f -> preserves P (tryFinally m f).
Proof.
  intros Hm Hf o H. specialize (Hm o H).
  unfold after, tryFinally in *. destruct (m o) as [[o1 fx1] r]; cbn in *.
  specialize (Hf o1 Hm). unfold after in Hf.
  destruct (f o1) as [[o2 fx2] [u|e]]; exact Hf.
Qed.

Lemma preserves_forOf {A : Type} (P : Events -> Prop) (l : list A)
      (body : A -> M unit) :
  (forall x, preserves P (body x)) -> preserves P (forOf l body).
Proof.
  intros Hbody. induction l as [|x l IH]; cbn [forOf].
  - apply preserves_ret.
  - apply preserves_bind; [apply Hbody | intros _; exact IH].
Qed.

Lemma preserves_emit (P : Events -> Prop) (listeners : Listeners) (s : Signal) :
  preserves P (emit listeners s).
Proof.
  unfold emit. apply preserves_bind; [apply preserves_perform|]. intros _.
  destruct listeners as [outcome|]; [apply preserves_call|].
  destruct s; [apply preserves_ret | apply preserves_throw].
Qed.

Lemma preserves_background {A : Type} (P : Events -> Prop) (m : M A) :
  preserves P m -> preserves P (background m).
Proof.
  intros Hm o H. specialize (Hm o H). unfold after, background in *.
  now destruct (m o) as [[o1 fx] r].
Qed.

End Running.

Create HintDb frame.

#[global] Hint Resolve preserves_ret preserves_throw preserves_this
  preserves_request preserves_call preserves_perform : frame.

Ltac frame :=
  repeat first
    [ solve [auto with frame]
    | apply preserves_bind; [|intro]
    | apply preserves_tryCatch; [|intro]
    | apply preserves_tryFinally
    | apply preserves_forOf; intro
    | apply preserves_assign; intro; intro ].

(* ------------------------------------------------------------------ *)
(** ** Subscription session: direct calls *)

Section DirectCalls.
Context {E : JsEngine}.
Local Open Scope js_scope.

(** C7. [pullMessages] called while there is no subscription fails with the
    "No active subscription" error; the error is the completion of the call
    itself (no request is sent and no signal is emitted), and the object,
    the observed categories included, is left as it was. *)
Theorem pullMessages_requires_subscription
        (opt_messageLimit : option Z) (now : Z)
        (answer : Completion (option RawPullMessages)) (o : Events) :
  subscription o = None ->
  completionOf (pullMessages opt_messageLimit now answer) o
  = Throw (newError NO_SUBSCRIPTION)
  /\ effectsOf (pullMessages opt_messageLimit now answer) o = []
  /\ after (pullMessages opt_messageLimit now answer) o = o
  /\ getObservedCategories (after (pullMessages opt_messageLimit now answer) o)
     = getObservedCategories o.
Proof.
  intros Hnone.
  assert (Hrun : pullMessages opt_messageLimit now answer o
                 = (o, [], Throw (newError NO_SUBSCRIPTION))).
  { unfold pullMessages, bind, this. now rewrite Hnone. }
  unfold completionOf, effectsOf, after. rewrite Hrun. cbn.
  repeat split; reflexivity.
Qed.

(** C8. [unsubscribe] always completes normally.  Without a subscription
    it does nothing.  With a subscription it sends the request, ignores
    whether the request failed, and leaves the object without subscription
    and without termination deadline. *)
Theorem unsubscribe_never_raises (answer : Completion unit) (o : Events) :
  completionOf (unsubscribe answer) o = Normal tt
  /\ (subscription o = None -> unsubscribe answer o = (o, [], Normal tt))
  /\ (subscription o <> None ->
      subscription (after (unsubscribe answer) o) = None
      /\ terminationTime (after (unsubscribe answer) o) = None
      /\ effectsOf (unsubscribe answer) o = [Requested OpUnsubscribe]).
Proof.
  unfold completionOf, after, effectsOf, unsubscribe, bind, this.
  destruct (subscription o) as [s|] eqn:Hs.
  - destruct answer as [[]|e]; cbn.
    + split; [reflexivity|]. split; [discriminate|]. intros _. repeat split.
    + split; [reflexivity|]. split; [discriminate|]. intros _. repeat split.
  - cbn. split; [reflexivity|]. split; [reflexivity|]. intros H. now contradiction H.
Qed.

End DirectCalls.

(** C7 on a fresh object. *)
Lemma pullMessages_requires_subscription_witness :
  completionOf (pullMessages (E := integerEngine) None 0 emptyPullAnswer) newEvents
  = Throw (newError NO_SUBSCRIPTION).
Proof.
  exact (proj1 (pullMessages_requires_subscription (E := integerEngine)
                  None 0 emptyPullAnswer newEvents eq_refl)).
Defined.

(** C8 on an object that holds a subscription, the request failing. *)
Lemma unsubscribe_never_raises_witness :
  subscription
    (after (unsubscribe (E := integerEngine)
              (Throw (mkError "socket hang up" (Some "ECONNRESET"))))
           subscribedEvents) = None
  /\ unsubscribe (E := integerEngine) (Normal tt) newEvents
     = (newEvents, [], Normal tt).
Proof.
  split.
  - refine (proj1 (proj2 (proj2 (unsubscribe_never_raises (E := integerEngine)
                                   _ subscribedEvents)) _)).
    discriminate.
  - exact (proj1 (proj2 (unsubscribe_never_raises (E := integerEngine)
                           (Normal tt) newEvents)) eq_refl).
Defined.

(* ------------------------------------------------------------------ *)
(** ** Observed categories *)

Section Observed.
Context {E : JsEngine}.
Local Open Scope js_scope.

Lemma set_observedCategories_same (o : Events) :
  set_observedCategories (observedCategories o) o = o.
Proof. now destruct o. Qed.

Lemma set_observedCategories_twice (a b : list EventCategory) (o : Events) :
  set_observedCategories a (set_observedCategories b o) = set_observedCategories a o.
Proof. reflexivity. Qed.

Lemma category_eqb_eq (a b : EventCategory) : category_eqb a b = true <-> a = b.
Proof.
  unfold category_eqb. destruct (EventCategory_eq_dec a b); split; congruence.
Qed.

Lemma Set_add_In (c x : EventCategory) (s : list EventCategory) :
  In x (Set_add c s) -> x = c \/ In x s.
Proof.
  unfold Set_add. destruct (existsb (category_eqb c) s); [now right|].
  intros H. apply in_app_or in H as [H|[H|[]]]; auto.
Qed.

(** Tracking a message is [observe] on the set. *)
Lemma trackCategory_run (m : NotificationMessage) (o : Events) :
  trackCategory m o
  = (set_observedCategories (observe (observedCategories o) m) o, [], Normal tt).
Proof.
  unfold trackCategory, observe.
  destruct (topicOf m) as [topic|]; cbn.
  - destruct (category_eqb (categorizeEvent topic) unknown); cbn.
    + now rewrite set_observedCategories_same.
    + reflexivity.
  - now rewrite set_observedCategories_same.
Qed.

Lemma observe_unclassified (s : list EventCategory) (m : NotificationMessage) :
  unclassified m -> observe s m = s.
Proof.
  unfold unclassified, observe. destruct (topicOf m) as [topic|]; [|reflexivity].
  intros ->. reflexivity.
Qed.

Lemma observe_never_unknown (s : list EventCategory) (m : NotificationMessage) :
  ~ In unknown s -> ~ In unknown (observe s m).
Proof.
  unfold observe. destruct (topicOf m) as [topic|]; [|trivial].
  destruct (category_eqb (categorizeEvent topic) unknown) eqn:Hc; [trivial|].
  intros Hs Hin. apply Set_add_In in Hin as [Hin|Hin]; [|contradiction].
  symmetry in Hin. apply category_eqb_eq in Hin. congruence.
Qed.

Lemma trackCategory_keeps (Q : list EventCategory -> Prop) (m : NotificationMessage) :
  (forall s, Q s -> Q (observe s m)) ->
  preserves (onObserved Q) (trackCategory m).
Proof.
  intros HQ o H. unfold after. rewrite trackCategory_run. cbn. apply HQ, H.
Qed.

Lemma preserves_forOf_In {A : Type} (P : Events -> Prop) (l : list A)
      (body : A -> M unit) :
  (forall x, In x l -> preserves P (body x)) -> preserves P (forOf l body).
Proof.
  induction l as [|x l IH]; intros Hbody; cbn [forOf].
  - apply preserves_ret.
  - apply preserves_bind.
    + apply Hbody. now left.
    + intros _. apply IH. intros y Hy. apply Hbody. now right.
Qed.

Lemma preserves_bind_returns {A B : Type} (P : Events -> Prop) (R : A -> Prop)
      (m : M A) (k : A -> M B) :
  preserves P m -> returns R m -> (forall a, R a -> preserves P (k a)) ->
  preserves P (bind m k).
Proof.
  intros Hm HR Hk o H. specialize (Hm o H). specialize (HR o).
  unfold after, bind in *. destruct (m o) as [[o1 fx1] [a|e]]; cbn in *.
  - specialize (Hk a (HR _ _ _ eq_refl) o1 Hm). unfold after in Hk.
    destruct (k a o1) as [[o2 fx2] r2]. exact Hk.
  - exact Hm.
Qed.

Variable Q : list EventCategory -> Prop.

Lemma create_keeps (now_current now_termination now : Z)
      (answer : Completion (option RawSubscription)) :
  preserves (onObserved Q)
            (createPullPointSubscription now_current now_termination now answer).
Proof.
  unfold createPullPointSubscription.
  apply preserves_bind; [apply preserves_request|].
  intros [raw|]; [|apply preserves_throw].
  frame; assumption.
Qed.

Lemma renew_keeps (now : Z) (answer : Completion RawRenew) :
  preserves (onObserved Q) (renew now answer).
Proof.
  unfold renew. apply preserves_bind; [apply preserves_this|].
  intros o. destruct (subscription o); frame.
Qed.

Lemma unsubscribe_keeps (answer : Completion unit) :
  preserves (onObserved Q) (unsubscribe answer).
Proof.
  unfold unsubscribe. apply preserves_bind; [apply preserves_this|].
  intros o. destruct (subscription o); frame; assumption.
Qed.

(** The messages a successful pull returns are those of the answer. *)
Lemma pullMessages_returns (l : option Z) (now : Z)
      (answer : Completion (option RawPullMessages)) :
  returns (fun result => PullMessagesResult.notificationMessage result
                         = pulledMessages answer)
          (pullMessages l now answer).
Proof.
  intros o o1 fx result. unfold pullMessages, bind, this, request.
  destruct (subscription o); [|discriminate].
  destruct answer as [[raw|]|e]; try discriminate.
  cbn. destruct (forOf _ trackCategory o) as [[o2 fx2] [[]|e]]; [|discriminate].
  intros [= _ _ <-]. reflexivity.
Qed.

Lemma pullMessages_keeps (l : option Z) (now : Z)
      (answer : Completion (option RawPullMessages)) :
  (forall s m, In m (pulledMessages answer) -> Q s -> Q (observe s m)) ->
  preserves (onObserved Q) (pullMessages l now answer).
Proof.
  intros HQ. unfold pullMessages.
  apply preserves_bind; [apply preserves_this|].
  intros o. destruct (subscription o); [|apply preserves_throw].
  unfold request, bind. intros o0 H0. unfold after.
  destruct answer as [[raw|]|e]; cbn; try exact H0.
  pose proof (@preserves_forOf_In _ (onObserved Q)
                (match raw_notificationMessage raw with
                 | Some x => toArray x
                 | None => []
                 end) trackCategory) as Hloop.
  unfold preserves, after in Hloop.
  specialize (Hloop (fun m Hm => @trackCategory_keeps Q m (fun s => HQ s m Hm)) o0 H0).
  destruct (forOf _ trackCategory o0) as [[o2 fx2] [[]|e]]; exact Hloop.
Qed.

Lemma publish_keeps (messages : list NotificationMessage) :
  (forall s m, In m messages -> Q s -> Q (observe s m)) ->
  preserves (onObserved Q) (publish messages).
Proof.
  intros HQ. unfold publish. apply preserves_forOf_In. intros m Hm.
  apply preserves_bind.
  - apply trackCategory_keeps. intros s. now apply HQ.
  - intros _. apply preserves_emit.
Qed.

Lemma loopBody_keeps (env : Turn) :
  (forall s m, In m (pulledMessages (pull_answer env)) -> Q s -> Q (observe s m)) ->
  preserves (onObserved Q) (loopBody env).
Proof.
  intros HQ. unfold loopBody. apply preserves_tryCatch.
  - unfold pollOnce.
    apply preserves_bind.
    { unfold ensureSubscription. apply preserves_bind; [apply preserves_this|].
      intros o. destruct (needsSubscription (now_start env) o).
      - apply preserves_bind; [apply create_keeps|].
        intros _. frame; assumption.
      - apply preserves_ret. }
    intros _. apply preserves_bind; [apply preserves_this|]. intros o.
    eapply preserves_bind_returns.
    + now apply pullMessages_keeps.
    + apply pullMessages_returns.
    + intros result Hresult. cbn beta in Hresult.
      apply preserves_bind; [frame; assumption|]. intros _.
      unfold afterPull. apply preserves_bind.
      { apply publish_keeps. rewrite Hresult. exact HQ. }
      intros _. apply preserves_bind; [frame; assumption|]. intros _.
      unfold tryRenew. apply preserves_tryCatch; [|intros; apply preserves_ret].
      apply preserves_bind; [apply renew_keeps|]. intros r. frame; assumption.
  - intros e. unfold recover. apply preserves_bind; [apply preserves_emit|].
    intros _. destruct (isRetryableError e).
    + frame; assumption.
    + apply preserves_tryCatch; [apply unsubscribe_keeps|intros; apply preserves_ret].
Qed.

Lemma runEventLoop_keeps (turns : list Turn) :
  (forall s m, Q s -> Q (observe s m)) ->
  preserves (onObserved Q) (runEventLoop turns).
Proof.
  intros HQ. induction turns as [|env turns IH]; cbn [runEventLoop].
  - apply preserves_ret.
  - apply preserves_bind; [apply preserves_this|]. intros o.
    destruct (shouldPoll o); [|apply preserves_ret].
    apply preserves_bind; [|intros _; exact IH].
    apply loopBody_keeps. intros s m _. apply HQ.
Qed.

(** [unsubscribe] is its beginning followed at once by what the beginning
    leaves behind. *)
Lemma unsubscribe_two_phases (answer : Completion unit) (o : Events) :
  bind (unsubscribe_begin answer) (fun rest => rest) o = unsubscribe answer o.
Proof.
  unfold unsubscribe_begin, unsubscribe, bind, this, perform, request, call.
  destruct (subscription o); [|reflexivity].
  destruct answer as [[]|e]; reflexivity.
Qed.

(** Stopping and letting the unsubscription settle comes to clearing the
    flag and unsubscribing. *)
Lemma stopEventLoop_settled_run (answer : Completion unit) (o : Events) :
  settled (stopEventLoop answer) o
  = bind (assign (set_shouldPoll false)) (fun _ => unsubscribe answer) o.
Proof.
  unfold settled, stopEventLoop, unsubscribe_begin, unsubscribe, background,
    bind, this, assign, perform, request, call.
  cbn [subscription set_shouldPoll].
  destruct (subscription o); [|reflexivity].
  destruct answer as [[]|e]; reflexivity.
Qed.

Lemma stopEventLoop_settled_keeps (answer : Completion unit) :
  preserves (onObserved Q) (settled (stopEventLoop answer)).
Proof.
  intros o H. unfold after. rewrite stopEventLoop_settled_run.
  revert o H.
  change (preserves (onObserved Q)
                    (bind (assign (set_shouldPoll false))
                          (fun _ => unsubscribe answer))).
  apply preserves_bind; [frame; assumption|].
  intros _. apply unsubscribe_keeps.
Qed.

Lemma perform_call_keeps (c : Call) (o : Events) :
  (forall s m, Q s -> Q (observe s m)) ->
  Q [] ->
  onObserved Q o -> onObserved Q (perform_call c o).
Proof.
  intros HQ Hnil H. destruct c; cbn [perform_call].
  - now apply create_keeps.
  - apply pullMessages_keeps; [|exact H]. intros s m _. apply HQ.
  - now apply renew_keeps.
  - now apply unsubscribe_keeps.
  - revert o H. change (preserves (onObserved Q) (startEventLoop opt_messageLimit turns)).
    unfold startEventLoop. apply preserves_bind; [apply preserves_this|].
    intros o. destruct (shouldPoll o); [apply preserves_ret|].
    apply preserves_bind; [frame; assumption|]. intros _.
    apply preserves_bind; [frame; assumption|]. intros _.
    apply preserves_background. now apply runEventLoop_keeps.
  - revert o H. change (preserves (onObserved Q) (settled (stopEventLoop answer))).
    apply stopEventLoop_settled_keeps.
  - exact Hnil.
Qed.

End Observed.

Section ObservedClaim.
Context {E : JsEngine}.

Lemma history_keeps (Q : list EventCategory -> Prop) (calls : list Call) :
  (forall s m, Q s -> Q (observe s m)) ->
  Q [] ->
  forall o, onObserved Q o ->
            onObserved Q (fold_left (fun o c => perform_call c o) calls o).
Proof.
  intros HQ Hnil. induction calls as [|c calls IH]; intros o H; cbn [fold_left].
  - exact H.
  - apply IH. now apply perform_call_keeps.
Qed.

(** C10. The category [unknown] never enters the observed categories:
    tracking a message that has no topic, or whose topic classifies as
    unknown, changes nothing; so a direct [pullMessages] and a turn of the
    polling loop whose pulled messages are all of that kind leave the set as
    it was; and after any history of calls on a fresh object,
    [getObservedCategories()] does not contain [unknown]. *)
Theorem unknown_never_observed :
  (forall m o, unclassified m -> trackCategory m o = (o, [], Normal tt))
  /\ (forall opt_messageLimit now answer o,
         (forall m, In m (pulledMessages answer) -> unclassified m) ->
         getObservedCategories (after (pullMessages opt_messageLimit now answer) o)
         = getObservedCategories o)
  /\ (forall env o,
         (forall m, In m (pulledMessages (pull_answer env)) -> unclassified m) ->
         getObservedCategories (after (loopBody env) o)
         = getObservedCategories o)
  /\ (forall calls, ~ In unknown (getObservedCategories (history calls))).
Proof.
  split.
  { intros m o Hm. rewrite trackCategory_run, (observe_unclassified _ _ Hm).
    now rewrite set_observedCategories_same. }
  split.
  { intros l now answer o Hmsgs.
    apply (@pullMessages_keeps _ (fun s => s = observedCategories o) l now answer).
    - intros s m Hin ->. apply observe_unclassified. now apply Hmsgs.
    - reflexivity. }
  split.
  { intros env o Hmsgs.
    apply (@loopBody_keeps _ (fun s => s = observedCategories o) env).
    - intros s m Hin ->. apply observe_unclassified. now apply Hmsgs.
    - reflexivity. }
  intros calls. unfold history, getObservedCategories.
  apply (@history_keeps (fun s => ~ In unknown s) calls).
  - intros s m. apply observe_never_unknown.
  - intros [].
  - intros [].
Qed.

End ObservedClaim.

(** C10 on a direct pull that returns only unclassified messages. *)
Lemma unknown_never_observed_witness :
  getObservedCategories
    (after (pullMessages (E := integerEngine) None 61000 unclassifiedPullAnswer)
           subscribedEvents)
  = getObservedCategories subscribedEvents.
Proof.
  apply (proj1 (proj2 (unknown_never_observed (E := integerEngine)))).
  intros m [<-|[<-|[]]]; vm_compute; reflexivity.
Defined.

(* ------------------------------------------------------------------ *)
(** ** Runs of the methods *)

Section Runs.
Context {E : JsEngine}.
Local Open Scope js_scope.

Lemma forOf_trackCategory_run (messages : list NotificationMessage) (o : Events) :
  forOf messages trackCategory o
  = (set_observedCategories (fold_left observe messages (observedCategories o)) o,
     [], Normal tt).
Proof.
  revert o. induction messages as [|m messages IH]; intros o; cbn [forOf fold_left].
  - unfold ret. now rewrite set_observedCategories_same.
  - unfold bind. rewrite trackCategory_run, IH. reflexivity.
Qed.



(** A successful creation installs the subscription and its deadline. *)
Lemma create_success (now_current now_termination now : Z)
      (answer : Completion (option RawSubscription))
      (o o1 : Events) (fx : list Effect) (s : PullPointSubscription.t) :
  createPullPointSubscription now_current now_termination now answer o
  = (o1, fx, Normal s) ->
  o1 = set_terminationTime (Some (calculateTerminationTime now s))
                           (set_subscription (Some s) o)
  /\ fx = [Requested OpCreatePullPointSubscription].
Proof.
  unfold createPullPointSubscription, bind, request, call, assign, throw, ret.
  destruct answer as [[raw|]|e]; try discriminate.
  destruct (parseUrl _) as [url|e]; [|discriminate].
  cbn. intros [= <- <- <-]. split; reflexivity.
Qed.

(** A failed creation leaves the object alone. *)
Lemma create_failure (now_current now_termination now : Z)
      (answer : Completion (option RawSubscription))
      (o o1 : Events) (fx : list Effect) (e : JsError) :
  createPullPointSubscription now_current now_termination now answer o
  = (o1, fx, Throw e) ->
  o1 = o /\ fx = [Requested OpCreatePullPointSubscription].
Proof.
  unfold createPullPointSubscription, bind, request, call, assign, throw, ret.
  destruct answer as [[raw|]|e']; cbn.
  - destruct (parseUrl _) as [url|e'']; cbn; [discriminate|].
    intros [= <- <- _]. split; reflexivity.
  - intros [= <- <- _]. split; reflexivity.
  - intros [= <- <- _]. split; reflexivity.
Qed.

(** A successful pull: there was a subscription, the request went out with
    the message limit, the categories of the messages were tracked and the
    result carries the messages of the answer in order. *)
Lemma pull_success (l : option Z) (now : Z)
      (answer : Completion (option RawPullMessages))
      (o o1 : Events) (fx : list Effect) (result : PullMessagesResult.t) :
  pullMessages l now answer o = (o1, fx, Normal result) ->
  subscription o <> None
  /\ o1 = set_observedCategories
            (fold_left observe (pulledMessages answer) (observedCategories o)) o
  /\ fx = [Requested (OpPullMessages
                        (match l with Some n => n | None => messageLimit o end))]
  /\ PullMessagesResult.notificationMessage result = pulledMessages answer
  /\ exists raw,
      answer = Normal (Some raw)
      /\ PullMessagesResult.currentTime result = toDate now (raw_pull_currentTime raw)
      /\ PullMessagesResult.terminationTime result
         = toDate now (raw_pull_terminationTime raw).
Proof.
  unfold pullMessages, bind, this, request, throw, ret.
  destruct (subscription o) as [s|]; [|discriminate].
  destruct answer as [[raw|]|e]; try discriminate.
  rewrite forOf_trackCategory_run. cbn.
  intros [= <- <- <-]. cbn.
  split; [discriminate|]. repeat split. exists raw. repeat split.
Qed.

(** A failed pull leaves the object alone. *)
Lemma pull_failure (l : option Z) (now : Z)
      (answer : Completion (option RawPullMessages))
      (o o1 : Events) (fx : list Effect) (e : JsError) :
  pullMessages l now answer o = (o1, fx, Throw e) ->
  o1 = o
  /\ (fx = [] \/
      fx = [Requested (OpPullMessages
                         (match l with Some n => n | None => messageLimit o end))]).
Proof.
  unfold pullMessages, bind, this, request, throw, ret.
  destruct (subscription o) as [s|]; cbn.
  - destruct answer as [[raw|]|e']; cbn.
    + rewrite forOf_trackCategory_run. discriminate.
    + intros [= <- <- _]. auto.
    + intros [= <- <- _]. auto.
  - intros [= <- <- _]. auto.
Qed.


Lemma renew_run (now : Z) (answer : Completion RawRenew) (o : Events) :
  renew now answer o
  = match subscription o with
    | None => (o, [], Throw (newError NO_SUBSCRIPTION))
    | Some _ =>
        (o, [Requested OpRenew],
         match answer with
         | Normal raw =>
             Normal (RenewResult.mk (toDate now (raw_renew_currentTime raw))
                                    (toDate now (raw_renew_terminationTime raw)))
         | Throw e => Throw e
         end)
    end.
Proof.
  unfold renew, bind, this, request, throw, ret.
  destruct (subscription o); [|reflexivity].
  destruct answer; reflexivity.
Qed.

Lemma renew_keeps_deadline (now : Z) (answer : Completion RawRenew) (o : Events) :
  after (renew now answer) o = o.
Proof.
  unfold after. rewrite renew_run. now destruct (subscription o).
Qed.


End Runs.

(* ------------------------------------------------------------------ *)
(** ** Polling loop *)

Section Loop.
Context {E : JsEngine}.
Local Open Scope js_scope.



Lemma sleeps_app (fx1 fx2 : list Effect) :
  sleeps (fx1 ++ fx2) = sleeps fx1 ++ sleeps fx2.
Proof.
  induction fx1 as [|[op|[m|e]|ms] fx1 IH]; cbn [app sleeps];
    rewrite ?IH; reflexivity.
Qed.






End Loop.

(* ------------------------------------------------------------------ *)
(** ** Retry delay *)

Section DelayArithmetic.
Local Open Scope Q_scope.

Lemma MAX_RECONNECT_MS_positive : 0 < MAX_RECONNECT_MS.
Proof. reflexivity. Qed.

Lemma Math_min_Qmin (a b : Q) : Math_min a b == Qmin a b.
Proof.
  unfold Math_min. destruct (Qle_bool a b) eqn:Hab.
  - apply Qle_bool_iff in Hab. symmetry. now apply Q.min_l.
  - assert (Hba : b <= a).
    { destruct (Qlt_le_dec b a) as [H|H]; [now apply Qlt_le_weak|].
      apply Qle_bool_iff in H. congruence. }
    symmetry. now apply Q.min_r.
Qed.

(** Below the ceiling the delay is multiplied by 1.5 and capped. *)
Lemma growDelay_min (d : Q) :
  d <= MAX_RECONNECT_MS ->
  growDelay d == Qmin (d * (3 # 2)) MAX_RECONNECT_MS.
Proof.
  intros Hd. pose proof MAX_RECONNECT_MS_positive as HM.
  unfold growDelay, Qltb.
  destruct (Qle_bool MAX_RECONNECT_MS d) eqn:Hle; cbn [negb].
  - apply Qle_bool_iff in Hle.
    destruct (Q.min_spec (d * (3 # 2)) MAX_RECONNECT_MS) as [[H1 H2]|[H1 H2]];
      rewrite H2; lra.
  - rewrite Qred_correct. apply Math_min_Qmin.
Qed.

(** At or above the ceiling the delay stays. *)
Lemma growDelay_capped (d : Q) : MAX_RECONNECT_MS <= d -> growDelay d = d.
Proof.
  intros Hd. unfold growDelay, Qltb.
  apply Qle_bool_iff in Hd. now rewrite Hd.
Qed.



(** From the 24th failure on the delay is the ceiling. *)
Lemma delayAfter_ceiling (n : nat) : (24 <= n)%nat -> delayAfter n = MAX_RECONNECT_MS.
Proof.
  induction 1 as [|n Hn IH].
  - vm_compute. reflexivity.
  - cbn [delayAfter]. rewrite IH. vm_compute. reflexivity.
Qed.

End DelayArithmetic.

Section Backoff.
Context {E : JsEngine}.
Local Open Scope js_scope.


Lemma needsSubscription_false_subscribed (now : Z) (o : Events) :
  needsSubscription now o = false -> subscription o <> None.
Proof.
  unfold needsSubscription. destruct (subscription o); [discriminate|].
  discriminate.
Qed.




End Backoff.




(* ------------------------------------------------------------------ *)
(** ** Where the deadline is recomputed *)

Section DeadlineRecomputation.
Context {E : JsEngine}.
Local Open Scope js_scope.


End DeadlineRecomputation.



(* ================================================================== *)
(** * Further properties of the service *)

(* ------------------------------------------------------------------ *)
(** ** Topic parsing *)

Section TopicParsing.

Lemma string_app_assoc (a b c : string) :
  ((a ++ b) ++ c)%string = (a ++ b ++ c)%string.
Proof. induction a as [|x a IH]; cbn; [reflexivity | now rewrite IH]. Qed.

Lemma string_app_nil_r (a : string) : (a ++ "")%string = a.
Proof. induction a as [|x a IH]; cbn; [reflexivity | now rewrite IH]. Qed.

Lemma split_nonempty (sep : ascii) (s : string) : split sep s <> [].
Proof.
  destruct s as [|c r]; cbn; [discriminate|].
  destruct (Ascii.eqb c sep); [discriminate|].
  destruct (split sep r); discriminate.
Qed.

Lemma split_length (sep : ascii) (s : string) :
  List.length (split sep s) = S (occurrences sep s).
Proof.
  induction s as [|c r IH]; cbn [split occurrences]; [reflexivity|].
  destruct (Ascii.eqb c sep); cbn [List.length Nat.add].
  - now rewrite IH.
  - destruct (split sep r) as [|h t] eqn:Hs; [now destruct (split_nonempty sep r)|].
    exact IH.
Qed.

Lemma split_lacks (sep : ascii) (s : string) :
  Forall (fun p => lacks sep p = true) (split sep s).
Proof.
  induction s as [|c r IH]; cbn [split].
  - constructor; [reflexivity | constructor].
  - destruct (Ascii.eqb c sep) eqn:Hc.
    + constructor; [reflexivity | exact IH].
    + destruct (split sep r) as [|h t]; [now repeat constructor; cbn; rewrite Hc|].
      inversion IH as [|? ? Hh Ht]; subst.
      constructor; [cbn; now rewrite Hc, Hh | exact Ht].
Qed.

(** Joining the pieces of a split with the separator gives the string
    back. *)
Lemma concat_split (sep : ascii) (s : string) :
  String.concat (String sep EmptyString) (split sep s) = s.
Proof.
  induction s as [|c r IH]; cbn [split]; [reflexivity|].
  destruct (Ascii.eqb c sep) eqn:Hc.
  - apply Ascii.eqb_eq in Hc; subst c.
    destruct (split sep r) as [|h t] eqn:Hs; [now destruct (split_nonempty sep r)|].
    cbn [String.concat]. cbn. now rewrite <- IH.
  - destruct (split sep r) as [|h t] eqn:Hs; [now destruct (split_nonempty sep r)|].
    rewrite <- IH. destruct t; reflexivity.
Qed.

(** Splitting a string with a separator-free head. *)
Lemma split_app_lacks (sep : ascii) (a s : string) :
  lacks sep a = true ->
  split sep (a ++ s)%string
  = match split sep s with
    | h :: t => (a ++ h)%string :: t
    | [] => []
    end.
Proof.
  induction a as [|c a IH]; cbn [lacks append]; intros Ha.
  - destruct (split sep s); reflexivity.
  - apply andb_true_iff in Ha as [Hc Ha]. apply negb_true_iff in Hc.
    cbn [split]. rewrite Hc, (IH Ha).
    destruct (split sep s) as [|h t] eqn:Hs; [now destruct (split_nonempty sep s)|].
    reflexivity.
Qed.

Lemma indexOf_lacks (c : ascii) (s : string) :
  lacks c s = true -> indexOf c s = (-1)%Z.
Proof.
  induction s as [|d r IH]; cbn [lacks indexOf]; [reflexivity|].
  intros H. apply andb_true_iff in H as [Hd Hr]. apply negb_true_iff in Hd.
  rewrite Hd, (IH Hr). reflexivity.
Qed.

Lemma indexOf_range (c : ascii) (s : string) : (-1 <= indexOf c s)%Z.
Proof.
  induction s as [|d r IH]; cbn [indexOf]; [lia|].
  destruct (Ascii.eqb d c); [lia|].
  destruct (Z.ltb_spec (indexOf c r) 0); lia.
Qed.

(** The first occurrence after an occurrence-free head. *)
Lemma indexOf_app (c : ascii) (a s : string) :
  lacks c a = true ->
  indexOf c (a ++ String c s)%string = Z.of_nat (String.length a).
Proof.
  induction a as [|d a IH]; cbn [lacks append indexOf String.length]; intros Ha.
  - now rewrite Ascii.eqb_refl.
  - apply andb_true_iff in Ha as [Hd Ha]. apply negb_true_iff in Hd.
    rewrite Hd, (IH Ha).
    destruct (Z.ltb_spec (Z.of_nat (String.length a)) 0); lia.
Qed.

Lemma takeUnits_app (a s : string) : takeUnits (String.length a) (a ++ s)%string = a.
Proof. induction a as [|d a IH]; cbn; [now destruct s | now rewrite IH]. Qed.

Lemma dropUnits_app (a s : string) : dropUnits (String.length a) (a ++ s)%string = s.
Proof. induction a as [|d a IH]; cbn; [reflexivity | exact IH]. Qed.

Lemma lacks_dropUnits (c : ascii) (n : nat) (s : string) :
  lacks c s = true -> lacks c (dropUnits n s) = true.
Proof.
  revert s. induction n as [|n IH]; intros s H; [exact H|].
  destruct s as [|d r]; [reflexivity|]. cbn in *.
  apply andb_true_iff in H as [_ H]. now apply IH.
Qed.

Lemma lacks_takeUnits (c : ascii) (n : nat) (s : string) :
  lacks c s = true -> lacks c (takeUnits n s) = true.
Proof.
  revert s. induction n as [|n IH]; intros s H; [reflexivity|].
  destruct s as [|d r]; [reflexivity|]. cbn in *.
  apply andb_true_iff in H as [Hd H]. now rewrite Hd, IH.
Qed.

(** What comes before the first occurrence has no occurrence. *)
Lemma lacks_before_indexOf (c : ascii) (s : string) :
  lacks c (takeUnits (Z.to_nat (indexOf c s)) s) = true.
Proof.
  induction s as [|d r IH]; cbn [indexOf]; [reflexivity|].
  destruct (Ascii.eqb d c) eqn:Hd; [reflexivity|].
  pose proof (indexOf_range c r) as Hr.
  destruct (Z.ltb_spec (indexOf c r) 0); [reflexivity|].
  replace (Z.to_nat (indexOf c r + 1)) with (S (Z.to_nat (indexOf c r))) by lia.
  cbn. now rewrite Hd, IH.
Qed.

Lemma stripPrefix_lacks (p : string) :
  lacks ":"%char p = true -> stripPrefix p = p.
Proof.
  intros H. unfold stripPrefix. now rewrite (indexOf_lacks _ _ H).
Qed.

Lemma stripPrefix_keeps_lacks (c : ascii) (p : string) :
  lacks c p = true -> lacks c (stripPrefix p) = true.
Proof.
  intros H. unfold stripPrefix, substringFrom.
  destruct (indexOf ":"%char p >? 0)%Z; [now apply lacks_dropUnits | exact H].
Qed.

Lemma map_stripPrefix_lacks (l : list string) :
  Forall (fun p => lacks ":"%char p = true) l -> map stripPrefix l = l.
Proof.
  induction 1 as [|p l Hp Hl IH]; cbn; [reflexivity|].
  now rewrite (stripPrefix_lacks _ Hp), IH.
Qed.

Lemma lacks_app (c : ascii) (a b : string) :
  lacks c (a ++ b)%string = lacks c a && lacks c b.
Proof.
  induction a as [|d a IH]; cbn; [reflexivity|]. now rewrite IH, andb_assoc.
Qed.

Lemma split_keeps_lacks (c sep : ascii) (s : string) :
  lacks c s = true -> Forall (fun p => lacks c p = true) (split sep s).
Proof.
  induction s as [|d r IH]; cbn [split lacks]; intros H.
  - constructor; [reflexivity | constructor].
  - apply andb_true_iff in H as [Hd Hr]. specialize (IH Hr).
    destruct (Ascii.eqb d sep).
    + constructor; [reflexivity | exact IH].
    + destruct (split sep r) as [|h t]; [repeat constructor; cbn; now rewrite Hd|].
      inversion IH as [|? ? Hh Ht]; subst.
      constructor; [cbn; now rewrite Hd, Hh | exact Ht].
Qed.

(** X1. [parseEventTopic] keeps the topic and its category, always returns
    at least one part (one more than there are slashes in the topic), no
    part contains a slash, and the namespace contains neither a slash nor a
    colon. *)
Theorem parseEventTopic_structure (topic : string) :
  ParsedTopic.full (parseEventTopic topic) = topic
  /\ ParsedTopic.category (parseEventTopic topic) = categorizeEvent topic
  /\ List.length (ParsedTopic.parts (parseEventTopic topic))
     = S (occurrences "/"%char topic)
  /\ Forall (fun p => lacks "/"%char p = true)
            (ParsedTopic.parts (parseEventTopic topic))
  /\ lacks "/"%char (ParsedTopic.namespace (parseEventTopic topic)) = true
  /\ lacks ":"%char (ParsedTopic.namespace (parseEventTopic topic)) = true.
Proof.
  unfold parseEventTopic. cbn [ParsedTopic.full ParsedTopic.category
                               ParsedTopic.parts ParsedTopic.namespace].
  pose proof (split_length "/"%char topic) as Hlen.
  pose proof (split_lacks "/"%char topic) as Hlacks.
  destruct (split "/"%char topic) as [|firstPart rest] eqn:Hs;
    [now destruct (split_nonempty "/"%char topic)|].
  cbn [tl]. inversion Hlacks as [|? ? Hfirst Hrest]; subst.
  split; [reflexivity|]. split; [reflexivity|].
  split; [cbn [List.length map] in *; rewrite length_map; exact Hlen|].
  split.
  { cbn [map]. constructor.
    - apply stripPrefix_keeps_lacks.
      destruct (indexOf ":"%char firstPart >? 0)%Z;
        [now apply lacks_dropUnits | exact Hfirst].
    - clear - Hrest. induction Hrest as [|p l Hp Hl IH]; cbn; constructor;
        [now apply stripPrefix_keeps_lacks | exact IH]. }
  destruct (indexOf ":"%char firstPart >? 0)%Z; [|split; reflexivity].
  split.
  - now apply lacks_takeUnits.
  - apply lacks_before_indexOf.
Qed.

(** X2. Topic parsing round trips.  A topic without colon has the empty
    namespace and its parts joined by slashes give the topic back.  A topic
    [ns:rest], with [ns] non-empty and free of colons and slashes and [rest]
    free of colons, has namespace [ns] and its parts joined by slashes give
    [rest]. *)
Theorem parseEventTopic_round_trip :
  (forall topic,
      lacks ":"%char topic = true ->
      ParsedTopic.namespace (parseEventTopic topic) = ""
      /\ String.concat "/" (ParsedTopic.parts (parseEventTopic topic)) = topic)
  /\ (forall ns rest,
         ns <> "" ->
         lacks ":"%char ns = true ->
         lacks "/"%char ns = true ->
         lacks ":"%char rest = true ->
         ParsedTopic.namespace (parseEventTopic (ns ++ ":" ++ rest)%string) = ns
         /\ String.concat "/" (ParsedTopic.parts
                                 (parseEventTopic (ns ++ ":" ++ rest)%string))
            = rest).
Proof.
  split.
  - intros topic Hc. unfold parseEventTopic.
    cbn [ParsedTopic.namespace ParsedTopic.parts].
    pose proof (split_keeps_lacks ":"%char "/"%char topic Hc) as Hparts.
    pose proof (concat_split "/"%char topic) as Hjoin.
    destruct (split "/"%char topic) as [|firstPart rest] eqn:Hs;
      [now destruct (split_nonempty "/"%char topic)|].
    cbn [tl]. inversion Hparts as [|? ? Hfirst Hrest]; subst.
    rewrite (indexOf_lacks _ _ Hfirst). cbn [Z.gtb Z.compare].
    split; [reflexivity|].
    now rewrite (map_stripPrefix_lacks Hparts).
  - intros ns rest Hne Hns Hslash Hrest. unfold parseEventTopic.
    cbn [ParsedTopic.namespace ParsedTopic.parts].
    pose proof (split_keeps_lacks ":"%char "/"%char rest Hrest) as Hparts.
    pose proof (concat_split "/"%char rest) as Hjoin.
    assert (Hsplit : split "/"%char (ns ++ ":" ++ rest)%string
                     = match split "/"%char rest with
                       | h :: t => (ns ++ ":" ++ h)%string :: t
                       | [] => []
                       end).
    { change (ns ++ ":" ++ rest)%string with (ns ++ String ":"%char rest)%string.
      rewrite (split_app_lacks _ _ (String ":"%char rest) Hslash).
      cbn [split]. cbn [Ascii.eqb Bool.eqb andb].
      destruct (split "/"%char rest) as [|h t] eqn:Hs;
        [now destruct (split_nonempty "/"%char rest) | reflexivity]. }
    rewrite Hsplit.
    destruct (split "/"%char rest) as [|h t] eqn:Hs;
      [now destruct (split_nonempty "/"%char rest)|].
    cbn [tl]. inversion Hparts as [|? ? Hh Ht]; subst.
    change (ns ++ ":" ++ h)%string with (ns ++ String ":"%char h)%string.
    rewrite (indexOf_app _ _ h Hns).
    assert (Hpos : (Z.of_nat (String.length ns) >? 0)%Z = true).
    { destruct ns; [contradiction|]. cbn [String.length]. apply Z.gtb_lt. lia. }
    rewrite Hpos. unfold substringTo, substringFrom.
    rewrite Nat2Z.id.
    replace (Z.to_nat (Z.of_nat (String.length ns) + 1))
      with (String.length (ns ++ ":")%string).
    2:{ clear. induction ns as [|c ns IH]; cbn [append String.length]; lia. }
    split; [apply takeUnits_app|].
    replace (ns ++ String ":"%char h)%string with ((ns ++ ":") ++ h)%string
      by (now rewrite string_app_assoc).
    rewrite dropUnits_app.
    now rewrite (map_stripPrefix_lacks Hparts).
Qed.

(** X2 on the topic [tns1:RuleEngine/CellMotionDetector/Motion]. *)
Lemma parseEventTopic_round_trip_witness :
  ParsedTopic.namespace
    (parseEventTopic ("tns1" ++ ":" ++ "RuleEngine/CellMotionDetector/Motion")%string)
  = "tns1"
  /\ String.concat "/"
       (ParsedTopic.parts
          (parseEventTopic ("tns1" ++ ":" ++ "RuleEngine/CellMotionDetector/Motion")%string))
     = "RuleEngine/CellMotionDetector/Motion".
Proof.
  apply (proj2 parseEventTopic_round_trip "tns1" "RuleEngine/CellMotionDetector/Motion").
  - discriminate.
  - reflexivity.
  - reflexivity.
  - reflexivity.
Defined.

(** The parse of the specification's example, and two edge cases: a colon
    in first position is no prefix, and a first segment with two prefixes
    loses both. *)
Example parseEventTopic_samples :
  parseEventTopic "tns1:RuleEngine/CellMotionDetector/Motion"
  = ParsedTopic.mk "tns1:RuleEngine/CellMotionDetector/Motion" "tns1"
                   ["RuleEngine"; "CellMotionDetector"; "Motion"] motion
  /\ ParsedTopic.parts (parseEventTopic "") = [""]
  /\ parseEventTopic ":Device/tt:Trigger"
     = ParsedTopic.mk ":Device/tt:Trigger" "" [":Device"; "Trigger"] device
  /\ ParsedTopic.parts (parseEventTopic "a:b:c/d") = ["c"; "d"].
Proof. repeat split; reflexivity. Qed.

End TopicParsing.

(* ------------------------------------------------------------------ *)
(** ** The classifier on longer topics *)

Section ClassifierContext.
Local Open Scope nat_scope.

Lemma includes_mono (a t b p : string) :
  includes t p = true -> includes (a ++ t ++ b)%string p = true.
Proof.
  intros H. apply includes_spec in H as (x & y & ->).
  apply includes_spec. exists (a ++ x)%string, (y ++ b)%string.
  now rewrite !string_app_assoc.
Qed.

Lemma includes_trans (s t p : string) :
  includes s t = true -> includes t p = true -> includes s p = true.
Proof.
  intros Hs Ht. apply includes_spec in Hs as (a & b & ->).
  now apply includes_mono.
Qed.

Lemma includes_lower (s t : string) :
  includes s t = true -> includes (toLowerCase s) (toLowerCase t) = true.
Proof.
  intros H. apply includes_spec in H as (a & b & ->).
  rewrite !toLowerCase_app. apply includes_app.
Qed.

Lemma groupMatches_mono (x y : string) (pats : list string) :
  (forall p, includes x p = true -> includes y p = true) ->
  groupMatches x pats = true -> groupMatches y pats = true.
Proof.
  intros Hxy H. unfold groupMatches in *.
  apply existsb_exists in H as (p & Hp & Hin).
  apply existsb_exists. exists p. auto.
Qed.

Lemma rank_unknown_last (c : EventCategory) : rank c <= rank unknown.
Proof. destruct c; cbn; lia. Qed.

(** On a table whose categories come in increasing rank, more matches can
    only give an earlier category. *)
Lemma classifyByPriority_rank_mono (x y : string)
      (groups : list (EventCategory * list string)) :
  (forall p, includes x p = true -> includes y p = true) ->
  StronglySorted (fun g1 g2 => rank (fst g1) < rank (fst g2)) groups ->
  rank (classifyByPriority groups y) <= rank (classifyByPriority groups x).
Proof.
  intros Hxy Hsorted.
  induction Hsorted as [|[c pats] rest Hrest IH Hhead]; cbn [classifyByPriority].
  - lia.
  - destruct (groupMatches y pats) eqn:Hy.
    + destruct (groupMatches x pats); [lia|].
      destruct (classifyByPriority_range x rest) as [<-|Hin].
      * apply rank_unknown_last.
      * apply in_map_iff in Hin as (g & <- & Hg).
        rewrite Forall_forall in Hhead. specialize (Hhead g Hg). cbn in Hhead. lia.
    + destruct (groupMatches x pats) eqn:Hx; [|exact IH].
      apply (@groupMatches_mono x y pats Hxy) in Hx. congruence.
Qed.

Lemma patternGroups_sorted :
  StronglySorted (fun g1 g2 => rank (fst g1) < rank (fst g2)) patternGroups.
Proof.
  unfold patternGroups.
  repeat (constructor; [|repeat (constructor; [cbn; lia|]); constructor]).
  constructor.
Qed.

(** X3. Putting a topic inside a longer string (a namespace or path in
    front, more segments behind) can only move its category earlier in the
    order in which the pattern groups are tested: a face topic stays a face
    topic, and a topic that is classified never becomes unknown. *)
Theorem categorizeEvent_extension (a t b : string) :
  rank (categorizeEvent (a ++ t ++ b)%string) <= rank (categorizeEvent t)
  /\ (categorizeEvent t = face -> categorizeEvent (a ++ t ++ b)%string = face)
  /\ (categorizeEvent t <> unknown ->
      categorizeEvent (a ++ t ++ b)%string <> unknown).
Proof.
  assert (Hrank : rank (categorizeEvent (a ++ t ++ b)%string)
                  <= rank (categorizeEvent t)).
  { rewrite !categorizeEvent_table, !toLowerCase_app.
    apply classifyByPriority_rank_mono; [|exact patternGroups_sorted].
    intros p. apply includes_mono. }
  split; [exact Hrank|]. split.
  - intros Hface. rewrite Hface in Hrank.
    destruct (categorizeEvent (a ++ t ++ b)%string); cbn in Hrank; try lia.
    reflexivity.
  - intros Hknown Hunknown. rewrite Hunknown in Hrank.
    destruct (categorizeEvent t); cbn in Hrank; try lia. now apply Hknown.
Qed.

(** X3 on a motion topic inside a vendor path. *)
Lemma categorizeEvent_extension_witness :
  categorizeEvent ("tns1:RuleEngine/" ++ "CellMotionDetector" ++ "/Motion")%string
  <> unknown.
Proof.
  apply (proj2 (proj2 (categorizeEvent_extension
                         "tns1:RuleEngine/" "CellMotionDetector" "/Motion"))).
  vm_compute. discriminate.
Defined.

End ClassifierContext.

(* ------------------------------------------------------------------ *)
(** ** Advertised and observed detection types *)

Section CapabilityFacts.
Variable TopicSet : Type.
Variable JSON_stringify : TopicSet -> string.

Lemma pushIf_In (test : bool) (x c : EventCategory) (l : list EventCategory) :
  In c (pushIf test x l) <-> In c l \/ (test = true /\ c = x).
Proof.
  unfold pushIf. destruct test.
  - rewrite in_app_iff. cbn. intuition congruence.
  - intuition congruence.
Qed.

(** Which categories [getSupportedDetectionTypes] reports. *)
Lemma getSupportedDetectionTypes_In (properties : EventProperties TopicSet)
      (c : EventCategory) :
  In c (getSupportedDetectionTypes JSON_stringify properties)
  <-> (c = motion /\ supportsMotionDetection JSON_stringify properties = true)
      \/ (c = face /\ supportsFaceDetection JSON_stringify properties = true)
      \/ (c = person /\ supportsPersonDetection JSON_stringify properties = true)
      \/ (c = vehicle /\ supportsVehicleDetection JSON_stringify properties = true)
      \/ (c = animal /\ supportsAnimalDetection JSON_stringify properties = true)
      \/ (c = license_plate
          /\ supportsLicensePlateDetection JSON_stringify properties = true)
      \/ (c = audio /\ supportsAudioDetection JSON_stringify properties = true).
Proof.
  unfold getSupportedDetectionTypes. rewrite !pushIf_In. cbn [In]. tauto.
Qed.

Lemma subsequence_refl (l : list EventCategory) : subsequence l l.
Proof. induction l as [|x l IH]; cbn; [exact I | left; auto]. Qed.

Lemma getSupportedDetectionTypes_NoDup (properties : EventProperties TopicSet) :
  NoDup (getSupportedDetectionTypes JSON_stringify properties).
Proof.
  unfold getSupportedDetectionTypes, pushIf.
  destruct (supportsMotionDetection _ _), (supportsFaceDetection _ _),
    (supportsPersonDetection _ _), (supportsVehicleDetection _ _),
    (supportsAnimalDetection _ _), (supportsLicensePlateDetection _ _),
    (supportsAudioDetection _ _); cbn [app];
    repeat (constructor; [cbn; intuition discriminate|]); constructor.
Qed.


Lemma classifyByPriority_hit (x : string) (c : EventCategory)
      (groups : list (EventCategory * list string)) :
  classifyByPriority groups x = c ->
  c = unknown
  \/ exists pats, In (c, pats) groups /\ groupMatches x pats = true.
Proof.
  induction groups as [|[c0 pats0] groups IH]; cbn [classifyByPriority].
  - intros <-. now left.
  - destruct (groupMatches x pats0) eqn:Hx.
    + intros <-. right. exists pats0. split; [now left | exact Hx].
    + intros H. destruct (IH H) as [->|(pats & Hin & Hp)]; [now left|].
      right. exists pats. split; [now right | exact Hp].
Qed.

Lemma orb_intro_l (b c : bool) : b = true -> b || c = true.
Proof. now intros ->. Qed.

(** X5. The static inference agrees with the live classifier: when the
    serialised topic set contains a topic that [categorizeEvent] puts in one
    of the seven detection categories, [getSupportedDetectionTypes] reports
    that category. *)
Theorem advertised_topic_is_supported (properties : EventProperties TopicSet)
        (ts : TopicSet) (topic : string) :
  topicSet properties = Some ts ->
  includes (JSON_stringify ts) topic = true ->
  In (categorizeEvent topic) detectionTypes ->
  In (categorizeEvent topic) (getSupportedDetectionTypes JSON_stringify properties).
Proof.
  intros Hts Hin Hdet.
  apply includes_lower in Hin.
  assert (Hp : forall p, includes (toLowerCase topic) p = true ->
                         includes (toLowerCase (JSON_stringify ts)) p = true).
  { intros p. now apply includes_trans. }
  destruct (classifyByPriority_hit (toLowerCase topic) patternGroups
              (eq_sym (categorizeEvent_table topic))) as [Hu|(pats & Hg & Hm)].
  { rewrite Hu in Hdet. cbn in Hdet. intuition discriminate. }
  apply (@groupMatches_mono _ _ pats Hp) in Hm.
  apply getSupportedDetectionTypes_In.
  unfold supportsMotionDetection, supportsFaceDetection, supportsPersonDetection,
    supportsVehicleDetection, supportsAnimalDetection,
    supportsLicensePlateDetection, supportsAudioDetection.
  rewrite Hts.
  unfold patternGroups in Hg. cbn [In] in Hg.
  repeat match type of Hg with
         | _ \/ _ => destruct Hg as [Hg|Hg]
         end;
    try contradiction;
    injection Hg as Hc Hpats; rewrite <- Hc in *; rewrite <- Hpats in Hm;
    clear Hc Hpats;
    try (cbn in Hdet; intuition discriminate);
    cbn [groupMatches existsb] in Hm; rewrite orb_false_r in Hm;
    rewrite ?orb_assoc in Hm.
  - do 1 right; left. split; [reflexivity|]. now apply orb_intro_l.
  - do 2 right; left. split; [reflexivity|]. now apply orb_intro_l.
  - do 3 right; left. split; [reflexivity|]. now apply orb_intro_l.
  - do 4 right; left. split; [reflexivity|]. now apply orb_intro_l.
  - do 5 right; left. split; [reflexivity|]. exact Hm.
  - left. split; [reflexivity|]. exact Hm.
  - do 6 right. split; [reflexivity|]. now apply orb_intro_l.
Qed.

(** X6. A topic set that mentions [MyRuleDetector] (in any case) is taken
    to advertise face, person, vehicle and animal detection all at once. *)
Theorem myRuleDetector_advertises_four (properties : EventProperties TopicSet)
        (ts : TopicSet) :
  topicSet properties = Some ts ->
  containsIgnoreCase (JSON_stringify ts) "myruledetector" ->
  forall c, In c [face; person; vehicle; animal] ->
            In c (getSupportedDetectionTypes JSON_stringify properties).
Proof.
  intros Hts Hrule c Hc.
  apply containsIgnoreCase_includes in Hrule.
  change (toLowerCase "myruledetector") with "myruledetector" in Hrule.
  apply getSupportedDetectionTypes_In.
  unfold supportsFaceDetection, supportsPersonDetection,
    supportsVehicleDetection, supportsAnimalDetection.
  rewrite Hts, Hrule, !orb_true_r.
  cbn in Hc. intuition (subst; auto 10).
Qed.

Lemma Set_add_spec (c x : EventCategory) (s : list EventCategory) :
  In x (Set_add c s) <-> x = c \/ In x s.
Proof.
  split; [apply Set_add_In|].
  unfold Set_add. destruct (existsb (category_eqb c) s) eqn:Hc.
  - intros [->|H]; [|exact H].
    apply existsb_exists in Hc as (y & Hy & Heq).
    apply category_eqb_eq in Heq. now subst.
  - intros [->|H]; apply in_or_app; [right; now left | now left].
Qed.

Lemma Set_add_NoDup (c : EventCategory) (s : list EventCategory) :
  NoDup s -> NoDup (Set_add c s).
Proof.
  intros Hs. unfold Set_add. destruct (existsb (category_eqb c) s) eqn:Hc; [exact Hs|].
  apply NoDup_app; [exact Hs | repeat constructor; intros [] |].
  intros x Hx [Heq|[]]. subst x.
  assert (existsb (category_eqb c) s = true); [|congruence].
  apply existsb_exists. exists c. split; [exact Hx | now apply category_eqb_eq].
Qed.

Lemma Set_add_prefix (c : EventCategory) (s : list EventCategory) :
  exists extra, Set_add c s = s ++ extra.
Proof.
  unfold Set_add. destruct (existsb (category_eqb c) s).
  - exists []. now rewrite app_nil_r.
  - now exists [c].
Qed.

(** Adding the elements of a list to a set, one after the other. *)
Lemma fold_Set_add (l acc : list EventCategory) :
  NoDup acc ->
  NoDup (fold_left (fun s c => Set_add c s) l acc)
  /\ (forall x, In x (fold_left (fun s c => Set_add c s) l acc)
                <-> In x acc \/ In x l)
  /\ exists extra,
      fold_left (fun s c => Set_add c s) l acc = acc ++ extra
      /\ forall x, In x extra -> In x l /\ ~ In x acc.
Proof.
  revert acc. induction l as [|c l IH]; intros acc Hacc; cbn [fold_left].
  - split; [exact Hacc|]. split; [cbn; tauto|].
    exists []. rewrite app_nil_r. split; [reflexivity | intros x []].
  - destruct (IH (Set_add c acc) (Set_add_NoDup c Hacc)) as (Hnd & Hin & extra & Heq & Hextra).
    split; [exact Hnd|]. split.
    + intros x. rewrite Hin, Set_add_spec. cbn [In]. intuition congruence.
    + unfold Set_add in *. destruct (existsb (category_eqb c) acc) eqn:Hc.
      * exists extra. split; [exact Heq|].
        intros x Hx. destruct (Hextra x Hx) as [Hl Ha]. split; [now right | exact Ha].
      * exists (c :: extra). split; [now rewrite Heq, <- app_assoc|].
        intros x [<-|Hx].
        -- split; [now left|]. intros Hx.
           assert (existsb (category_eqb c) acc = true); [|congruence].
           apply existsb_exists. exists c. split; [exact Hx | now apply category_eqb_eq].
        -- destruct (Hextra x Hx) as [Hl Ha]. split; [now right|].
           intros Hacc'. apply Ha. apply in_or_app. now left.
Qed.

(** A duplicate-free list goes through [Array.from(new Set(...))]
    unchanged. *)
Lemma Array_from_Set_NoDup (l acc : list EventCategory) :
  NoDup (acc ++ l) -> fold_left (fun s c => Set_add c s) l acc = acc ++ l.
Proof.
  revert acc. induction l as [|c l IH]; intros acc H; cbn [fold_left].
  - now rewrite app_nil_r.
  - assert (Hc : existsb (category_eqb c) acc = false).
    { destruct (existsb (category_eqb c) acc) eqn:Hc; [|reflexivity].
      apply existsb_exists in Hc as (y & Hy & Heq).
      apply category_eqb_eq in Heq; subst y.
      apply NoDup_remove_2 in H. destruct H. apply in_or_app. now left. }
    unfold Set_add at 2. rewrite Hc.
    rewrite IH; rewrite <- app_assoc; [reflexivity | exact H].
Qed.

(** X7. [getAllSupportedDetectionTypes] is the union of the advertised
    and the observed categories without duplicates: every category of either
    list is in the result, nothing else is, no category occurs twice, and
    the advertised categories come first, followed by the observed ones that
    were not advertised. *)
Theorem getAllSupportedDetectionTypes_union
        (properties : EventProperties TopicSet) (observed : list EventCategory) :
  NoDup (getAllSupportedDetectionTypes JSON_stringify properties observed)
  /\ (forall c,
         In c (getAllSupportedDetectionTypes JSON_stringify properties observed)
         <-> In c (getSupportedDetectionTypes JSON_stringify properties)
             \/ In c observed)
  /\ exists extra,
      getAllSupportedDetectionTypes JSON_stringify properties observed
      = getSupportedDetectionTypes JSON_stringify properties ++ extra
      /\ forall c, In c extra ->
                   In c observed
                   /\ ~ In c (getSupportedDetectionTypes JSON_stringify properties).
Proof.
  unfold getAllSupportedDetectionTypes, Array_from_Set.
  rewrite fold_left_app.
  pose proof (getSupportedDetectionTypes_NoDup properties) as Hnd.
  rewrite (@Array_from_Set_NoDup _ []) by exact Hnd. cbn [app].
  exact (fold_Set_add observed Hnd).
Qed.

End CapabilityFacts.

(** X5 on a topic set given as a list of topic paths and serialised by
    joining them. *)
Lemma advertised_topic_is_supported_witness :
  In face (getSupportedDetectionTypes
             (String.concat ",")
             (mkProperties (Some ["RuleEngine/CellMotionDetector/Motion";
                                  "RuleEngine/MyRuleDetector/FaceDetect"]))).
Proof.
  exact (@advertised_topic_is_supported (list string) (String.concat ",")
           (mkProperties (Some ["RuleEngine/CellMotionDetector/Motion";
                                "RuleEngine/MyRuleDetector/FaceDetect"]))
           ["RuleEngine/CellMotionDetector/Motion";
            "RuleEngine/MyRuleDetector/FaceDetect"]
           "RuleEngine/MyRuleDetector/FaceDetect"
           eq_refl eq_refl (or_intror (or_introl eq_refl))).
Defined.


(** X6 on a topic set that lists one MyRuleDetector topic. *)
Lemma myRuleDetector_advertises_four_witness :
  In vehicle (getSupportedDetectionTypes
                (String.concat ",")
                (mkProperties (Some ["RuleEngine/MyRuleDetector/Visitor"]))).
Proof.
  apply (@myRuleDetector_advertises_four (list string) (String.concat ",")
           (mkProperties (Some ["RuleEngine/MyRuleDetector/Visitor"]))
           ["RuleEngine/MyRuleDetector/Visitor"] eq_refl).
  - exists "RuleEngine/", "MyRuleDetector", "/Visitor". split; reflexivity.
  - right; right; left; reflexivity.
Defined.

(** X7 with motion advertised and motion and face observed. *)
Lemma getAllSupportedDetectionTypes_union_witness :
  In face (getAllSupportedDetectionTypes
             (String.concat ",")
             (mkProperties (Some ["RuleEngine/CellMotionDetector/Motion"]))
             [motion; face]).
Proof.
  apply (proj1 (proj2 (getAllSupportedDetectionTypes_union
                         (String.concat ",")
                         (mkProperties (Some ["RuleEngine/CellMotionDetector/Motion"]))
                         [motion; face]))).
  right. right; left; reflexivity.
Defined.

(** The union of the specification's example. *)
Example getAllSupportedDetectionTypes_sample :
  getAllSupportedDetectionTypes
    (String.concat ",")
    (mkProperties (Some ["RuleEngine/CellMotionDetector/Motion"]))
    [motion; face]
  = [motion; face].
Proof. reflexivity. Qed.

(* ------------------------------------------------------------------ *)
(** ** The extractors together *)

Section ExtractorDispatch.
Context {E : JsEngine}.

Lemma parseMotionEvent_answers (now : Z) (m : NotificationMessage) :
  parseMotionEvent now m <> None
  <-> exists topic, topicOf m = Some topic /\ categorizeEvent topic = motion.
Proof.
  split.
  - destruct (parseMotionEvent now m) as [r|] eqn:Hr; [|congruence].
    intros _. exact (parseMotionEvent_inv _ _ Hr).
  - intros (topic & Ht & Hc). now rewrite (parseMotionEvent_motion now m Ht Hc).
Qed.

Lemma parseDetectionEvent_answers (now : Z) (m : NotificationMessage) :
  parseDetectionEvent now m <> None
  <-> exists topic,
      topicOf m = Some topic /\ isDetectionCategory (categorizeEvent topic) = true.
Proof.
  unfold parseDetectionEvent. destruct (topicOf m) as [topic|].
  - destruct (isDetectionCategory (categorizeEvent topic)) eqn:Hd.
    + split; [intros _; now exists topic|].
      intros _.
      destruct (forItems detectionDataStep _ _) as [[d p] c].
      destruct (forItems videoSourceStep _ _) as [v r]. discriminate.
    + split; [congruence|]. intros (t & [= <-] & Ht). congruence.
  - split; [congruence|]. intros (t & Ht & _). discriminate.
Qed.

Lemma parseAudioEvent_answers (now : Z) (m : NotificationMessage) :
  parseAudioEvent now m <> None
  <-> exists topic, topicOf m = Some topic /\ categorizeEvent topic = audio.
Proof.
  unfold parseAudioEvent. destruct (topicOf m) as [topic|].
  - destruct (category_eqb (categorizeEvent topic) audio) eqn:Hd.
    + apply category_eqb_eq in Hd.
      split; [intros _; now exists topic|].
      intros _.
      destruct (forItems audioDataStep _ _) as [[d p] c].
      destruct (forItems audioSourceStep _ _) as [v r]. discriminate.
    + split; [congruence|]. intros (t & [= <-] & Ht).
      apply category_eqb_eq in Ht. congruence.
  - split; [congruence|]. intros (t & Ht & _). discriminate.
Qed.

(** X8. The three extractors share the work by category: the motion
    extractor answers exactly the messages whose topic classifies as motion,
    the detection extractor exactly those of the five detection categories
    (and its record carries that category), the audio extractor exactly those
    of category audio.  Hence at most one of them answers a given message,
    and none answers a message without topic. *)
Theorem extractors_dispatch (now : Z) (m : NotificationMessage) :
  (parseMotionEvent now m <> None
   <-> exists topic, topicOf m = Some topic /\ categorizeEvent topic = motion)
  /\ (parseDetectionEvent now m <> None
      <-> exists topic,
          topicOf m = Some topic
          /\ In (categorizeEvent topic) [face; person; vehicle; animal; license_plate])
  /\ (parseAudioEvent now m <> None
      <-> exists topic, topicOf m = Some topic /\ categorizeEvent topic = audio)
  /\ (forall r topic,
         parseDetectionEvent now m = Some r ->
         topicOf m = Some topic ->
         DetectionEventData.category r = categorizeEvent topic)
  /\ (parseMotionEvent now m = None \/ parseDetectionEvent now m = None)
  /\ (parseMotionEvent now m = None \/ parseAudioEvent now m = None)
  /\ (parseDetectionEvent now m = None \/ parseAudioEvent now m = None)
  /\ (topicOf m = None ->
      parseMotionEvent now m = None
      /\ parseDetectionEvent now m = None
      /\ parseAudioEvent now m = None).
Proof.
  assert (Hdet : forall c,
             isDetectionCategory c = true
             <-> In c [face; person; vehicle; animal; license_plate]).
  { intros c. destruct c; cbn; intuition discriminate. }
  split; [apply parseMotionEvent_answers|].
  split.
  { rewrite parseDetectionEvent_answers.
    split; intros (topic & Ht & Hc); exists topic; (split; [exact Ht|]);
      now apply Hdet. }
  split; [apply parseAudioEvent_answers|].
  split.
  { intros r topic Hr Ht. unfold parseDetectionEvent in Hr. rewrite Ht in Hr.
    destruct (isDetectionCategory (categorizeEvent topic)); [|discriminate].
    destruct (forItems detectionDataStep _ _) as [[d p] c].
    destruct (forItems videoSourceStep _ _) as [v rl].
    now injection Hr as <-. }
  unfold parseMotionEvent, parseDetectionEvent, parseAudioEvent.
  destruct (topicOf m) as [topic|]; [|repeat split; auto].
  unfold category_eqb.
  destruct (EventCategory_eq_dec (categorizeEvent topic) motion) as [Hm|Hm],
           (EventCategory_eq_dec (categorizeEvent topic) audio) as [Ha|Ha];
    try rewrite Hm; try rewrite Ha; cbn [isDetectionCategory];
    try (rewrite Hm in Ha; discriminate).
  - repeat split; auto. discriminate.
  - repeat split; auto. discriminate.
  - repeat split; auto; discriminate.
Qed.

Lemma audioTypeOfTopic_vocabulary (topic : string) :
  In (audioTypeOfTopic topic)
     ["scream"; "gunshot"; "glass_break"; "cry"; "bark"; "alarm"; "generic"].
Proof.
  unfold audioTypeOfTopic.
  repeat match goal with
         | |- context [includes ?t ?p] => destruct (includes t p); cbn [orb]
         end; cbn; auto 10.
Qed.

(** X9. The record of the audio extractor always has an [audioType], and
    it is never the empty string: it is the last audio-type value of the
    payload when that value is not empty, and otherwise one of scream,
    gunshot, glass_break, cry, bark, alarm and generic, read off the topic. *)
Theorem audioType_never_empty (now : Z) (m : NotificationMessage)
        (r : AudioEventData.t number) :
  parseAudioEvent now m = Some r ->
  exists s,
    AudioEventData.audioType r = Some s
    /\ truthy s = true
    /\ (lastString audioTypeAliases (itemList data m) = Some s
        \/ ((forall v, lastString audioTypeAliases (itemList data m) = Some v ->
                       v = "")
            /\ In s ["scream"; "gunshot"; "glass_break"; "cry"; "bark"; "alarm";
                     "generic"])).
Proof.
  intros Hr.
  destruct (parseAudioEvent_fields _ _ Hr) as (topic & _ & _ & _ & _ & _ & Ha).
  assert (Hvoc := audioTypeOfTopic_vocabulary topic).
  assert (Htopic : truthy (audioTypeOfTopic topic) = true).
  { cbn in Hvoc. intuition (match goal with H : _ = audioTypeOfTopic _ |- _ =>
                                              rewrite <- H end; reflexivity). }
  rewrite Ha.
  destruct (lastString audioTypeAliases (itemList data m)) as [s|].
  - destruct (truthy s) eqn:Hs.
    + exists s. auto.
    + exists (audioTypeOfTopic topic). split; [reflexivity|]. split; [exact Htopic|].
      right. split; [|exact Hvoc].
      intros v [= <-]. now destruct s.
  - exists (audioTypeOfTopic topic). split; [reflexivity|]. split; [exact Htopic|].
    right. split; [intros v; discriminate | exact Hvoc].
Qed.

Lemma timestampOf_clock (now now' : Z) (m : NotificationMessage) :
  (forall c, message m = Some c -> utcTime c <> ROther) ->
  timestampOf now m = timestampOf now' m.
Proof.
  intros Htyped. unfold timestampOf.
  destruct (message m) as [c|]; [|reflexivity].
  specialize (Htyped c eq_refl).
  destruct (utcTime c); cbn; try reflexivity. contradiction.
Qed.

(** X10. The extractors do not read the clock: as long as [utcTime] is
    absent, a date, a number or a string, the three extractors return the
    same thing whatever the time of the call (the clock is only a fallback
    for a [utcTime] that is some other object). *)
Theorem extractors_ignore_clock (now now' : Z) (m : NotificationMessage) :
  (forall c, message m = Some c -> utcTime c <> ROther) ->
  parseMotionEvent now m = parseMotionEvent now' m
  /\ parseDetectionEvent now m = parseDetectionEvent now' m
  /\ parseAudioEvent now m = parseAudioEvent now' m.
Proof.
  intros Htyped.
  unfold parseMotionEvent, parseDetectionEvent, parseAudioEvent.
  rewrite (timestampOf_clock now now' m Htyped).
  repeat split; reflexivity.
Qed.

End ExtractorDispatch.

(** X8 on a message without topic. *)
Lemma extractors_dispatch_witness :
  parseAudioEvent (E := integerEngine) 0 (mkMessage None None) = None.
Proof.
  destruct (extractors_dispatch (E := integerEngine) 0 (mkMessage None None))
    as (_ & _ & _ & _ & _ & _ & _ & H).
  exact (proj2 (proj2 (H eq_refl))).
Defined.

(** X9 on an audio message whose payload names no type. *)
Lemma audioType_never_empty_witness :
  exists s,
    option_map (@AudioEventData.audioType _)
               (parseAudioEvent (E := integerEngine) 0 (audioMessage []))
    = Some (Some s)
    /\ truthy s = true.
Proof.
  destruct (@audioType_never_empty integerEngine 0 (audioMessage [])
              (AudioEventData.mk false None (Some "generic") None None None)
              eq_refl) as (s & Hs & Ht & _).
  exists s. split; [|exact Ht].
  cbn in Hs. rewrite <- Hs. reflexivity.
Defined.

(** X10 on a motion message at two different times. *)
Lemma extractors_ignore_clock_witness :
  parseMotionEvent (E := integerEngine) 0 twoTokenMessage
  = parseMotionEvent (E := integerEngine) 86400000 twoTokenMessage.
Proof.
  apply (@extractors_ignore_clock integerEngine 0 86400000 twoTokenMessage).
  intros c [= <-]. discriminate.
Defined.

(* ------------------------------------------------------------------ *)
(** ** What the methods keep and what they may do *)

Section Guarantees.
Context {E : JsEngine}.
Local Open Scope js_scope.

Variable P : Events -> Prop.
Variable R : Effect -> Prop.

Lemma guarantees_ret {A : Type} (a : A) : guarantees P R (ret a).
Proof. intros o H. split; [exact H | constructor]. Qed.

Lemma guarantees_throw {A : Type} (e : JsError) : guarantees P R (throw (A := A) e).
Proof. intros o H. split; [exact H | constructor]. Qed.

Lemma guarantees_call {A : Type} (r : Completion A) : guarantees P R (call r).
Proof. intros o H. split; [exact H | constructor]. Qed.

Lemma guarantees_request {A : Type} (op : Operation) (answer : Completion A) :
  R (Requested op) -> guarantees P R (request op answer).
Proof. intros Hop o H. split; [exact H | repeat constructor; exact Hop]. Qed.

Lemma guarantees_perform (fx : Effect) : R fx -> guarantees P R (perform fx).
Proof. intros Hfx o H. split; [exact H | repeat constructor; exact Hfx]. Qed.

Lemma guarantees_assign (f : Events -> Events) :
  (forall o, P o -> P (f o)) -> guarantees P R (assign f).
Proof. intros Hf o H. split; [apply Hf, H | constructor]. Qed.

Lemma guarantees_bind {A B : Type} (m : M A) (k : A -> M B) :
  guarantees P R m -> (forall a, guarantees P R (k a)) -> guarantees P R (bind m k).
Proof.
  intros Hm Hk o H. destruct (Hm o H) as [H1 F1].
  unfold after, effectsOf, bind in *. destruct (m o) as [[o1 fx1] [a|e]]; cbn in *.
  - destruct (Hk a o1 H1) as [H2 F2]. unfold after, effectsOf in *.
    destruct (k a o1) as [[o2 fx2] r2]. cbn in *.
    split; [exact H2 | apply Forall_app; auto].
  - auto.
Qed.

(** [o <- this ;; k o], where [k o] is only run on the object [o]. *)
Lemma guarantees_bind_this {B : Type} (k : Events -> M B) :
  (forall o, P o -> P (after (k o) o) /\ Forall R (effectsOf (k o) o)) ->
  guarantees P R (bind this k).
Proof.
  intros Hk o H. destruct (Hk o H) as [H1 F1].
  unfold after, effectsOf, bind, this in *. cbn.
  destruct (k o o) as [[o2 fx2] r2]. cbn in *. auto.
Qed.

Lemma guarantees_tryCatch {A : Type} (m : M A) (h : JsError -> M A) :
  guarantees P R m -> (forall e, guarantees P R (h e)) ->
  guarantees P R (tryCatch m h).
Proof.
  intros Hm Hh o H. destruct (Hm o H) as [H1 F1].
  unfold after, effectsOf, tryCatch in *. destruct (m o) as [[o1 fx1] [a|e]]; cbn in *.
  - auto.
  - destruct (Hh e o1 H1) as [H2 F2]. unfold after, effectsOf in *.
    destruct (h e o1) as [[o2 fx2] r2]. cbn in *.
    split; [exact H2 | apply Forall_app; auto].
Qed.

Lemma guarantees_tryFinally {A : Type} (m : M A) (f : M unit) :
  guarantees P R m -> guarantees P R f -> guarantees P R (tryFinally m f).
Proof.
  intros Hm Hf o H. destruct (Hm o H) as [H1 F1].
  unfold after, effectsOf, tryFinally in *. destruct (m o) as [[o1 fx1] r]; cbn in *.
  destruct (Hf o1 H1) as [H2 F2]. unfold after, effectsOf in *.
  destruct (f o1) as [[o2 fx2] [u|e]]; cbn in *;
    (split; [exact H2 | apply Forall_app; auto]).
Qed.

Lemma guarantees_forOf {A : Type} (l : list A) (body : A -> M unit) :
  (forall x, guarantees P R (body x)) -> guarantees P R (forOf l body).
Proof.
  intros Hbody. induction l as [|x l IH]; cbn [forOf].
  - apply guarantees_ret.
  - apply guarantees_bind; [apply Hbody | intros _; exact IH].
Qed.

Lemma guarantees_emit (listeners : Listeners) (s : Signal) :
  R (Emitted s) -> guarantees P R (emit listeners s).
Proof.
  intros Hs. unfold emit.
  apply guarantees_bind; [now apply guarantees_perform|]. intros _.
  destruct listeners as [outcome|]; [apply guarantees_call|].
  destruct s; [apply guarantees_ret | apply guarantees_throw].
Qed.

Lemma guarantees_background {A : Type} (m : M A) :
  guarantees P R m -> guarantees P R (background m).
Proof.
  intros Hm o H. specialize (Hm o H). unfold after, effectsOf, background in *.
  now destruct (m o) as [[o1 fx] r].
Qed.

(** The object fields each method writes. *)
Hypothesis Hsubscription : forall v o, P o -> P (set_subscription v o).
Hypothesis Htermination : forall v o, P o -> P (set_terminationTime v o).
Hypothesis Hobserved : forall v o, P o -> P (set_observedCategories v o).

Lemma create_guarantees (now_current now_termination now : Z)
      (answer : Completion (option RawSubscription)) :
  R (Requested OpCreatePullPointSubscription) ->
  guarantees P R (createPullPointSubscription now_current now_termination now answer).
Proof.
  intros Hop. unfold createPullPointSubscription.
  apply guarantees_bind; [now apply guarantees_request|].
  intros [raw|]; [|apply guarantees_throw].
  apply guarantees_bind; [apply guarantees_call|]. intros url.
  apply guarantees_bind; [apply guarantees_assign; intros; now apply Hsubscription|].
  intros _.
  apply guarantees_bind; [apply guarantees_assign; intros; now apply Htermination|].
  intros _. apply guarantees_ret.
Qed.

Lemma trackCategory_guarantees (m : NotificationMessage) :
  guarantees P R (trackCategory m).
Proof.
  intros o H. unfold after, effectsOf. rewrite trackCategory_run. cbn.
  split; [now apply Hobserved | constructor].
Qed.

Lemma pullMessages_guarantees (l : option Z) (now : Z)
      (answer : Completion (option RawPullMessages)) :
  (forall o, P o ->
             R (Requested (OpPullMessages
                             (match l with Some n => n | None => messageLimit o end)))) ->
  guarantees P R (pullMessages l now answer).
Proof.
  intros Hop. unfold pullMessages. apply guarantees_bind_this. intros o H.
  destruct (subscription o); [|now apply guarantees_throw].
  revert o H Hop.
  generalize (fun o => match l with Some n => n | None => messageLimit o end).
  intros limit o H Hop.
  apply guarantees_bind; [apply guarantees_request; now apply Hop| |exact H].
  intros [raw|]; [|apply guarantees_throw].
  apply guarantees_bind; [|intros; apply guarantees_ret].
  apply guarantees_forOf. apply trackCategory_guarantees.
Qed.

Lemma renew_guarantees (now : Z) (answer : Completion RawRenew) :
  R (Requested OpRenew) -> guarantees P R (renew now answer).
Proof.
  intros Hop. unfold renew. apply guarantees_bind_this. intros o H.
  destruct (subscription o); [|now apply guarantees_throw].
  apply guarantees_bind; [now apply guarantees_request | intros; apply guarantees_ret | exact H].
Qed.

Lemma unsubscribe_guarantees (answer : Completion unit) :
  R (Requested OpUnsubscribe) -> guarantees P R (unsubscribe answer).
Proof.
  intros Hop. unfold unsubscribe. apply guarantees_bind_this. intros o H.
  destruct (subscription o); [|now apply guarantees_ret].
  apply guarantees_tryFinally; [| |exact H].
  - apply guarantees_tryCatch; [now apply guarantees_request | intros; apply guarantees_ret].
  - apply guarantees_bind; [apply guarantees_assign; intros; now apply Hsubscription|].
    intros _. apply guarantees_assign; intros; now apply Htermination.
Qed.

(** The [try] block of the loop body. *)
Hypothesis Hreset : forall o, P o -> P (set_reconnectMs 10 o).
Hypothesis Rcreate : R (Requested OpCreatePullPointSubscription).
Hypothesis Rpull : forall o, P o -> R (Requested (OpPullMessages (messageLimit o))).
Hypothesis Revent : forall m, R (Emitted (EventSignal m)).
Hypothesis Rrenew : R (Requested OpRenew).

Lemma pollOnce_guarantees (env : Turn) : guarantees P R (pollOnce env).
Proof.
  unfold pollOnce. apply guarantees_bind.
  { unfold ensureSubscription. apply guarantees_bind_this. intros o H.
    destruct (needsSubscription (now_start env) o); [|now apply guarantees_ret].
    apply guarantees_bind; [now apply create_guarantees| |exact H].
    intros _. apply guarantees_assign. exact Hreset. }
  intros _. apply guarantees_bind_this. intros o H.
  apply guarantees_bind; [| |exact H].
  { apply pullMessages_guarantees. intros o' _. now apply Rpull. }
  intros result.
  apply guarantees_bind; [apply guarantees_assign; exact Hreset|]. intros _.
  unfold afterPull. apply guarantees_bind.
  { unfold publish. apply guarantees_forOf. intros m.
    apply guarantees_bind; [apply trackCategory_guarantees|].
    intros _. apply guarantees_emit, Revent. }
  intros _.
  apply guarantees_bind; [apply guarantees_assign; intros; now apply Htermination|].
  intros _. unfold tryRenew.
  apply guarantees_tryCatch; [|intros; apply guarantees_ret].
  apply guarantees_bind; [now apply renew_guarantees|].
  intros r. apply guarantees_assign; intros; now apply Htermination.
Qed.

(** The whole loop body, and the loop. *)
Hypothesis Hgrow : forall o, P o -> P (set_reconnectMs (growDelay (reconnectMs o)) o).
Hypothesis Rerror : forall e, R (Emitted (ErrorSignal e)).
Hypothesis Rslept : forall d, R (Slept d).
Hypothesis Runsubscribe : R (Requested OpUnsubscribe).

Lemma loopBody_guarantees (env : Turn) : guarantees P R (loopBody env).
Proof.
  unfold loopBody. apply guarantees_tryCatch; [apply pollOnce_guarantees|].
  intros e. unfold recover.
  apply guarantees_bind; [apply guarantees_emit, Rerror|]. intros _.
  destruct (isRetryableError e).
  - apply guarantees_bind_this. intros o H.
    apply guarantees_bind; [apply guarantees_perform, Rslept| |exact H].
    intros _. apply guarantees_bind_this. intros o' H'.
    split; [apply Hgrow, H' | constructor].
  - apply guarantees_tryCatch; [now apply unsubscribe_guarantees|].
    intros; apply guarantees_ret.
Qed.

Lemma runEventLoop_guarantees (turns : list Turn) :
  guarantees P R (runEventLoop turns).
Proof.
  induction turns as [|env turns IH]; cbn [runEventLoop].
  - apply guarantees_ret.
  - apply guarantees_bind_this. intros o H.
    destruct (shouldPoll o); [|now apply guarantees_ret].
    apply guarantees_bind; [apply loopBody_guarantees | intros _; exact IH | exact H].
Qed.

End Guarantees.

(* ------------------------------------------------------------------ *)
(** ** Direct calls, one by one *)

Section DirectCallOutcomes.
Context {E : JsEngine}.
Local Open Scope js_scope.

(** X11. [renew] never changes the object.  Without a subscription it
    fails with the "No active subscription" error and sends nothing; with
    one it sends exactly one renew request and returns the times of the
    answer, or throws what the request threw. *)
Theorem renew_is_read_only (now : Z) (answer : Completion RawRenew) (o : Events) :
  after (renew now answer) o = o
  /\ (subscription o = None ->
      completionOf (renew now answer) o = Throw (newError NO_SUBSCRIPTION)
      /\ effectsOf (renew now answer) o = [])
  /\ (subscription o <> None ->
      effectsOf (renew now answer) o = [Requested OpRenew]
      /\ completionOf (renew now answer) o
         = match answer with
           | Normal raw => Normal (renewedResult now raw)
           | Throw e => Throw e
           end).
Proof.
  split; [apply renew_keeps_deadline|].
  unfold completionOf, effectsOf. rewrite renew_run.
  destruct (subscription o).
  - split; [discriminate|]. intros _. split; reflexivity.
  - split; [intros _; split; reflexivity|]. intros H. now contradiction H.
Qed.

Lemma create_effects (now_current now_termination now : Z)
      (answer : Completion (option RawSubscription)) (o : Events) :
  effectsOf (createPullPointSubscription now_current now_termination now answer) o
  = [Requested OpCreatePullPointSubscription].
Proof.
  pose proof (run_triple (createPullPointSubscription
                            now_current now_termination now answer) o) as Hrun.
  destruct (completionOf (createPullPointSubscription
                            now_current now_termination now answer) o).
  - now apply create_success in Hrun.
  - now apply create_failure in Hrun.
Qed.

(** X12. [createPullPointSubscription] sends exactly one request, the
    creation request: a subscription the object already holds is dropped
    without being unsubscribed.  When the call fails the object is left as it
    was, the previous subscription included; when it succeeds only the
    subscription and its deadline change.  A response without the expected
    element fails with "Invalid CreatePullPointSubscription response", and a
    response without address fails with whatever [parseUrl] throws on the
    empty string. *)
Theorem createPullPointSubscription_outcomes
        (now_current now_termination now : Z)
        (answer : Completion (option RawSubscription)) (o : Events) :
  effectsOf (createPullPointSubscription now_current now_termination now answer) o
  = [Requested OpCreatePullPointSubscription]
  /\ (forall e,
         completionOf (createPullPointSubscription
                         now_current now_termination now answer) o = Throw e ->
         after (createPullPointSubscription
                  now_current now_termination now answer) o = o)
  /\ (forall s,
         completionOf (createPullPointSubscription
                         now_current now_termination now answer) o = Normal s ->
         after (createPullPointSubscription
                  now_current now_termination now answer) o
         = set_terminationTime (Some (calculateTerminationTime now s))
                               (set_subscription (Some s) o))
  /\ (answer = Normal None ->
      completionOf (createPullPointSubscription
                      now_current now_termination now answer) o
      = Throw (newError "Invalid CreatePullPointSubscription response"))
  /\ (forall raw e,
         answer = Normal (Some raw) ->
         raw_subscriptionReference raw = None ->
         parseUrl "" = Throw e ->
         completionOf (createPullPointSubscription
                         now_current now_termination now answer) o = Throw e).
Proof.
  split; [apply create_effects|].
  pose proof (run_triple (createPullPointSubscription
                            now_current now_termination now answer) o) as Hrun.
  split.
  { intros e He. rewrite He in Hrun. now apply create_failure in Hrun. }
  split.
  { intros s Hs. rewrite Hs in Hrun. now apply create_success in Hrun. }
  split.
  { intros ->. reflexivity. }
  intros raw e -> Href Hurl.
  unfold completionOf, createPullPointSubscription, bind, request, call.
  cbn. rewrite Href, Hurl. reflexivity.
Qed.

(** X13. [pullMessages] changes nothing when it fails, and only the
    observed categories when it succeeds: subscription, deadline, running
    flag, retry delay and message limit are never written.  A response
    without the expected element fails with "Invalid PullMessages response".
    The messages of the result are those of the answer in the same order, an
    absent field giving none and a single message giving one. *)
Theorem pullMessages_outcomes
        (opt_messageLimit : option Z) (now : Z)
        (answer : Completion (option RawPullMessages)) (o : Events) :
  (forall e,
      completionOf (pullMessages opt_messageLimit now answer) o = Throw e ->
      after (pullMessages opt_messageLimit now answer) o = o)
  /\ (forall result,
         completionOf (pullMessages opt_messageLimit now answer) o = Normal result ->
         after (pullMessages opt_messageLimit now answer) o
         = set_observedCategories
             (fold_left observe (PullMessagesResult.notificationMessage result)
                        (observedCategories o)) o)
  /\ (subscription o <> None ->
      answer = Normal None ->
      completionOf (pullMessages opt_messageLimit now answer) o
      = Throw (newError "Invalid PullMessages response"))
  /\ (forall raw,
         subscription o <> None ->
         answer = Normal (Some raw) ->
         exists result,
           completionOf (pullMessages opt_messageLimit now answer) o = Normal result
           /\ PullMessagesResult.notificationMessage result
              = match raw_notificationMessage raw with
                | None => []
                | Some (One m) => [m]
                | Some (Many l) => l
                end).
Proof.
  pose proof (run_triple (pullMessages opt_messageLimit now answer) o) as Hrun.
  split.
  { intros e He. rewrite He in Hrun. now apply pull_failure in Hrun. }
  split.
  { intros result Hres. rewrite Hres in Hrun.
    apply pull_success in Hrun as (_ & Ho & _ & Hmsgs & _).
    now rewrite Hmsgs. }
  split.
  { intros Hs ->. unfold completionOf, pullMessages, bind, this, request.
    destruct (subscription o); [reflexivity | contradiction]. }
  intros raw Hs ->.
  unfold completionOf, pullMessages, bind, this, request.
  destruct (subscription o); [|contradiction].
  rewrite forOf_trackCategory_run. cbn.
  eexists. split; [reflexivity|]. cbn.
  destruct (raw_notificationMessage raw) as [[m|l]|]; reflexivity.
Qed.

Lemma observe_grows (s : list EventCategory) (m : NotificationMessage)
      (c : EventCategory) :
  In c s -> In c (observe s m).
Proof.
  intros H. unfold observe. destruct (topicOf m); [|exact H].
  destruct (category_eqb _ unknown); [exact H|].
  apply Set_add_spec. now right.
Qed.

Lemma observe_NoDup (s : list EventCategory) (m : NotificationMessage) :
  NoDup s -> NoDup (observe s m).
Proof.
  intros H. unfold observe. destruct (topicOf m); [|exact H].
  destruct (category_eqb _ unknown); [exact H|].
  now apply Set_add_NoDup.
Qed.

Lemma startEventLoop_keeps (Q : list EventCategory -> Prop)
      (l : option Z) (turns : list Turn) :
  (forall s m, Q s -> Q (observe s m)) ->
  preserves (onObserved Q) (startEventLoop l turns).
Proof.
  intros HQ. unfold startEventLoop. apply preserves_bind; [apply preserves_this|].
  intros o. destruct (shouldPoll o); [apply preserves_ret|].
  apply preserves_bind; [apply preserves_assign; intros o' H'; exact H'|]. intros _.
  apply preserves_bind; [apply preserves_assign; intros o' H'; exact H'|]. intros _.
  apply preserves_background. now apply runEventLoop_keeps.
Qed.

(** X14. The set of observed categories only grows: whatever the call,
    apart from [clearObservedCategories], a category that was observed
    before is still observed after.  And the set never holds a category
    twice. *)
Theorem observedCategories_grow :
  (forall call o c,
      call <> CallClear ->
      In c (getObservedCategories o) ->
      In c (getObservedCategories (perform_call call o)))
  /\ (forall calls, NoDup (getObservedCategories (history calls))).
Proof.
  split.
  - intros call o c Hcall Hin.
    assert (HQ : forall s m, In c s -> In c (observe s m))
      by (intros; now apply observe_grows).
    change (onObserved (fun s => In c s) (perform_call call o)).
    destruct call; cbn [perform_call].
    + now apply create_keeps.
    + apply pullMessages_keeps; [intros s m _; apply HQ | exact Hin].
    + now apply renew_keeps.
    + now apply unsubscribe_keeps.
    + now apply startEventLoop_keeps.
    + now apply stopEventLoop_settled_keeps.
    + contradiction.
  - intros calls. unfold history, getObservedCategories.
    apply (@history_keeps _ (fun s => NoDup s) calls).
    + intros s m. apply observe_NoDup.
    + constructor.
    + constructor.
Qed.

Lemma fold_observe_grows (messages : list NotificationMessage)
      (s : list EventCategory) (c : EventCategory) :
  In c s -> In c (fold_left observe messages s).
Proof.
  revert s. induction messages as [|m messages IH]; intros s H; cbn; [exact H|].
  apply IH. now apply observe_grows.
Qed.

Lemma fold_observe_In (messages : list NotificationMessage)
      (s : list EventCategory) (m : NotificationMessage) (topic : string) :
  In m messages ->
  topicOf m = Some topic ->
  categorizeEvent topic <> unknown ->
  In (categorizeEvent topic) (fold_left observe messages s).
Proof.
  revert s. induction messages as [|m0 messages IH]; intros s Hin Ht Hc; [contradiction|].
  cbn [fold_left]. destruct Hin as [->|Hin].
  - apply fold_observe_grows. unfold observe. rewrite Ht.
    destruct (category_eqb (categorizeEvent topic) unknown) eqn:Hu.
    + apply category_eqb_eq in Hu. contradiction.
    + apply Set_add_spec. now left.
  - now apply IH.
Qed.

Lemma Set_has_In (c : EventCategory) (s : list EventCategory) :
  Set_has c s = true <-> In c s.
Proof.
  unfold Set_has. rewrite existsb_exists. split.
  - intros (x & Hx & Heq). apply category_eqb_eq in Heq. now subst.
  - intros H. exists c. split; [exact H | now apply category_eqb_eq].
Qed.

(** X15. What a pull observes can be looked up: after a successful
    [pullMessages], [hasObservedCategory] answers true for the category of
    every message of the result whose topic is classified; and after
    [clearObservedCategories] it answers false for every category. *)
Theorem pulled_categories_are_observed :
  (forall opt_messageLimit now answer o result m topic,
      completionOf (pullMessages opt_messageLimit now answer) o = Normal result ->
      In m (PullMessagesResult.notificationMessage result) ->
      topicOf m = Some topic ->
      categorizeEvent topic <> unknown ->
      hasObservedCategory (categorizeEvent topic)
                          (after (pullMessages opt_messageLimit now answer) o)
      = true)
  /\ (forall c o, hasObservedCategory c (after clearObservedCategories o) = false).
Proof.
  split.
  - intros l now answer o result m topic Hres Hin Ht Hc.
    pose proof (run_triple (pullMessages l now answer) o) as Hrun.
    rewrite Hres in Hrun.
    apply pull_success in Hrun as (_ & Ho & _ & Hmsgs & _).
    rewrite Ho. unfold hasObservedCategory. cbn [observedCategories set_observedCategories].
    apply Set_has_In. rewrite <- Hmsgs. now apply fold_observe_In with (m := m).
  - intros c o. reflexivity.
Qed.

End DirectCallOutcomes.

(* ------------------------------------------------------------------ *)
(** ** Turns of the loop, whatever happens *)

Section LoopOutcomes.
Context {E : JsEngine}.
Local Open Scope js_scope.

Lemma effectsOf_bind {A B : Type} (m : M A) (k : A -> M B) (o : Events) :
  effectsOf (bind m k) o
  = effectsOf m o
      ++ match completionOf m o with
         | Normal a => effectsOf (k a) (after m o)
         | Throw _ => []
         end.
Proof.
  unfold effectsOf, completionOf, after, bind.
  destruct (m o) as [[o1 fx1] [a|e]]; cbn.
  - now destruct (k a o1) as [[o2 fx2] r2].
  - now rewrite app_nil_r.
Qed.

Lemma bind_this_run {B : Type} (k : Events -> M B) (o : Events) :
  bind this k o = k o o.
Proof. unfold bind, this. now destruct (k o o) as [[o2 fx2] r2]. Qed.

Lemma effectsOf_bind_this {B : Type} (k : Events -> M B) (o : Events) :
  effectsOf (bind this k) o = effectsOf (k o) o.
Proof. unfold effectsOf. now rewrite bind_this_run. Qed.

Lemma errorSignals_app (fx1 fx2 : list Effect) :
  errorSignals (fx1 ++ fx2) = errorSignals fx1 ++ errorSignals fx2.
Proof.
  induction fx1 as [|[op|[m|e]|ms] fx1 IH]; cbn [app errorSignals];
    rewrite ?IH; reflexivity.
Qed.

Lemma requests_app (fx1 fx2 : list Effect) :
  requests (fx1 ++ fx2) = requests fx1 ++ requests fx2.
Proof.
  induction fx1 as [|[op|[m|e]|ms] fx1 IH]; cbn [app requests];
    rewrite ?IH; reflexivity.
Qed.

Lemma pollingEffect_facts (fx : list Effect) :
  Forall pollingEffect fx ->
  errorSignals fx = [] /\ sleeps fx = [] /\ ~ In OpUnsubscribe (requests fx).
Proof.
  induction 1 as [|x fx Hx Hfx (IH1 & IH2 & IH3)]; [cbn; auto|].
  destruct x as [op|[m|e]|ms]; cbn in *; try contradiction; auto.
  repeat split; auto. intros [Hop|Hin]; [|auto]. now subst op.
Qed.

(** The [try] block never emits an error signal, never sleeps and never
    unsubscribes. *)
Lemma pollOnce_effects (env : Turn) (o : Events) :
  Forall pollingEffect (effectsOf (pollOnce env) o).
Proof.
  apply (@pollOnce_guarantees _ (fun _ => True) pollingEffect); cbn; auto.
Qed.

Lemma unsubscribe_run (answer : Completion unit) (o : Events) :
  unsubscribe answer o
  = match subscription o with
    | None => (o, [], Normal tt)
    | Some _ =>
        (set_terminationTime None (set_subscription None o),
         [Requested OpUnsubscribe], Normal tt)
    end.
Proof.
  unfold unsubscribe, bind, this. destruct (subscription o); [|reflexivity].
  destruct answer as [[]|e]; reflexivity.
Qed.

Lemma emit_error_run (listeners : Listeners) (e : JsError) (o : Events) :
  emit listeners (ErrorSignal e) o
  = (o, [Emitted (ErrorSignal e)], emitOutcome listeners e).
Proof. destruct listeners as [outcome|]; reflexivity. Qed.

(** The [catch] block: when the emission throws, nothing else happens. *)
Lemma recover_run (env : Turn) (e : JsError) (o : Events) :
  recover env e o
  = match emitOutcome (error_listeners env) e with
    | Throw e' => (o, [Emitted (ErrorSignal e)], Throw e')
    | Normal _ =>
        if isRetryableError e
        then (set_reconnectMs (growDelay (reconnectMs o)) o,
              [Emitted (ErrorSignal e); Slept (reconnectMs o)], Normal tt)
        else match subscription o with
             | None => (o, [Emitted (ErrorSignal e)], Normal tt)
             | Some _ =>
                 (set_terminationTime None (set_subscription None o),
                  [Emitted (ErrorSignal e); Requested OpUnsubscribe], Normal tt)
             end
    end.
Proof.
  unfold recover. unfold bind at 1. rewrite emit_error_run.
  destruct (emitOutcome (error_listeners env) e) as [[]|e']; [|reflexivity].
  unfold bind, sleep, perform, this, assign, tryCatch.
  destruct (isRetryableError e); [reflexivity|].
  rewrite unsubscribe_run. destruct (subscription o); reflexivity.
Qed.

Lemma loopBody_run (env : Turn) (o : Events) :
  loopBody env o
  = match completionOf (pollOnce env) o with
    | Normal a => (after (pollOnce env) o, effectsOf (pollOnce env) o, Normal a)
    | Throw e =>
        (after (recover env e) (after (pollOnce env) o),
         effectsOf (pollOnce env) o
           ++ effectsOf (recover env e) (after (pollOnce env) o),
         completionOf (recover env e) (after (pollOnce env) o))
    end.
Proof.
  unfold loopBody, tryCatch, after, effectsOf, completionOf.
  destruct (pollOnce env o) as [[o1 fx] [a|e]]; cbn [fst snd]; [reflexivity|].
  now destruct (recover env e o1) as [[o2 fx2] r2].
Qed.

Lemma pull_effects (l : option Z) (now : Z)
      (answer : Completion (option RawPullMessages)) (o : Events) :
  subscription o <> None ->
  effectsOf (pullMessages l now answer) o
  = [Requested (OpPullMessages
                  (match l with Some n => n | None => messageLimit o end))].
Proof.
  intros Hs. unfold effectsOf, pullMessages, bind, this, request.
  destruct (subscription o); [|contradiction].
  destruct answer as [[raw|]|e]; cbn; try reflexivity.
  now rewrite forOf_trackCategory_run.
Qed.

(** The first effect of a turn is a request: the creation when a
    subscription is needed, the pull otherwise. *)
Lemma pollOnce_first_request (env : Turn) (o : Events) :
  exists rest,
    effectsOf (pollOnce env) o
    = Requested (if needsSubscription (now_start env) o
                 then OpCreatePullPointSubscription
                 else OpPullMessages (messageLimit o)) :: rest.
Proof.
  unfold pollOnce. rewrite effectsOf_bind.
  destruct (needsSubscription (now_start env) o) eqn:Hneeds.
  - assert (Hfx : effectsOf (ensureSubscription env) o
                  = Requested OpCreatePullPointSubscription
                      :: match completionOf
                                 (createPullPointSubscription
                                    (now_create_current env)
                                    (now_create_termination env)
                                    (now_created env) (create_answer env)) o with
                         | Normal _ => []
                         | Throw _ => []
                         end).
    { unfold ensureSubscription.
      rewrite effectsOf_bind_this, Hneeds, effectsOf_bind, create_effects.
      destruct (completionOf _ o); reflexivity. }
    rewrite Hfx. eexists. reflexivity.
  - assert (Hrun : ensureSubscription env o = (o, [], Normal tt)).
    { unfold ensureSubscription, bind, this. now rewrite Hneeds. }
    unfold effectsOf at 1, completionOf, after. rewrite Hrun. cbn [fst snd app].
    rewrite effectsOf_bind_this, effectsOf_bind, pull_effects
      by (now apply needsSubscription_false_subscribed with (now := now_start env)).
    eexists. reflexivity.
Qed.

Lemma completionOf_bind {A B : Type} (m : M A) (k : A -> M B) (o : Events) :
  completionOf (bind m k) o
  = match completionOf m o with
    | Normal a => completionOf (k a) (after m o)
    | Throw e => Throw e
    end.
Proof.
  unfold effectsOf, completionOf, after, bind.
  destruct (m o) as [[o1 fx1] [a|e]]; cbn; [|reflexivity].
  now destruct (k a o1) as [[o2 fx2] r2].
Qed.

(** A turn completes normally when its [try] block does, and otherwise as
    the emission of the [error] signal does. *)
Lemma loopBody_completion (env : Turn) (o : Events) :
  completionOf (loopBody env) o
  = match completionOf (pollOnce env) o with
    | Normal _ => Normal tt
    | Throw e => emitOutcome (error_listeners env) e
    end.
Proof.
  unfold completionOf at 1. rewrite loopBody_run.
  destruct (completionOf (pollOnce env) o) as [[]|e]; [reflexivity|].
  cbn [snd]. unfold completionOf at 1. rewrite recover_run.
  destruct (emitOutcome (error_listeners env) e) as [[]|e']; [|reflexivity].
  destruct (isRetryableError e); [reflexivity|].
  now destruct (subscription _).
Qed.

Lemma loopBody_heard (env : Turn) (o : Events) :
  error_listeners env = Some (Normal tt) ->
  completionOf (loopBody env) o = Normal tt.
Proof.
  intros Hheard. rewrite loopBody_completion, Hheard.
  now destruct (completionOf (pollOnce env) o) as [[]|e].
Qed.

Lemma runEventLoop_completes (turns : list Turn) (o : Events) :
  (forall env, In env turns -> error_listeners env = Some (Normal tt)) ->
  completionOf (runEventLoop turns) o = Normal tt.
Proof.
  revert o. induction turns as [|env turns IH]; intros o Hheard; [reflexivity|].
  cbn [runEventLoop]. unfold completionOf at 1. rewrite bind_this_run.
  destruct (shouldPoll o); [|reflexivity].
  fold (completionOf (bind (loopBody env) (fun _ => runEventLoop turns)) o).
  rewrite completionOf_bind, loopBody_heard by (apply Hheard; now left).
  apply IH. intros env' Hin. apply Hheard. now right.
Qed.

(** A turn that throws stops after the emission: the object and the effects
    are those of the [try] block, followed by the signal. *)
Lemma loopBody_thrown (env : Turn) (o : Events) (e' : JsError) :
  completionOf (loopBody env) o = Throw e' ->
  exists e,
    completionOf (pollOnce env) o = Throw e
    /\ loopBody env o
       = (after (pollOnce env) o,
          effectsOf (pollOnce env) o ++ [Emitted (ErrorSignal e)],
          Throw e').
Proof.
  intros Hthrown. pose proof Hthrown as Hc. rewrite loopBody_completion in Hc.
  destruct (completionOf (pollOnce env) o) as [[]|e] eqn:Hpoll; [discriminate|].
  exists e. split; [reflexivity|].
  rewrite loopBody_run, Hpoll.
  set (o1 := after (pollOnce env) o). set (fx := effectsOf (pollOnce env) o).
  pose proof (recover_run env e o1) as Hr. rewrite Hc in Hr.
  unfold after, effectsOf, completionOf. now rewrite Hr.
Qed.

(** X16. How a turn of the loop completes.  A turn never changes the
    running flag nor the message limit.  It completes normally when its
    [try] block does.  When the [try] block throws, the turn completes as the
    emission of the [error] signal does: normally when the listeners of
    [error] return normally, with what they throw when they throw, and with
    the error itself when [error] has no listener.  A turn that throws has
    done nothing after the emission (no sleep, no unsubscription, the
    object as the [try] block left it) and is the last one: the loop ends
    with that error whatever the running flag.  A loop whose every turn has
    listeners on [error] that return normally does not throw. *)
Theorem loop_turn_completion (env : Turn) (o : Events) :
  shouldPoll (after (loopBody env) o) = shouldPoll o
  /\ messageLimit (after (loopBody env) o) = messageLimit o
  /\ completionOf (loopBody env) o
     = match completionOf (pollOnce env) o with
       | Normal _ => Normal tt
       | Throw e =>
           match error_listeners env with
           | Some outcome => outcome
           | None => Throw e
           end
       end
  /\ (forall e',
         completionOf (loopBody env) o = Throw e' ->
         exists e,
           completionOf (pollOnce env) o = Throw e
           /\ loopBody env o
              = (after (pollOnce env) o,
                 effectsOf (pollOnce env) o ++ [Emitted (ErrorSignal e)],
                 Throw e'))
  /\ (forall e' turns,
         shouldPoll o = true ->
         completionOf (loopBody env) o = Throw e' ->
         runEventLoop (env :: turns) o = loopBody env o)
  /\ (forall turns,
         (forall env', In env' turns -> error_listeners env' = Some (Normal tt)) ->
         completionOf (runEventLoop turns) o = Normal tt)
  /\ (forall turns, shouldPoll (after (runEventLoop turns) o) = shouldPoll o).
Proof.
  assert (Hkeep : forall m : M unit,
             guarantees (fun o' => shouldPoll o' = shouldPoll o
                                   /\ messageLimit o' = messageLimit o)
                        (fun _ => True) m ->
             shouldPoll (after m o) = shouldPoll o
             /\ messageLimit (after m o) = messageLimit o).
  { intros m Hm. now destruct (Hm o (conj eq_refl eq_refl)). }
  split; [|split].
  - apply Hkeep. apply loopBody_guarantees; cbn; auto.
  - apply Hkeep. apply loopBody_guarantees; cbn; auto.
  - split; [apply loopBody_completion|].
    split; [apply loopBody_thrown|].
    split.
    + intros e' turns Hpoll Hthrown.
      cbn [runEventLoop]. rewrite bind_this_run, Hpoll.
      pose proof (run_triple (loopBody env) o) as Hrun.
      rewrite Hthrown in Hrun. rewrite Hrun.
      now apply bind_throw.
    + split; [intros turns; apply runEventLoop_completes|].
      intros turns. apply Hkeep. apply runEventLoop_guarantees; cbn; auto.
Qed.

End LoopOutcomes.

Section LoopFailures.
Context {E : JsEngine}.
Local Open Scope js_scope.

Lemma notSignal_errorSignals (fx : list Effect) :
  Forall notSignal fx -> errorSignals fx = [] /\ eventSignals fx = [].
Proof.
  induction 1 as [|x fx Hx Hfx [IH1 IH2]]; [cbn; auto|].
  destruct x as [op|s|ms]; cbn in *; try contradiction; auto.
Qed.

(** X17. Errors reach the consumer in exactly one way.  A turn of the loop
    whose [try] block fails emits exactly one [error] signal, carrying the
    error that was thrown; a turn that succeeds emits none.  The direct calls
    emit no signal at all: their errors are their completion. *)
Theorem one_error_signal_per_failed_turn (env : Turn) (o : Events) :
  (completionOf (pollOnce env) o = Normal tt ->
   errorSignals (effectsOf (loopBody env) o) = [])
  /\ (forall e,
         completionOf (pollOnce env) o = Throw e ->
         errorSignals (effectsOf (loopBody env) o) = [e])
  /\ (forall now_current now_termination now answer,
         Forall notSignal
                (effectsOf (createPullPointSubscription
                              now_current now_termination now answer) o))
  /\ (forall opt_messageLimit now answer,
         Forall notSignal (effectsOf (pullMessages opt_messageLimit now answer) o))
  /\ (forall now answer, Forall notSignal (effectsOf (renew now answer) o))
  /\ (forall answer, Forall notSignal (effectsOf (unsubscribe answer) o)).
Proof.
  destruct (pollingEffect_facts (pollOnce_effects env o)) as (Herr & _ & _).
  split.
  { intros Hok. unfold effectsOf at 1. rewrite loopBody_run, Hok. exact Herr. }
  split.
  { intros e He. unfold effectsOf at 1. rewrite loopBody_run, He. cbn [fst snd].
    rewrite errorSignals_app, Herr. unfold effectsOf at 1. rewrite recover_run.
    destruct (emitOutcome (error_listeners env) e); [|reflexivity].
    destruct (isRetryableError e); [reflexivity|].
    now destruct (subscription _). }
  split.
  { intros now_current now_termination now answer.
    rewrite create_effects. repeat constructor. }
  split.
  { intros l now answer.
    apply (@pullMessages_guarantees _ (fun _ => True) notSignal); cbn; auto. }
  split.
  { intros now answer.
    apply (@renew_guarantees _ (fun _ => True) notSignal); cbn; auto. }
  intros answer.
  apply (@unsubscribe_guarantees _ (fun _ => True) notSignal); cbn; auto.
Qed.

(** X18. What a failed turn does to the subscription.  When the listeners
    of [error] return normally: after a retryable failure the subscription
    and its deadline are those the [try] block left and no unsubscribe
    request is sent; after any other failure the loop does not sleep and
    does not touch the retry delay, it unsubscribes when there is a
    subscription, so that the object ends without subscription and the next
    turn starts by creating one, whatever the clock reads.  When [error] has
    no listener, or a listener throws, none of this happens: the turn ends
    with the emission, the object is as the [try] block left it, and the
    turn has neither slept nor sent an unsubscribe request. *)
Theorem failed_turn_teardown (env : Turn) (o o1 : Events) (fx : list Effect)
        (e : JsError) :
  pollOnce env o = (o1, fx, Throw e) ->
  (error_listeners env = Some (Normal tt) ->
   (isRetryableError e = true ->
    subscription (after (loopBody env) o) = subscription o1
    /\ terminationTime (after (loopBody env) o) = terminationTime o1
    /\ ~ In OpUnsubscribe (requests (effectsOf (loopBody env) o)))
   /\ (isRetryableError e = false ->
       subscription (after (loopBody env) o) = None
       /\ sleeps (effectsOf (loopBody env) o) = []
       /\ reconnectMs (after (loopBody env) o) = reconnectMs o1
       /\ (forall now, needsSubscription now (after (loopBody env) o) = true)
       /\ (subscription o1 <> None ->
           terminationTime (after (loopBody env) o) = None
           /\ In OpUnsubscribe (requests (effectsOf (loopBody env) o)))))
  /\ (error_listeners env <> Some (Normal tt) ->
      after (loopBody env) o = o1
      /\ effectsOf (loopBody env) o = fx ++ [Emitted (ErrorSignal e)]
      /\ sleeps (effectsOf (loopBody env) o) = []
      /\ ~ In OpUnsubscribe (requests (effectsOf (loopBody env) o))
      /\ exists e', completionOf (loopBody env) o = Throw e').
Proof.
  intros Hrun.
  destruct (pollingEffect_facts (pollOnce_effects env o)) as (_ & Hsleep & Hunsub).
  assert (Hbody : loopBody env o
                  = (after (recover env e) o1,
                     fx ++ effectsOf (recover env e) o1,
                     completionOf (recover env e) o1)).
  { assert (Hc : completionOf (pollOnce env) o = Throw e)
      by (unfold completionOf; now rewrite Hrun).
    assert (Ha : after (pollOnce env) o = o1) by (unfold after; now rewrite Hrun).
    assert (Hf : effectsOf (pollOnce env) o = fx)
      by (unfold effectsOf; now rewrite Hrun).
    now rewrite loopBody_run, Hc, Ha, Hf. }
  unfold effectsOf in Hsleep, Hunsub. rewrite Hrun in Hsleep, Hunsub.
  cbn [fst snd] in Hsleep, Hunsub.
  unfold after, effectsOf, completionOf. rewrite Hbody. cbn [fst snd].
  unfold after, effectsOf, completionOf.
  rewrite recover_run.
  split.
  - intros Hheard. rewrite Hheard. cbn [emitOutcome].
    rewrite sleeps_app, requests_app, Hsleep.
    split; intros Hretry; rewrite Hretry.
    + cbn [fst snd requests]. repeat split.
      rewrite app_nil_r. exact Hunsub.
    + destruct (subscription o1) eqn:Hs; cbn.
      * split; [reflexivity|]. split; [reflexivity|]. split; [reflexivity|].
        split; [reflexivity|]. intros _. split; [reflexivity|].
        apply in_or_app. right. now left.
      * split; [exact Hs|]. split; [reflexivity|]. split; [reflexivity|].
        split; [intros now; unfold needsSubscription; now rewrite Hs|].
        intros H. now contradiction H.
  - intros Hunheard.
    assert (Hthrown : exists e', emitOutcome (error_listeners env) e = Throw e').
    { destruct (error_listeners env) as [[[]|e']|]; cbn.
      - now contradiction Hunheard.
      - now exists e'.
      - now exists e. }
    destruct Hthrown as [e' ->]. cbn [fst snd].
    split; [reflexivity|]. split; [reflexivity|].
    rewrite sleeps_app, requests_app, Hsleep. cbn. rewrite app_nil_r.
    split; [reflexivity|]. split; [exact Hunsub|]. now exists e'.
Qed.

End LoopFailures.

(* ------------------------------------------------------------------ *)
(** ** The control fields over whole histories *)

Section ControlInvariant.
Context {E : JsEngine}.
Local Open Scope js_scope.

Variable P : Events -> Prop.
Hypothesis Hsubscription : forall v o, P o -> P (set_subscription v o).
Hypothesis Htermination : forall v o, P o -> P (set_terminationTime v o).
Hypothesis Hobserved : forall v o, P o -> P (set_observedCategories v o).
Hypothesis HshouldPoll : forall v o, P o -> P (set_shouldPoll v o).
Hypothesis HmessageLimit : forall v o, P o -> P (set_messageLimit v o).
Hypothesis Hreset : forall o, P o -> P (set_reconnectMs 10 o).
Hypothesis Hgrow : forall o, P o -> P (set_reconnectMs (growDelay (reconnectMs o)) o).

Lemma startEventLoop_guarantees (l : option Z) (turns : list Turn) :
  guarantees P (fun _ => True) (startEventLoop l turns).
Proof.
  unfold startEventLoop. apply guarantees_bind_this. intros o H.
  destruct (shouldPoll o); [now apply guarantees_ret|].
  apply guarantees_bind; [apply guarantees_assign; intros; now apply HshouldPoll| |exact H].
  intros _.
  apply guarantees_bind; [apply guarantees_assign; intros; now apply HmessageLimit|].
  intros _. apply guarantees_background. apply runEventLoop_guarantees; auto.
Qed.

(** An invariant of the setters is an invariant of every call. *)
Lemma perform_call_invariant (c : Call) (o : Events) : P o -> P (perform_call c o).
Proof.
  intros H. destruct c; cbn [perform_call].
  - now apply (@create_guarantees _ P (fun _ => True)).
  - now apply (@pullMessages_guarantees _ P (fun _ => True)).
  - now apply (@renew_guarantees _ P (fun _ => True)).
  - now apply (@unsubscribe_guarantees _ P (fun _ => True)).
  - now apply startEventLoop_guarantees.
  - unfold after. rewrite stopEventLoop_settled_run.
    apply (@guarantees_bind _ P (fun _ => True)); [| |exact H].
    + apply guarantees_assign; intros; now apply HshouldPoll.
    + intros _. now apply unsubscribe_guarantees.
  - now apply Hobserved.
Qed.

Lemma history_invariant (calls : list Call) : P newEvents -> P (history calls).
Proof.
  unfold history. generalize newEvents as o.
  induction calls as [|c calls IH]; intros o H; cbn [fold_left]; [exact H|].
  apply IH. now apply perform_call_invariant.
Qed.

End ControlInvariant.

Section ControlFacts.
Context {E : JsEngine}.
Local Open Scope js_scope.

Lemma growDelay_bounds (d : Q) :
  (10 <= d)%Q -> (d <= MAX_RECONNECT_MS)%Q ->
  (10 <= growDelay d)%Q /\ (growDelay d <= MAX_RECONNECT_MS)%Q.
Proof.
  intros Hlo Hhi. pose proof MAX_RECONNECT_MS_positive as HM.
  rewrite (growDelay_min Hhi).
  assert (H10 : (10 <= MAX_RECONNECT_MS)%Q) by (now apply Qle_trans with d).
  destruct (Q.min_spec (d * (3 # 2)) MAX_RECONNECT_MS) as [[H1 H2]|[H1 H2]];
    rewrite H2; split; lra.
Qed.

(** X19. Over every history of calls on a fresh object the retry delay
    stays between its floor of 10 ms and its ceiling of 120000 ms. *)
Theorem reconnectMs_within_bounds (calls : list Call) :
  (10 <= reconnectMs (history calls))%Q
  /\ (reconnectMs (history calls) <= MAX_RECONNECT_MS)%Q.
Proof.
  apply (@history_invariant _
           (fun o => (10 <= reconnectMs o)%Q /\ (reconnectMs o <= MAX_RECONNECT_MS)%Q));
    cbn; auto.
  - intros o _. split; [apply Qle_refl | discriminate].
  - intros o [Hlo Hhi]. now apply growDelay_bounds.
  - split; [apply Qle_refl | discriminate].
Qed.

(** X20. The delay of consecutive failures never decreases, stays below
    the ceiling for the first 24 failures and is the ceiling from then on. *)
Theorem delayAfter_profile (n : nat) :
  (delayAfter n <= delayAfter (S n))%Q
  /\ ((n < 24)%nat -> (delayAfter n < MAX_RECONNECT_MS)%Q)
  /\ ((24 <= n)%nat -> delayAfter n = MAX_RECONNECT_MS).
Proof.
  split; [|split].
  - destruct (le_lt_dec 24 n) as [Hn|Hn].
    + rewrite (delayAfter_ceiling Hn), (@delayAfter_ceiling (S n)) by lia.
      apply Qle_refl.
    + do 24 (destruct n as [|n]; [apply Qle_bool_iff; vm_compute; reflexivity|]).
      lia.
  - intros Hn.
    do 24 (destruct n as [|n]; [vm_compute; reflexivity|]). lia.
  - apply delayAfter_ceiling.
Qed.

Lemma runEventLoop_stopped (turns : list Turn) (o : Events) :
  shouldPoll o = false -> runEventLoop turns o = (o, [], Normal tt).
Proof.
  intros Hstop. destruct turns as [|env turns]; [reflexivity|].
  cbn [runEventLoop]. rewrite bind_this_run, Hstop. reflexivity.
Qed.

(** What is done in the background is done all the same. *)
Lemma background_run {A : Type} (m : M A) (o : Events) :
  background m o = (after m o, effectsOf m o, Normal tt).
Proof.
  unfold background, after, effectsOf. now destruct (m o) as [[o1 fx] r].
Qed.

Lemma startEventLoop_run (l : option Z) (turns : list Turn) (o : Events) :
  shouldPoll o = false ->
  startEventLoop l turns o
  = background (runEventLoop turns)
      (set_messageLimit (match l with Some n => n | None => DEFAULT_MESSAGE_LIMIT end)
                        (set_shouldPoll true o)).
Proof.
  intros Hstop. unfold startEventLoop. rewrite bind_this_run, Hstop.
  unfold bind, assign.
  now destruct (background (runEventLoop turns) _) as [[o2 fx2] r2].
Qed.

Lemma unsubscribe_begin_run (answer : Completion unit) (o : Events) :
  unsubscribe_begin answer o
  = match subscription o with
    | None => (o, [], Normal (ret tt))
    | Some _ =>
        (o, [Requested OpUnsubscribe],
         Normal (tryFinally
                   (tryCatch (call answer) (fun _ => ret tt))
                   (bind (assign (set_subscription None))
                         (fun _ => assign (set_terminationTime None)))))
    end.
Proof.
  unfold unsubscribe_begin, bind, this, perform, ret.
  now destruct (subscription o).
Qed.

(** X21. Starting and stopping.  [startEventLoop] on a running object does
    nothing at all; on a stopped object it sets the running flag and the
    message limit (10 when none is given), the loop then keeps the flag set,
    and the call itself completes normally however the loop ends.
    [stopEventLoop] clears the flag and returns without waiting for the
    unsubscription: when it returns, the subscription and its deadline are
    still in place, and the unsubscribe request has been sent if there was a
    subscription.  What is left of the unsubscription completes normally
    whatever the device answers, sends nothing more and leaves the object
    stopped and without subscription.  A loop that finds the object stopped
    does nothing more. *)
Theorem start_stop_protocol :
  (forall l turns o,
      shouldPoll o = true -> startEventLoop l turns o = (o, [], Normal tt))
  /\ (forall l turns o,
         shouldPoll o = false ->
         shouldPoll (after (startEventLoop l turns) o) = true
         /\ messageLimit (after (startEventLoop l turns) o)
            = match l with Some n => n | None => 10%Z end
         /\ completionOf (startEventLoop l turns) o = Normal tt)
  /\ (forall answer o,
         shouldPoll (after (stopEventLoop answer) o) = false
         /\ subscription (after (stopEventLoop answer) o) = subscription o
         /\ terminationTime (after (stopEventLoop answer) o) = terminationTime o
         /\ effectsOf (stopEventLoop answer) o
            = match subscription o with
              | Some _ => [Requested OpUnsubscribe]
              | None => []
              end
         /\ exists rest,
             completionOf (stopEventLoop answer) o = Normal rest
             /\ completionOf rest (after (stopEventLoop answer) o) = Normal tt
             /\ effectsOf rest (after (stopEventLoop answer) o) = []
             /\ shouldPoll (after rest (after (stopEventLoop answer) o)) = false
             /\ subscription (after rest (after (stopEventLoop answer) o)) = None)
  /\ (forall turns o,
         shouldPoll o = false -> runEventLoop turns o = (o, [], Normal tt)).
Proof.
  split.
  { intros l turns o Hrun. unfold startEventLoop. now rewrite bind_this_run, Hrun. }
  split.
  { intros l turns o Hstop.
    set (o' := set_messageLimit
                 (match l with Some n => n | None => DEFAULT_MESSAGE_LIMIT end)
                 (set_shouldPoll true o)).
    unfold after, completionOf.
    rewrite (@startEventLoop_run l turns o Hstop), background_run.
    fold o'. cbn [fst snd].
    assert (Hg : guarantees
                   (fun x => shouldPoll x = true /\ messageLimit x = messageLimit o')
                   (fun _ => True) (runEventLoop turns))
      by (apply runEventLoop_guarantees; cbn; auto).
    destruct (Hg o' (conj eq_refl eq_refl)) as [[H1 H2] _].
    split; [exact H1|]. split; [exact H2|]. reflexivity. }
  split.
  { intros answer o.
    assert (Hrun : stopEventLoop answer o
                   = let '(o1, fx, r) := unsubscribe_begin answer (set_shouldPoll false o)
                     in (o1, fx, r)).
    { unfold stopEventLoop, bind, assign.
      now destruct (unsubscribe_begin answer _) as [[o1 fx] r]. }
    rewrite unsubscribe_begin_run in Hrun. cbn [subscription set_shouldPoll] in Hrun.
    unfold after, effectsOf, completionOf. rewrite Hrun.
    destruct (subscription o) eqn:Hs;
      cbn [fst snd shouldPoll subscription terminationTime set_shouldPoll].
    - split; [reflexivity|]. split; [exact Hs|]. split; [reflexivity|].
      split; [reflexivity|].
      eexists. split; [reflexivity|].
      destruct answer as [[]|e]; repeat split.
    - split; [reflexivity|]. split; [exact Hs|]. split; [reflexivity|].
      split; [reflexivity|].
      eexists. split; [reflexivity|]. repeat split. exact Hs. }
  apply runEventLoop_stopped.
Qed.


(** X23. When the device leaves out both times of a subscription response,
    [toDate] falls back on the local clock for each of them, and the
    deadline is the time of the call moved by what the clock advanced
    between the two conversions (nothing, when both fall into the same
    millisecond).  The lifetime granted by the device is lost: the
    subscription counts as expired as soon as the clock has passed that
    instant. *)
Theorem subscription_without_times_expires_at_once
        (now_current now_termination now : Z) (raw : RawSubscription)
        (o : Events) (s : PullPointSubscription.t) :
  completionOf (createPullPointSubscription now_current now_termination now
                                            (Normal (Some raw))) o = Normal s ->
  raw_sub_currentTime raw = RAbsent ->
  raw_sub_terminationTime raw = RAbsent ->
  (Z.abs now_current <= maxTimeValue)%Z ->
  (Z.abs now_termination <= maxTimeValue)%Z ->
  (Z.abs (now + (now_termination - now_current)) <= maxTimeValue)%Z ->
  terminationTime (after (createPullPointSubscription
                            now_current now_termination now (Normal (Some raw))) o)
  = Some (Some (now + (now_termination - now_current))%Z)
  /\ (now_current = now_termination ->
      terminationTime (after (createPullPointSubscription
                                now_current now_termination now (Normal (Some raw))) o)
      = Some (Some now))
  /\ forall later,
      (now + (now_termination - now_current) < later)%Z ->
      needsSubscription later
        (after (createPullPointSubscription
                  now_current now_termination now (Normal (Some raw))) o) = true.
Proof.
  intros Hs Hc Ht Hrange1 Hrange2 Hrange.
  pose proof (run_triple (createPullPointSubscription
                            now_current now_termination now (Normal (Some raw))) o)
    as Hrun.
  rewrite Hs in Hrun. apply create_success in Hrun as [Hafter _].
  assert (Hdeadline : calculateTerminationTime now s
                      = Some (now + (now_termination - now_current))%Z).
  { revert Hs. unfold completionOf, createPullPointSubscription, bind, request, call.
    cbn. destruct (parseUrl _) as [url|e]; cbn; [|discriminate].
    intros [= <-]. rewrite Hc, Ht. unfold calculateTerminationTime. cbn.
    rewrite (@newDate_in_range now_current Hrange1),
      (@newDate_in_range now_termination Hrange2).
    replace (now_termination - (now_current - now))%Z
      with (now + (now_termination - now_current))%Z by lia.
    now apply newDate_in_range. }
  rewrite Hafter, Hdeadline. split; [reflexivity|].
  split.
  { intros ->. cbn [terminationTime set_terminationTime]. do 2 f_equal. lia. }
  intros later Hlater. unfold needsSubscription. cbn.
  now apply Z.ltb_lt.
Qed.

End ControlFacts.

(* ------------------------------------------------------------------ *)
(** ** The further properties on concrete sessions *)

(** X11 on a fresh object. *)
Lemma renew_is_read_only_witness :
  completionOf (renew (E := integerEngine) 0 sampleRenewAnswer) newEvents
  = Throw (newError NO_SUBSCRIPTION).
Proof.
  exact (proj1 (proj1 (proj2 (renew_is_read_only (E := integerEngine)
                                0 sampleRenewAnswer newEvents)) eq_refl)).
Defined.

(** X12 on an object that holds a subscription, the response lacking its
    element. *)
Lemma createPullPointSubscription_outcomes_witness :
  after (createPullPointSubscription (E := integerEngine)
                                     61000 61000 61000 (Normal None))
        subscribedEvents
  = subscribedEvents.
Proof.
  exact (proj1 (proj2 (createPullPointSubscription_outcomes (E := integerEngine)
                         61000 61000 61000 (Normal None) subscribedEvents))
               (newError "Invalid CreatePullPointSubscription response") eq_refl).
Defined.

(** X13 on an object that holds a subscription, the response lacking its
    element. *)
Lemma pullMessages_outcomes_witness :
  after (pullMessages (E := integerEngine) None 61000 (Normal None)) subscribedEvents
  = subscribedEvents.
Proof.
  exact (proj1 (pullMessages_outcomes (E := integerEngine)
                  None 61000 (Normal None) subscribedEvents)
               (newError "Invalid PullMessages response") eq_refl).
Defined.

(** X14 on an unsubscribe after motion was observed. *)
Lemma observedCategories_grow_witness :
  In motion
     (getObservedCategories
        (perform_call (E := integerEngine) (CallUnsubscribe (Normal tt))
                      (set_observedCategories [motion] subscribedEvents))).
Proof.
  apply (proj1 (observedCategories_grow (E := integerEngine))).
  - discriminate.
  - left. reflexivity.
Defined.

(** X15 on a pull that returns one motion message. *)
Lemma pulled_categories_are_observed_witness :
  hasObservedCategory motion
    (after (pullMessages (E := integerEngine) None 61000 motionPullAnswer)
           subscribedEvents)
  = true.
Proof.
  apply (proj1 (pulled_categories_are_observed (E := integerEngine))
               None 61000%Z motionPullAnswer subscribedEvents
               (PullMessagesResult.mk (Some 60000%Z) (Some 180000%Z)
                                      [motionMessage [] []])
               (motionMessage [] [])
               "tns1:RuleEngine/CellMotionDetector/Motion").
  - reflexivity.
  - left. reflexivity.
  - reflexivity.
  - vm_compute. discriminate.
Defined.

(** X16 on a turn in which the creation request is refused while nothing
    listens to [error]: the loop ends with that turn. *)
Lemma loop_turn_completion_witness :
  runEventLoop (E := integerEngine) [unheardTurn 0; refusedTurn 1000]
               (set_shouldPoll true newEvents)
  = loopBody (E := integerEngine) (unheardTurn 0) (set_shouldPoll true newEvents).
Proof.
  exact (proj1 (proj2 (proj2 (proj2 (proj2
           (loop_turn_completion (E := integerEngine) (unheardTurn 0)
                                 (set_shouldPoll true newEvents))))))
               (mkError "connect ECONNREFUSED" (Some "ECONNREFUSED"))
               [refusedTurn 1000] eq_refl eq_refl).
Defined.

(** X17 on a turn in which the creation request is refused. *)
Lemma one_error_signal_per_failed_turn_witness :
  errorSignals (effectsOf (loopBody (E := integerEngine) (refusedTurn 0)) newEvents)
  = [mkError "connect ECONNREFUSED" (Some "ECONNREFUSED")].
Proof.
  exact (proj1 (proj2 (one_error_signal_per_failed_turn (E := integerEngine)
                         (refusedTurn 0) newEvents))
               (mkError "connect ECONNREFUSED" (Some "ECONNREFUSED")) eq_refl).
Defined.

(** X18 on a turn in which the device rejects the pull. *)
Lemma failed_turn_teardown_witness :
  subscription (after (loopBody (E := integerEngine) (rejectedTurn 61000))
                      subscribedEvents)
  = None.
Proof.
  refine (proj1 (proj2 (proj1 (@failed_turn_teardown integerEngine
                                 (rejectedTurn 61000) subscribedEvents subscribedEvents
                                 [Requested (OpPullMessages 10)]
                                 (newError "HTTP error! status: 401") _) _) _)).
  - reflexivity.
  - reflexivity.
  - reflexivity.
Defined.

(** X20 at the fourth failure. *)
Lemma delayAfter_profile_witness : (delayAfter 3 < MAX_RECONNECT_MS)%Q.
Proof.
  apply (proj1 (proj2 (delayAfter_profile 3))). repeat constructor.
Defined.

(** X21 on an object that is already running. *)
Lemma start_stop_protocol_witness :
  startEventLoop (E := integerEngine) (Some 5%Z) [refusedTurn 0]
                 (set_shouldPoll true newEvents)
  = (set_shouldPoll true newEvents, [], Normal tt).
Proof.
  exact (proj1 (start_stop_protocol (E := integerEngine))
               (Some 5%Z) [refusedTurn 0] (set_shouldPoll true newEvents) eq_refl).
Defined.

(** Stopping an object that holds a subscription: the call returns with the
    subscription in place and the request sent; the subscription is gone once
    what the call left behind has run. *)
Example stopEventLoop_sample :
  subscription (after (stopEventLoop (E := integerEngine) (Normal tt)) subscribedEvents)
  = Some sampleSubscription
  /\ effectsOf (stopEventLoop (E := integerEngine) (Normal tt)) subscribedEvents
     = [Requested OpUnsubscribe]
  /\ subscription (after (settled (stopEventLoop (E := integerEngine) (Normal tt)))
                         subscribedEvents)
     = None.
Proof. repeat split; reflexivity. Qed.


(** X23 on a subscription response that carries an address only, the
    clock advancing by one millisecond between the readings. *)
Lemma subscription_without_times_expires_at_once_witness :
  terminationTime
    (after (createPullPointSubscription (E := integerEngine) 5000 5001 5002
              (Normal (Some (mkRawSubscription
                               (Some (mkRawReference
                                        (Some "http://camera/onvif/subscription") None))
                               RAbsent RAbsent))))
           newEvents)
  = Some (Some 5003%Z).
Proof.
  refine (proj1 (@subscription_without_times_expires_at_once integerEngine
                   5000 5001 5002
                   (mkRawSubscription
                      (Some (mkRawReference
                               (Some "http://camera/onvif/subscription") None))
                      RAbsent RAbsent)
                   newEvents
                   (PullPointSubscription.mk
                      (mkReference (mkURL "http://camera/onvif/subscription") None)
                      (Some 5000%Z) (Some 5001%Z))
                   _ _ _ _ _ _)).
  - reflexivity.
  - reflexivity.
  - reflexivity.
  - vm_compute. discriminate.
  - vm_compute. discriminate.
  - vm_compute. discriminate.
Defined.
